(** * The pac agent of src/main.go: grid search, pellet and unit registries,
      and the per-turn planner, embedded as executable definitions.

    Conventions of the embedding.
    - A Go [int] is a [Z]; the arithmetic the search performs on cell fields is
      wrapped to 64 bits by [wrap].
    - A Go run-time panic (index out of range, nil dereference) is the outcome
      [Panic]; loops of the source that are not bounded by a slice are run with
      a step budget, and an exhausted budget is the separate outcome
      [OutOfFuel], so neither is ever confused with a returned value.
    - A [*Cell] held by a grid is identified with the slot (row, column) that
      holds it; a [*Pellet] or [*Pac] with its index in the slice that holds
      it.  Every such object is allocated by exactly one [append] or slot
      assignment of the source, so slots and pointers correspond one to one.
    - The calls to [log] write to the standard error stream only and are left
      out. *)

From stdpp Require Import base option list strings gmap pretty.
From Stdlib Require Import ZArith Lia Ascii.

Local Open Scope Z_scope.

(** ** Outcomes *)

Inductive result (A : Type) : Type :=
| Ok (a : A)
| Panic
| OutOfFuel.
Arguments Ok {A} a.
Arguments Panic {A}.
Arguments OutOfFuel {A}.

#[global] Instance result_ret : MRet result := λ A a, Ok a.
#[global] Instance result_bind : MBind result := λ A B k m,
  match m with
  | Ok a => k a
  | Panic => Panic
  | OutOfFuel => OutOfFuel
  end.

(** 64-bit two's complement wrap-around of Go's [int]. *)
Definition wrap (z : Z) : Z := (z + 2 ^ 63) `mod` 2 ^ 64 - 2 ^ 63.

(** [l[i]] on a slice: a panic outside [0 .. len l - 1]. *)
Definition index {A} (l : list A) (i : Z) : result A :=
  if decide (0 ≤ i) then
    match l !! Z.to_nat i with
    | Some a => Ok a
    | None => Panic
    end
  else Panic.

(** A dereference of a possibly nil pointer. *)
Definition deref {A} (p : option A) : result A :=
  match p with
  | Some a => Ok a
  | None => Panic
  end.

(** ** Cells and grids *)

(** The slot (row, column) of a grid that holds a cell. *)
Abbreviation CellRef := (nat * nat)%type.

Module Cell.
Record t : Type := mk {
  x : Z;
  y : Z;
  isWall : bool;
  g : Z;
  h : Z;
  f : Z;
  parent : option CellRef;
  index : Z;
  Neighbors : list CellRef
}.

Definition set_g (v : Z) (c : t) : t :=
  mk (x c) (y c) (isWall c) v (h c) (f c) (parent c) (index c) (Neighbors c).
Definition set_h (v : Z) (c : t) : t :=
  mk (x c) (y c) (isWall c) (g c) v (f c) (parent c) (index c) (Neighbors c).
Definition set_f (v : Z) (c : t) : t :=
  mk (x c) (y c) (isWall c) (g c) (h c) v (parent c) (index c) (Neighbors c).
Definition set_parent (v : option CellRef) (c : t) : t :=
  mk (x c) (y c) (isWall c) (g c) (h c) (f c) v (index c) (Neighbors c).
Definition set_index (v : Z) (c : t) : t :=
  mk (x c) (y c) (isWall c) (g c) (h c) (f c) (parent c) v (Neighbors c).
Definition set_Neighbors (v : list CellRef) (c : t) : t :=
  mk (x c) (y c) (isWall c) (g c) (h c) (f c) (parent c) (index c) v.
End Cell.

(** [[][]*Cell]: the rows may differ in length, as in Go. *)
Abbreviation CellGrid := (list (list Cell.t)).

(** The pointer stored at [grid[y][x]]. *)
Definition GetCell (x y : Z) (grid : CellGrid) : result CellRef :=
  row ← index grid y;
  _ ← index row x;
  Ok (Z.to_nat y, Z.to_nat x).

(** The cell a pointer points to. *)
Definition cell_at (grid : CellGrid) (r : CellRef) : result Cell.t :=
  deref (grid !! r.1 ≫= λ row, row !! r.2).

(** An assignment through a cell pointer. *)
Definition cell_update (upd : Cell.t → Cell.t) (r : CellRef) (grid : CellGrid)
  : result CellGrid :=
  c ← cell_at grid r;
  Ok (alter (λ row, <[r.2 := upd c]> row) r.1 grid).

Definition getNeighbors (cell : Cell.t) (grid : CellGrid) : result (list CellRef) :=
  let neighbors := [] in
  let x := Cell.x cell in
  let y := Cell.y cell in
  neighbors ←
    (if decide (x > 0) then
       n ← GetCell (x - 1) y grid; Ok (neighbors ++ [n])
     else Ok neighbors);
  row0 ← index grid 0;
  neighbors ←
    (if decide (x < Z.of_nat (length row0) - 1) then
       n ← GetCell (x + 1) y grid; Ok (neighbors ++ [n])
     else Ok neighbors);
  neighbors ←
    (if decide (y > 0) then
       n ← GetCell x (y - 1) grid; Ok (neighbors ++ [n])
     else Ok neighbors);
  neighbors ←
    (if decide (y < Z.of_nat (length grid) - 1) then
       n ← GetCell x (y + 1) grid; Ok (neighbors ++ [n])
     else Ok neighbors);
  Ok neighbors.

Definition InitNeighbors (c : CellRef) (grid : CellGrid) : result CellGrid :=
  cell ← cell_at grid c;
  ns ← getNeighbors cell grid;
  cell_update (Cell.set_Neighbors ns) c grid.

Definition abs (x : Z) : Z := if decide (x < 0) then wrap (- x) else x.

Definition manhattanDistance (a b : Cell.t) : Z :=
  wrap (abs (wrap (Cell.x a - Cell.x b)) + abs (wrap (Cell.y a - Cell.y b))).

(** The composite literal of [cloneGrid]: the fields it does not name take
    their zero values, among them a nil [Neighbors]. *)
Definition cloneCell (cell : Cell.t) : Cell.t :=
  Cell.mk (Cell.x cell) (Cell.y cell) (Cell.isWall cell) 0 0 0 None 0 [].

Definition cloneGrid (grid : CellGrid) : CellGrid :=
  map (λ row, map cloneCell row) grid.

(** ** The priority queue and container/heap *)

(** The state one search works on: its private clone, through which every
    cell pointer of the search is read and written, and the open set. *)
Record Search : Type := mkSearch {
  cells : CellGrid;
  pq : list CellRef
}.

Definition Len (s : Search) : Z := Z.of_nat (length (pq s)).

Definition Less (i j : Z) (s : Search) : result bool :=
  pi ← index (pq s) i;
  ci ← cell_at (cells s) pi;
  pj ← index (pq s) j;
  cj ← cell_at (cells s) pj;
  Ok (bool_decide (Cell.f ci < Cell.f cj)).

Definition Swap (i j : Z) (s : Search) : result Search :=
  pj ← index (pq s) j;
  pi ← index (pq s) i;
  let q := <[Z.to_nat j := pi]> (<[Z.to_nat i := pj]> (pq s)) in
  qi ← index q i;
  cs ← cell_update (Cell.set_index i) qi (cells s);
  qj ← index q j;
  cs ← cell_update (Cell.set_index j) qj cs;
  Ok (mkSearch cs q).

Definition Push (item : CellRef) (s : Search) : result Search :=
  let n := Len s in
  cs ← cell_update (Cell.set_index n) item (cells s);
  Ok (mkSearch cs (pq s ++ [item])).

Definition Pop (s : Search) : result (CellRef * Search) :=
  let old := pq s in
  let n := Len s in
  item ← index old (n - 1);
  cs ← cell_update (Cell.set_index (-1)) item (cells s);
  Ok (item, mkSearch cs (take (Z.to_nat (n - 1)) old)).

(** [heap.up]: [j] strictly decreases until it is the root, so a budget of
    [j + 1] steps is never exhausted. *)
Fixpoint up_loop (fuel : nat) (j : Z) (s : Search) : result Search :=
  match fuel with
  | O => OutOfFuel
  | S fuel =>
      let i := (j - 1) `quot` 2 in
      if decide (i = j) then Ok s
      else
        lt ← Less j i s;
        if negb (lt : bool) then Ok s
        else s ← Swap i j s; up_loop fuel i s
  end.

Definition up (j : Z) (s : Search) : result Search :=
  up_loop (S (Z.to_nat j)) j s.

(** [heap.down]: [i] strictly increases below [n]. *)
Fixpoint down_loop (fuel : nat) (i n : Z) (s : Search) : result (Z * Search) :=
  match fuel with
  | O => OutOfFuel
  | S fuel =>
      let j1 := wrap (2 * i + 1) in
      if decide (j1 >= n ∨ j1 < 0) then Ok (i, s)
      else
        let j2 := j1 + 1 in
        lt21 ← (if decide (j2 < n) then Less j2 j1 s else Ok false);
        let j := if (lt21 : bool) then j2 else j1 in
        lt ← Less j i s;
        if negb (lt : bool) then Ok (i, s)
        else s ← Swap i j s; down_loop fuel j n s
  end.

Definition down (i0 n : Z) (s : Search) : result (bool * Search) :=
  '(i, s) ← down_loop (S (Z.to_nat n)) i0 n s;
  Ok (bool_decide (i > i0), s).

Fixpoint Init_loop (k : nat) (n : Z) (s : Search) : result Search :=
  match k with
  | O => Ok s
  | S k =>
      '(_, s) ← down (Z.of_nat k) n s;
      Init_loop k n s
  end.

(** [heap.Init]: [for i := n/2 - 1; i >= 0; i--]. *)
Definition heap_Init (s : Search) : result Search :=
  let n := Len s in
  Init_loop (Z.to_nat (n `quot` 2)) n s.

Definition heap_Push (x : CellRef) (s : Search) : result Search :=
  s ← Push x s;
  up (Len s - 1) s.

Definition heap_Pop (s : Search) : result (CellRef * Search) :=
  let n := Len s - 1 in
  s ← Swap 0 n s;
  '(_, s) ← down 0 n s;
  Pop s.

Definition heap_Fix (i : Z) (s : Search) : result Search :=
  '(moved, s) ← down i (Len s) s;
  if negb moved then up i s else Ok s.

Definition update (item : CellRef) (g h : Z) (s : Search) : result Search :=
  cs ← cell_update (Cell.set_g g) item (cells s);
  cs ← cell_update (Cell.set_h h) item cs;
  cs ← cell_update (Cell.set_f (wrap (g + h))) item cs;
  c ← cell_at cs item;
  heap_Fix (Cell.index c) (mkSearch cs (pq s)).

Definition contains (s : Search) (cell : CellRef) : bool :=
  bool_decide (cell ∈ pq s).

(** ** A* *)

(** The body of [for _, neighbor := range current.Neighbors]. *)
Fixpoint neighbors_loop (ns : list CellRef) (current goal : CellRef)
    (closedSet : gset CellRef) (s : Search) : result Search :=
  match ns with
  | [] => Ok s
  | neighbor :: ns =>
      nc ← cell_at (cells s) neighbor;
      if Cell.isWall nc || bool_decide (neighbor ∈ closedSet) then
        neighbors_loop ns current goal closedSet s
      else
        cur ← cell_at (cells s) current;
        let tentativeGScore := wrap (Cell.g cur + 1) in
        proceed ←
          (if negb (contains s neighbor) then
             s ← heap_Push neighbor s; Ok (Some s)
           else if decide (tentativeGScore >= Cell.g nc) then Ok None
           else Ok (Some s));
        match proceed with
        | None => neighbors_loop ns current goal closedSet s
        | Some s =>
            cs ← cell_update (Cell.set_parent (Some current)) neighbor (cells s);
            nc ← cell_at cs neighbor;
            gc ← cell_at cs goal;
            s ← update neighbor tentativeGScore (manhattanDistance nc gc)
                  (mkSearch cs (pq s));
            neighbors_loop ns current goal closedSet s
        end
  end.

(** [for current != nil { path = append([]*Cell{current}, path...) ... }]. *)
Fixpoint walk (fuel : nat) (current : option CellRef) (path : list CellRef)
    (cs : CellGrid) : result (list CellRef) :=
  match current with
  | None => Ok path
  | Some c =>
      match fuel with
      | O => OutOfFuel
      | S fuel =>
          cell ← cell_at cs c;
          walk fuel (Cell.parent cell) (c :: path) cs
      end
  end.

(** [for openSet.Len() > 0 { ... }]; the result [[]] is Go's nil path. *)
Fixpoint search_loop (fuel : nat) (goal : CellRef) (closedSet : gset CellRef)
    (s : Search) : result (list Cell.t) :=
  if decide (Len s > 0) then
    match fuel with
    | O => OutOfFuel
    | S fuel =>
        '(current, s) ← heap_Pop s;
        if decide (current = goal) then
          path ← walk (S (length (concat (cells s)))) (Some current) [] (cells s);
          mapM (λ r, cell_at (cells s) r) path
        else
          let closedSet := {[current]} ∪ closedSet in
          cur ← cell_at (cells s) current;
          s ← neighbors_loop (Cell.Neighbors cur) current goal closedSet s;
          search_loop fuel goal closedSet s
    end
  else Ok [].

(** Every pass of the main loop closes a cell that was open, so one more pass
    than the grid has cells is never needed. *)
Definition AStar (startX startY endX endY : Z) (grid : CellGrid)
  : result (list Cell.t) :=
  let openSet := mkSearch (cloneGrid grid) [] in
  openSet ← heap_Init openSet;
  start ← GetCell startX startY (cells openSet);
  goal ← GetCell endX endY (cells openSet);
  openSet ← heap_Push start openSet;
  search_loop (S (length (concat grid))) goal ∅ openSet.

(** ** Building the game grid (the start of [main]) *)

(** One row of the maze.  [make([]*Cell, width)] leaves every slot nil and the
    loop over the characters fills them from the left: a row longer than
    [width] panics on the assignment, a shorter one leaves nil cells behind on
    which the neighbour initialisation that follows panics.  The rows are
    taken to be ASCII, so the byte offset [range] yields is the column. *)
Definition initRow (width i : Z) (row : string) : result (list Cell.t) :=
  let chars := String.list_ascii_of_string row in
  if decide (Z.of_nat (length chars) = width) then
    Ok (imap (λ j c,
                Cell.mk (Z.of_nat j) i (bool_decide (c = "#"%char)) 0 0 0 None 0 [])
             chars)
  else Panic.

(** All slots of a grid, row by row. *)
Definition slots (grid : CellGrid) : list CellRef :=
  concat (imap (λ i row, imap (λ j _, (i, j)) row) grid).

Fixpoint InitNeighbors_all (refs : list CellRef) (grid : CellGrid)
  : result CellGrid :=
  match refs with
  | [] => Ok grid
  | c :: refs => grid ← InitNeighbors c grid; InitNeighbors_all refs grid
  end.

(** [rows] are the lines read after the dimensions; a missing line reads as
    the empty string.  [make] panics on a negative height; a negative width
    is met only when a row is made, and no row has that many characters. *)
Definition initGrid (width height : Z) (rows : list string) : result CellGrid :=
  if decide (height < 0) then Panic
  else
    grid ← mapM (λ i, initRow width i (default ""%string (rows !! Z.to_nat i)))
                (seqZ 0 height);
    InitNeighbors_all (slots grid) grid.

(** ** Pellets, pacs and the game state *)

Module Pellet.
Record t : Type := mk {
  X : Z;
  Y : Z;
  Value : Z;
  Consumed : bool;
  Targeted : bool
}.

Definition set_X (v : Z) (p : t) : t :=
  mk v (Y p) (Value p) (Consumed p) (Targeted p).
Definition set_Y (v : Z) (p : t) : t :=
  mk (X p) v (Value p) (Consumed p) (Targeted p).
Definition set_Value (v : Z) (p : t) : t :=
  mk (X p) (Y p) v (Consumed p) (Targeted p).
Definition set_Consumed (v : bool) (p : t) : t :=
  mk (X p) (Y p) (Value p) v (Targeted p).
Definition set_Targeted (v : bool) (p : t) : t :=
  mk (X p) (Y p) (Value p) (Consumed p) v.
End Pellet.

Module Pac.
Record t : Type := mk {
  Id : Z;
  Mine : bool;
  X : Z;
  Y : Z;
  TypeId : string;
  SpeedTurnsLeft : Z;
  AbilityCooldown : Z;
  TargetX : Z;
  TargetY : Z;
  TargetPelletId : Z;
  TargetPelletDist : Z
}.

Definition set_X (v : Z) (p : t) : t :=
  mk (Id p) (Mine p) v (Y p) (TypeId p) (SpeedTurnsLeft p)
     (AbilityCooldown p) (TargetX p) (TargetY p) (TargetPelletId p)
     (TargetPelletDist p).
Definition set_Y (v : Z) (p : t) : t :=
  mk (Id p) (Mine p) (X p) v (TypeId p) (SpeedTurnsLeft p)
     (AbilityCooldown p) (TargetX p) (TargetY p) (TargetPelletId p)
     (TargetPelletDist p).
Definition set_TypeId (v : string) (p : t) : t :=
  mk (Id p) (Mine p) (X p) (Y p) v (SpeedTurnsLeft p)
     (AbilityCooldown p) (TargetX p) (TargetY p) (TargetPelletId p)
     (TargetPelletDist p).
Definition set_SpeedTurnsLeft (v : Z) (p : t) : t :=
  mk (Id p) (Mine p) (X p) (Y p) (TypeId p) v
     (AbilityCooldown p) (TargetX p) (TargetY p) (TargetPelletId p)
     (TargetPelletDist p).
Definition set_AbilityCooldown (v : Z) (p : t) : t :=
  mk (Id p) (Mine p) (X p) (Y p) (TypeId p) (SpeedTurnsLeft p)
     v (TargetX p) (TargetY p) (TargetPelletId p)
     (TargetPelletDist p).
Definition set_TargetX (v : Z) (p : t) : t :=
  mk (Id p) (Mine p) (X p) (Y p) (TypeId p) (SpeedTurnsLeft p)
     (AbilityCooldown p) v (TargetY p) (TargetPelletId p)
     (TargetPelletDist p).
Definition set_TargetY (v : Z) (p : t) : t :=
  mk (Id p) (Mine p) (X p) (Y p) (TypeId p) (SpeedTurnsLeft p)
     (AbilityCooldown p) (TargetX p) v (TargetPelletId p)
     (TargetPelletDist p).
Definition set_TargetPelletDist (v : Z) (p : t) : t :=
  mk (Id p) (Mine p) (X p) (Y p) (TypeId p) (SpeedTurnsLeft p)
     (AbilityCooldown p) (TargetX p) (TargetY p) (TargetPelletId p)
     v.
End Pac.

Module Game.
Record t : Type := mk {
  Width : Z;
  Height : Z;
  MyPacs : list Pac.t;
  OpponentPacs : list Pac.t;
  Pellet : list Pellet.t;
  Grid : CellGrid;
  MyScore : Z;
  OpponentScore : Z;
  VisiblePacCount : Z;
  VisiblePalleteCount : Z
}.

Definition set_MyPacs (v : list Pac.t) (g : t) : t :=
  mk (Width g) (Height g) v (OpponentPacs g) (Pellet g) (Grid g)
     (MyScore g) (OpponentScore g) (VisiblePacCount g)
     (VisiblePalleteCount g).
Definition set_OpponentPacs (v : list Pac.t) (g : t) : t :=
  mk (Width g) (Height g) (MyPacs g) v (Pellet g) (Grid g)
     (MyScore g) (OpponentScore g) (VisiblePacCount g)
     (VisiblePalleteCount g).
Definition set_Pellet (v : list Pellet.t) (g : t) : t :=
  mk (Width g) (Height g) (MyPacs g) (OpponentPacs g) v (Grid g)
     (MyScore g) (OpponentScore g) (VisiblePacCount g)
     (VisiblePalleteCount g).
Definition set_MyScore (v : Z) (g : t) : t :=
  mk (Width g) (Height g) (MyPacs g) (OpponentPacs g) (Pellet g) (Grid g)
     v (OpponentScore g) (VisiblePacCount g) (VisiblePalleteCount g).
Definition set_OpponentScore (v : Z) (g : t) : t :=
  mk (Width g) (Height g) (MyPacs g) (OpponentPacs g) (Pellet g) (Grid g)
     (MyScore g) v (VisiblePacCount g) (VisiblePalleteCount g).
Definition set_VisiblePacCount (v : Z) (g : t) : t :=
  mk (Width g) (Height g) (MyPacs g) (OpponentPacs g) (Pellet g) (Grid g)
     (MyScore g) (OpponentScore g) v (VisiblePalleteCount g).
Definition set_VisiblePalleteCount (v : Z) (g : t) : t :=
  mk (Width g) (Height g) (MyPacs g) (OpponentPacs g) (Pellet g) (Grid g)
     (MyScore g) (OpponentScore g) (VisiblePacCount g) v.
End Game.

(** ** The unit registry *)

(** The scan [for _, pac := range pacs { if pac.Id == id { ... return } }]
    stops at the first pac with the id; [list_find] yields its slot. *)
Definition AddPac (id mine x y : Z) (typeId : string)
    (speedTurnsLeft abilityCooldown : Z) (g : Game.t) : Game.t :=
  let pacs := if decide (mine = 1) then Game.MyPacs g else Game.OpponentPacs g in
  let pacs :=
    match list_find (λ pac, Pac.Id pac = id) pacs with
    | Some (i, pac) =>
        <[i := Pac.set_AbilityCooldown abilityCooldown
                 (Pac.set_SpeedTurnsLeft speedTurnsLeft
                    (Pac.set_TypeId typeId
                       (Pac.set_Y y (Pac.set_X x pac))))]> pacs
    | None =>
        pacs ++ [Pac.mk id (bool_decide (mine = 1)) x y typeId speedTurnsLeft
                        abilityCooldown x y 0 0]
    end in
  if decide (mine = 1) then Game.set_MyPacs pacs g
  else Game.set_OpponentPacs pacs g.

(** ** The pellet registry *)

(** The parameter [id] is not used by the source either. *)
Definition AddPellet (id x y value : Z) (g : Game.t) : Game.t :=
  match list_find (λ pellet, Pellet.X pellet = x ∧ Pellet.Y pellet = y)
                  (Game.Pellet g) with
  | Some (i, pellet) =>
      Game.set_Pellet
        (<[i := Pellet.set_Consumed false
                  (Pellet.set_Value value
                     (Pellet.set_Y y (Pellet.set_X x pellet)))]>
           (Game.Pellet g)) g
  | None =>
      Game.set_Pellet (Game.Pellet g ++ [Pellet.mk x y value false false]) g
  end.

(** [GetPallet]: the first pellet at the coordinates, as its slot; [None] is
    the nil pointer. *)
Definition GetPallet (x y : Z) (g : Game.t) : option nat :=
  fst <$> list_find (λ pallet, Pellet.X pallet = x ∧ Pellet.Y pallet = y)
                    (Game.Pellet g).

(** The scan shared, up to the value compared with, by
    [GetClosestSuperPallet] and [GetClosestRegularPallet]; [i] is the slot of
    the head of [pallets], and [len(path)] of a nil path is 0. *)
Fixpoint closest_scan (value : Z) (pac : Pac.t) (grid : CellGrid)
    (pallets : list Pellet.t) (i : nat)
    (closest : option nat) (closestDist : Z) : result (option nat) :=
  match pallets with
  | [] => Ok closest
  | pallet :: pallets =>
      if bool_decide (Pellet.Value pallet = value)
         && negb (Pellet.Consumed pallet) && negb (Pellet.Targeted pallet)
      then
        path ← AStar (Pac.X pac) (Pac.Y pac) (Pellet.X pallet) (Pellet.Y pallet)
                     grid;
        if decide (closest = None ∨ Z.of_nat (length path) < closestDist) then
          closest_scan value pac grid pallets (S i)
                       (Some i) (Z.of_nat (length path))
        else closest_scan value pac grid pallets (S i) closest closestDist
      else closest_scan value pac grid pallets (S i) closest closestDist
  end.

Definition GetClosestSuperPallet (pac : Pac.t) (g : Game.t)
  : result (option nat) :=
  closest_scan 10 pac (Game.Grid g) (Game.Pellet g) 0%nat None 0.

Definition GetClosestRegularPallet (pac : Pac.t) (g : Game.t)
  : result (option nat) :=
  closest_scan 1 pac (Game.Grid g) (Game.Pellet g) 0%nat None 0.

(** [CheckTargetEaten] writes to the pac only; the pac is passed by value and
    returned, and the caller stores it back in its slot. *)
Definition CheckTargetEaten (pac : Pac.t) (g : Game.t) : Pac.t :=
  let reset :=
    Pac.set_TargetPelletDist (-1)
      (Pac.set_TargetY (Pac.Y pac) (Pac.set_TargetX (Pac.X pac) pac)) in
  match GetPallet (Pac.TargetX pac) (Pac.TargetY pac) g ≫=
        λ i, Game.Pellet g !! i with
  | Some pallet => if Pellet.Consumed pallet then reset else pac
  | None => reset
  end.

(** [RemovePallet] writes to the pellet only. *)
Definition RemovePallet (pac : Pac.t) (g : Game.t) : Game.t :=
  match GetPallet (Pac.X pac) (Pac.Y pac) g with
  | Some i =>
      Game.set_Pellet (alter (Pellet.set_Consumed true) i (Game.Pellet g)) g
  | None => g
  end.

(** ** The turn planner *)

(** [fmt.Sprintf("MOVE %d %d %d|", id, x, y)]. *)
Definition Sprintf_MOVE (id x y : Z) : string :=
  "MOVE " +:+ pretty id +:+ " " +:+ pretty x +:+ " " +:+ pretty y +:+ "|".

(** One pass of the first loop of [PlayTurn], on the pac in slot [i]. *)
Definition reconcile_step (g : Game.t) (i : nat) : Game.t :=
  match Game.MyPacs g !! i with
  | Some pac =>
      let g := RemovePallet pac g in
      Game.set_MyPacs (<[i := CheckTargetEaten pac g]> (Game.MyPacs g)) g
  | None => g
  end.

Definition reconcile_mine (g : Game.t) : Game.t :=
  foldl reconcile_step g (seq 0 (length (Game.MyPacs g))).

Definition reconcile_opponents (g : Game.t) : Game.t :=
  foldl (λ g pac, RemovePallet pac g) g (Game.OpponentPacs g).

(** The commitment to the pellet in slot [i]; the source repeats these five
    statements in the super and in the regular branch. *)
Definition commit (i : nat) (pac : Pac.t) (g : Game.t) (moves : string)
  : result (Pac.t * Game.t * string) :=
  pallet ← deref (Game.Pellet g !! i);
  let moves :=
    moves +:+ Sprintf_MOVE (Pac.Id pac) (Pellet.X pallet) (Pellet.Y pallet) in
  let pac := Pac.set_TargetX (Pellet.X pallet) pac in
  let pac := Pac.set_TargetY (Pellet.Y pallet) pac in
  path ← AStar (Pac.X pac) (Pac.Y pac) (Pellet.X pallet) (Pellet.Y pallet)
               (Game.Grid g);
  let pac := Pac.set_TargetPelletDist (Z.of_nat (length path)) pac in
  Ok (pac,
      Game.set_Pellet (alter (Pellet.set_Targeted true) i (Game.Pellet g)) g,
      moves).

(** The body of the last loop of [PlayTurn].  In the innermost branch the
    variable [pallet] is nil, and the source reads [pallet.X] there. *)
Definition plan (pac : Pac.t) (g : Game.t) (moves : string)
  : result (Pac.t * Game.t * string) :=
  if decide (Pac.X pac = Pac.TargetX pac ∧ Pac.Y pac = Pac.TargetY pac) then
    let old := GetPallet (Pac.TargetX pac) (Pac.TargetY pac) g in
    let pg :=
      match old with
      | Some o =>
          (Pac.set_TargetPelletDist (-1)
             (Pac.set_TargetY (-1) (Pac.set_TargetX (-1) pac)),
           Game.set_Pellet (alter (Pellet.set_Value 0) o (Game.Pellet g)) g)
      | None => (pac, g)
      end in
    let pac := pg.1 in
    let g := pg.2 in
    pallet ← GetClosestSuperPallet pac g;
    match pallet with
    | Some i => commit i pac g moves
    | None =>
        pallet ← GetClosestRegularPallet pac g;
        match pallet with
        | Some i => commit i pac g moves
        | None =>
            target ← deref (pallet ≫= λ i, Game.Pellet g !! i);
            let moves :=
              moves +:+
              Sprintf_MOVE (Pac.Id pac) (Pellet.X target) (Pellet.Y target) in
            Ok (Pac.set_TargetPelletDist 0
                  (Pac.set_TargetY (Pac.Y pac)
                     (Pac.set_TargetX (Pac.X pac) pac)),
                g, moves)
        end
    end
  else
    Ok (pac, g,
        moves +:+ Sprintf_MOVE (Pac.Id pac) (Pac.TargetX pac) (Pac.TargetY pac)).

Fixpoint plan_loop (slots : list nat) (g : Game.t) (moves : string)
  : result (Game.t * string) :=
  match slots with
  | [] => Ok (g, moves)
  | i :: slots =>
      pac ← deref (Game.MyPacs g !! i);
      '(pac, g, moves) ← plan pac g moves;
      plan_loop slots (Game.set_MyPacs (<[i := pac]> (Game.MyPacs g)) g) moves
  end.

(** [PlayTurn]: the new state and the line it prints. *)
Definition PlayTurn (g : Game.t) : result (Game.t * string) :=
  let g := reconcile_mine g in
  let g := reconcile_opponents g in
  plan_loop (seq 0 (length (Game.MyPacs g))) g "".

(** ** One pass of the loop of [main] *)

Record PacLine : Type := mkPacLine {
  pacId : Z;
  mine : Z;
  pacX : Z;
  pacY : Z;
  typeId : string;
  speedTurnsLeft : Z;
  abilityCooldown : Z
}.

Record PelletLine : Type := mkPelletLine {
  pelletX : Z;
  pelletY : Z;
  pelletValue : Z
}.

Record TurnInput : Type := mkTurnInput {
  myScore : Z;
  opponentScore : Z;
  visiblePacs : list PacLine;
  visiblePellets : list PelletLine
}.

(** [for _, pallet := range game.Pellet { pallet.Consumed = true }]. *)
Definition markAllConsumed (g : Game.t) : Game.t :=
  Game.set_Pellet (map (Pellet.set_Consumed true) (Game.Pellet g)) g.

Definition addPacs (pacs : list PacLine) (g : Game.t) : Game.t :=
  foldl (λ g l,
           AddPac (pacId l) (mine l) (pacX l) (pacY l) (typeId l)
                  (speedTurnsLeft l) (abilityCooldown l) g)
        g pacs.

(** [i] is the loop counter handed to [AddPellet] as its id. *)
Fixpoint addPellets (i : Z) (pellets : list PelletLine) (g : Game.t) : Game.t :=
  match pellets with
  | [] => g
  | l :: pellets =>
      addPellets (i + 1) pellets
                 (AddPellet i (pelletX l) (pelletY l) (pelletValue l) g)
  end.

(** Everything a pass does before it calls [PlayTurn]; the lines are taken
    as already parsed, with as many pac and pellet lines as announced. *)
Definition readTurn (input : TurnInput) (g : Game.t) : Game.t :=
  let g := Game.set_MyScore (myScore input) g in
  let g := Game.set_OpponentScore (opponentScore input) g in
  let g := markAllConsumed g in
  let g := Game.set_VisiblePacCount (Z.of_nat (length (visiblePacs input))) g in
  let g := addPacs (visiblePacs input) g in
  let g :=
    Game.set_VisiblePalleteCount (Z.of_nat (length (visiblePellets input))) g in
  addPellets 0 (visiblePellets input) g.

Definition turn (input : TurnInput) (g : Game.t) : result (Game.t * string) :=
  PlayTurn (readTurn input g).

(** The state [main] enters its loop with. *)
Definition initGame (width height : Z) (rows : list string) : result Game.t :=
  grid ← initGrid width height rows;
  Ok (Game.mk width height [] [] [] grid 0 0 0 0).

(** * Vocabulary of the statements, and sample states *)

(** The value read by [grid[y][x]]. *)
Definition at_xy (grid : CellGrid) (x y : Z) : result Cell.t :=
  row ← index grid y; index row x.

Definition open_at (grid : CellGrid) (x y : Z) : Prop :=
  ∃ c, at_xy grid x y = Ok c ∧ Cell.isWall c = false.

(** [hops grid n a b]: [b] is reached from [a] by [n] moves between open,
    orthogonally adjacent cells of the grid. *)
Inductive hops (grid : CellGrid) : nat → Z * Z → Z * Z → Prop :=
| hops_O x y : open_at grid x y → hops grid 0 (x, y) (x, y)
| hops_S n a x y x' y' :
    hops grid n a (x, y) →
    open_at grid x' y' →
    Z.abs (x' - x) + Z.abs (y' - y) = 1 →
    hops grid (S n) a (x', y').

(** The maze of one row and two open cells, as [main] builds it. *)
Definition corridor2 : CellGrid :=
  Eval vm_compute in
    match initGrid 2 1 ["  "%string] with Ok grid => grid | _ => [] end.

(** A 3 by 3 maze with a wall in the middle. *)
Definition ring3 : CellGrid :=
  Eval vm_compute in
    match initGrid 3 3 ["   "; " # "; "   "]%string with
    | Ok grid => grid
    | _ => []
    end.

(** A pellet the scan for [value] considers. *)
Definition eligible (value : Z) (p : Pellet.t) : Prop :=
  Pellet.Value p = value ∧ Pellet.Consumed p = false ∧
  Pellet.Targeted p = false.

(** [len(AStar(pac.X, pac.Y, pallet.X, pallet.Y, grid))]. *)
Definition pathLen (pac : Pac.t) (grid : CellGrid) (p : Pellet.t) : result Z :=
  path ← AStar (Pac.X pac) (Pac.Y pac) (Pellet.X p) (Pellet.Y p) grid;
  Ok (Z.of_nat (length path)).

(** [closest] with distance [d] is the first minimum of the path lengths
    over the eligible pellets of [pallets], or nil when none is eligible. *)
Definition first_minimum (value : Z) (pac : Pac.t) (grid : CellGrid)
    (pallets : list Pellet.t) (closest : option nat) (d : Z) : Prop :=
  match closest with
  | Some i =>
      (∃ p, pallets !! i = Some p ∧ eligible value p ∧
            pathLen pac grid p = Ok d) ∧
      ∀ j q e, pallets !! j = Some q → eligible value q →
               pathLen pac grid q = Ok e →
               d ≤ e ∧ ((j < i)%nat → d < e)
  | None => ∀ j q, pallets !! j = Some q → ¬ eligible value q
  end.

(** A pac in the top left corner of [ring3] and five pellets. *)
Definition sample_pac : Pac.t := Pac.mk 0 true 0 0 "" 0 0 0 0 0 0.

Definition sample_game : Game.t :=
  Game.mk 3 3 [sample_pac] []
          [Pellet.mk 2 2 10 false false; Pellet.mk 0 1 1 false false;
           Pellet.mk 2 0 10 false false; Pellet.mk 0 0 1 false false;
           Pellet.mk 1 0 1 false true]
          ring3 0 0 0 0.

(** The state [main] enters its loop with on the maze [ring3], and a first
    pass reporting one pac in the corner (0,0), two super pellets and two
    regular ones; of each kind the farther pellet is reported first. *)
Definition ring_game : Game.t := Game.mk 3 3 [] [] [] ring3 0 0 0 0.

Definition far_input : TurnInput :=
  mkTurnInput 0 0 [mkPacLine 0 1 0 0 "" 0 0]
              [mkPelletLine 2 2 10; mkPelletLine 2 0 10;
               mkPelletLine 1 2 1; mkPelletLine 0 1 1].

(** One row, the middle cell a wall. *)
Definition walled3 : CellGrid :=
  Eval vm_compute in
    match initGrid 3 1 [" # "%string] with Ok grid => grid | _ => [] end.

Definition walled_input : TurnInput :=
  mkTurnInput 0 0 [mkPacLine 0 1 0 0 "" 0 0] [mkPelletLine 2 0 10].

Definition walled_game : Game.t := Game.mk 3 1 [] [] [] walled3 0 0 0 0.

Definition lone_game : Game.t :=
  Game.mk 1 1 [] [] []
          [[Cell.mk 0 0 false 0 0 0 None 0 []]] 0 0 0 0.

Definition lone_input : TurnInput :=
  mkTurnInput 0 0 [mkPacLine 0 1 0 0 "" 0 0] [].

(** The collection [AddPac] works on, and the one it leaves alone. *)
Definition side (mine : Z) (g : Game.t) : list Pac.t :=
  if decide (mine = 1) then Game.MyPacs g else Game.OpponentPacs g.

Definition other_side (mine : Z) (g : Game.t) : list Pac.t :=
  if decide (mine = 1) then Game.OpponentPacs g else Game.MyPacs g.

(** Every unit of [g] is still in [g'], in the same slot of the same
    collection. *)
Definition keeps_units (g g' : Game.t) : Prop :=
  (Pac.Id <$> Game.MyPacs g) `prefix_of` (Pac.Id <$> Game.MyPacs g') ∧
  (Pac.Id <$> Game.OpponentPacs g) `prefix_of` (Pac.Id <$> Game.OpponentPacs g').

(** A pac after planning: only its target fields may differ. *)
Definition pac_moved (a a' : Pac.t) : Prop :=
  Pac.Id a' = Pac.Id a ∧ Pac.Mine a' = Pac.Mine a ∧
  Pac.X a' = Pac.X a ∧ Pac.Y a' = Pac.Y a ∧
  Pac.TypeId a' = Pac.TypeId a ∧
  Pac.SpeedTurnsLeft a' = Pac.SpeedTurnsLeft a ∧
  Pac.AbilityCooldown a' = Pac.AbilityCooldown a.

(** A pellet after planning: it stays where it is, and a flag that was set
    stays set. *)
Definition pellet_kept (p p' : Pellet.t) : Prop :=
  Pellet.X p' = Pellet.X p ∧ Pellet.Y p' = Pellet.Y p ∧
  (Pellet.Consumed p = true → Pellet.Consumed p' = true) ∧
  (Pellet.Targeted p = true → Pellet.Targeted p' = true).

Record evolves (g g' : Game.t) : Prop := mk_evolves {
  ev_grid : Game.Grid g' = Game.Grid g;
  ev_opponents : Game.OpponentPacs g' = Game.OpponentPacs g;
  ev_mine : Forall2 pac_moved (Game.MyPacs g) (Game.MyPacs g');
  ev_pellets : Forall2 pellet_kept (Game.Pellet g) (Game.Pellet g')
}.

Definition coords (p : Pellet.t) : Z * Z := (Pellet.X p, Pellet.Y p).

(** The coordinates the pellet lines of a turn report. *)
Definition reported (input : TurnInput) : list (Z * Z) :=
  (λ l, (pelletX l, pelletY l)) <$> visiblePellets input.

Definition seen_input : TurnInput :=
  mkTurnInput 0 0 [] [mkPelletLine 2 2 10; mkPelletLine 1 0 1].

(** The pellet at the pac's target coordinate is absent or consumed. *)
Definition stale (pac : Pac.t) (g : Game.t) : Prop :=
  match GetPallet (Pac.TargetX pac) (Pac.TargetY pac) g ≫=
        λ i, Game.Pellet g !! i with
  | Some pallet => Pellet.Consumed pallet = true
  | None => True
  end.

(** The pac with its target reset to its own position and its cached
    distance cleared to -1. *)
Definition clear_target (pac : Pac.t) : Pac.t :=
  Pac.mk (Pac.Id pac) (Pac.Mine pac) (Pac.X pac) (Pac.Y pac) (Pac.TypeId pac)
         (Pac.SpeedTurnsLeft pac) (Pac.AbilityCooldown pac)
         (Pac.X pac) (Pac.Y pac) (Pac.TargetPelletId pac) (-1).

Definition stale_pac : Pac.t := Pac.mk 0 true 0 0 "" 0 0 2 2 0 4.

(** The pac is under way to (2,2), whose pellet is consumed. *)
Definition stale_game : Game.t :=
  Game.mk 3 3 [stale_pac] []
          [Pellet.mk 2 2 10 true true; Pellet.mk 0 1 1 false false]
          ring3 0 0 0 0.

(** Every pellet that is flagged in [g] is, in [g'], in the same slot, at the
    same coordinate, and flagged. *)
Definition targeted_kept (g g' : Game.t) : Prop :=
  ∀ i p, Game.Pellet g !! i = Some p → Pellet.Targeted p = true →
         ∃ p', Game.Pellet g' !! i = Some p' ∧ coords p' = coords p ∧
               Pellet.Targeted p' = true.

(** Three passes on a corridor of three open cells.  In the first the pac
    commits to the super pellet at (2,0); in the second that pellet is not
    reported any more, the pac's target is found stale and reassigned; in the
    third the pellet is reported again. *)
Definition open3 : CellGrid :=
  Eval vm_compute in
    match initGrid 3 1 ["   "%string] with Ok grid => grid | _ => [] end.

Definition pass0 : Game.t := Game.mk 3 1 [] [] [] open3 0 0 0 0.

Definition input1 : TurnInput :=
  mkTurnInput 0 0 [mkPacLine 0 1 0 0 "" 0 0]
              [mkPelletLine 2 0 10; mkPelletLine 1 0 1].
Definition input2 : TurnInput :=
  mkTurnInput 0 0 [mkPacLine 0 1 1 0 "" 0 0] [mkPelletLine 0 0 1].
Definition input3 : TurnInput :=
  mkTurnInput 0 0 [mkPacLine 0 1 0 0 "" 0 0] [mkPelletLine 2 0 10].

Definition pass1 : Game.t :=
  Game.mk 3 1 [Pac.mk 0 true 0 0 "" 0 0 2 0 0 0] []
          [Pellet.mk 2 0 10 false true; Pellet.mk 1 0 1 false false]
          open3 0 0 1 2.

Definition pass2 : Game.t :=
  Game.mk 3 1 [Pac.mk 0 true 1 0 "" 0 0 0 0 0 0] []
          [Pellet.mk 2 0 10 true true; Pellet.mk 1 0 0 true false;
           Pellet.mk 0 0 1 false true]
          open3 0 0 1 1.

(** The claim as stated, for one state at the start of [PlayTurn]: when a
    pac's target is stale, the pellet found at the target coordinate is no
    longer flagged once the targets have been reconciled. *)
Definition flag_cleared_when_stale (g : Game.t) : Prop :=
  ∀ i pac, Game.MyPacs g !! i = Some pac → stale pac g →
  ∀ j p, GetPallet (Pac.TargetX pac) (Pac.TargetY pac) g = Some j →
         Game.Pellet (reconcile_opponents (reconcile_mine g)) !! j = Some p →
         Pellet.Targeted p = false.

(** The pac stands on its target. *)
Definition idle (pac : Pac.t) : Prop :=
  Pac.X pac = Pac.TargetX pac ∧ Pac.Y pac = Pac.TargetY pac.

(** The pellet found under the pac, if there is one, is consumed. *)
Definition eaten_under (pac : Pac.t) (g : Game.t) : Prop :=
  ∀ o p, GetPallet (Pac.X pac) (Pac.Y pac) g = Some o →
         Game.Pellet g !! o = Some p → Pellet.Consumed p = true.

(** The first statements of the arrival branch of [plan]: the value of the
    pellet found at the target is zeroed and the target fields are set to
    -1. *)
Definition arrive (pac : Pac.t) (g : Game.t) : Pac.t * Game.t :=
  match GetPallet (Pac.TargetX pac) (Pac.TargetY pac) g with
  | Some o =>
      (Pac.set_TargetPelletDist (-1)
         (Pac.set_TargetY (-1) (Pac.set_TargetX (-1) pac)),
       Game.set_Pellet (alter (Pellet.set_Value 0) o (Game.Pellet g)) g)
  | None => (pac, g)
  end.

(** Two idle pacs on [ring3], a super pellet at (2,2) and a regular one at
    (0,1). *)
Definition duo_first : Pac.t := Pac.mk 0 true 0 0 "" 0 0 0 0 0 0.
Definition duo_second : Pac.t := Pac.mk 1 true 2 0 "" 0 0 2 0 0 0.

Definition duo_game : Game.t :=
  Game.mk 3 3 [duo_first; duo_second] []
          [Pellet.mk 2 2 10 false false; Pellet.mk 0 1 1 false false]
          ring3 0 0 0 0.

(** ** Vocabulary of the further properties *)

(** The pellet line that is applied last among those reporting (x, y). *)
Definition last_report (x y : Z) (lines : list PelletLine) : option PelletLine :=
  last (filter (λ l, pelletX l = x ∧ pelletY l = y) lines).

(** The fields of the game that only the reading of a turn writes. *)
Definition scalars (g : Game.t) : Z * Z * Z * Z * Z * Z :=
  (Game.Width g, Game.Height g, Game.MyScore g, Game.OpponentScore g,
   Game.VisiblePacCount g, Game.VisiblePalleteCount g).

(** A pellet across [PlayTurn]: it stays where it is, its value is kept or
    zeroed, and a flag that was set stays set. *)
Definition pellet_turned (p p' : Pellet.t) : Prop :=
  coords p' = coords p ∧
  (Pellet.Value p' = Pellet.Value p ∨ Pellet.Value p' = 0) ∧
  (Pellet.Consumed p = true → Pellet.Consumed p' = true) ∧
  (Pellet.Targeted p = true → Pellet.Targeted p' = true).

(** The line [PlayTurn] prints for a list of pacs: one command each, naming
    the pac's target. *)
Definition moves_of (pacs : list Pac.t) : string :=
  foldl (λ moves pac,
           moves +:+ Sprintf_MOVE (Pac.Id pac) (Pac.TargetX pac) (Pac.TargetY pac))
        ""%string pacs.

(** The first pellet at (x, y) is in slot [o] and is not consumed. *)
Definition live_at (x y : Z) (o : nat) (g : Game.t) : Prop :=
  GetPallet x y g = Some o ∧
  ∃ p, Game.Pellet g !! o = Some p ∧ Pellet.Consumed p = false.

(** No pellet is a candidate of either scan. *)
Definition no_candidates (g : Game.t) : Prop :=
  ∀ p, p ∈ Game.Pellet g → ¬ eligible 10 p ∧ ¬ eligible 1 p.

(** The loop of [main] over the first passes of its input: the state after
    the last of them and the lines printed, one per pass.  A panic ends the
    process. *)
Fixpoint play (inputs : list TurnInput) (g : Game.t)
  : result (Game.t * list string) :=
  match inputs with
  | [] => Ok (g, [])
  | input :: inputs =>
      '(g, line) ← turn input g;
      '(g, lines) ← play inputs g;
      Ok (g, line :: lines)
  end.

(** A collection of pacs with distinct ids that all carry the ownership
    flag of the collection. *)
Definition pacs_ok (flag : bool) (pacs : list Pac.t) : Prop :=
  NoDup (Pac.Id <$> pacs) ∧ Forall (λ pac, Pac.Mine pac = flag) pacs.

Definition registry_ok (g : Game.t) : Prop :=
  NoDup (coords <$> Game.Pellet g) ∧
  pacs_ok true (Game.MyPacs g) ∧
  pacs_ok false (Game.OpponentPacs g).

(** (x, y) names a slot of the grid: [y] is a row index and [x] a column
    index of that row. *)
Definition on_grid (grid : CellGrid) (x y : Z) : Prop :=
  0 ≤ y ∧ ∃ row, grid !! Z.to_nat y = Some row ∧
                 0 ≤ x < Z.of_nat (length row).

(** Two grids of the same shape whose cells agree in position and wall
    flag. *)
Definition same_maze (grid grid' : CellGrid) : Prop :=
  Forall2 (Forall2 (λ c c', Cell.x c' = Cell.x c ∧ Cell.y c' = Cell.y c ∧
                            Cell.isWall c' = Cell.isWall c)) grid grid'.

(** A Go [int]. *)
Definition is_int (z : Z) : Prop := - 2 ^ 63 ≤ z < 2 ^ 63.

(** A cell whose coordinates are far from the limits of [int], as those of
    every cell of a maze are. *)
Definition small_coords (c : Cell.t) : Prop :=
  - 2 ^ 61 ≤ Cell.x c < 2 ^ 61 ∧ - 2 ^ 61 ≤ Cell.y c < 2 ^ 61.

(** A grid of [h] rows of [w] cells each. *)
Definition rectangular (w h : nat) (grid : CellGrid) : Prop :=
  length grid = h ∧ Forall (λ row, length row = w) grid.

(** The slots next to (row [i], column [j]) on a [w] by [h] grid, in the
    order left, right, up, down. *)
Definition neighbours_of (w h : nat) (r : CellRef) : list CellRef :=
  (if decide (0 < r.2)%nat then [(r.1, r.2 - 1)%nat] else []) ++
  (if decide (r.2 + 1 < w)%nat then [(r.1, r.2 + 1)%nat] else []) ++
  (if decide (0 < r.1)%nat then [(r.1 - 1, r.2)%nat] else []) ++
  (if decide (r.1 + 1 < h)%nat then [(r.1 + 1, r.2)%nat] else []).

(** Two slots are one step apart, along a row or along a column. *)
Definition adjacent (r r' : CellRef) : Prop :=
  (r.1 = r'.1 ∧ (r.2 = S r'.2 ∨ r'.2 = S r.2)) ∨
  (r.2 = r'.2 ∧ (r.1 = S r'.1 ∨ r'.1 = S r.1)).

(** The characters of the maze row read for row index [i]. *)
Definition row_chars (rows : list string) (i : Z) : list ascii :=
  String.list_ascii_of_string (default ""%string (rows !! Z.to_nat i)).

(** The height is not negative and every row read has exactly [width]
    characters. *)
Definition rows_fit (width height : Z) (rows : list string) : Prop :=
  0 ≤ height ∧
  ∀ i, 0 ≤ i < height → Z.of_nat (length (row_chars rows i)) = width.

(** An owned pac on a pellet, an opposing pac on another, and a super
    pellet in the far corner of [ring3]. *)
Definition crowd_game : Game.t :=
  Game.mk 3 3 [Pac.mk 0 true 0 0 "" 0 0 0 0 0 0]
          [Pac.mk 0 false 2 0 "" 0 0 2 0 0 0]
          [Pellet.mk 0 0 1 false false; Pellet.mk 2 0 1 false false;
           Pellet.mk 2 2 10 false false]
          ring3 0 0 0 0.

Definition crowd_after : Game.t :=
  Game.mk 3 3 [Pac.mk 0 true 0 0 "" 0 0 2 2 0 0]
          [Pac.mk 0 false 2 0 "" 0 0 2 0 0 0]
          [Pellet.mk 0 0 0 true false; Pellet.mk 2 0 1 true false;
           Pellet.mk 2 2 10 false true]
          ring3 0 0 0 0.

(** The rows read for the grid hold ASCII characters only, so that the byte
    offset a [range] over a row yields is the column. *)
Definition ascii_rows (height : Z) (rows : list string) : Prop :=
  Forall (λ row, Forall (λ c, (Ascii.nat_of_ascii c < 128)%nat)
                        (String.list_ascii_of_string row))
         (take (Z.to_nat height) rows).

(** ** Vocabulary of the priority queue *)

(** The [f] score of the cell a pointer points to. *)
Definition key (s : Search) (r : CellRef) : Z :=
  match cell_at (cells s) r with
  | Ok c => Cell.f c
  | _ => 0
  end.

(** The score at position [i] of the queue. *)
Definition key_at (s : Search) (i : Z) : Z :=
  match pq s !! Z.to_nat i with
  | Some r => key s r
  | None => 0
  end.

(** No cell is queued twice, and every queued pointer points to a cell that
    records its position in the queue. *)
Definition coherent (s : Search) : Prop :=
  NoDup (pq s) ∧
  ∀ k r, pq s !! k = Some r →
         ∃ c, cell_at (cells s) r = Ok c ∧ Cell.index c = Z.of_nat k.

(** Two cells that agree in everything but the heap index. *)
Definition same_but_index (c c' : Cell.t) : Prop :=
  Cell.set_index 0 c' = Cell.set_index 0 c.

(** Two grids of the same shape whose cells differ in the heap index at
    most. *)
Definition index_only (cs cs' : CellGrid) : Prop :=
  Forall2 (Forall2 same_but_index) cs cs'.

(** The first [n] positions of the queue form a binary min-heap on [f]: the
    score at a position is not below the score at its parent, the children
    of position [p] being the positions 2p + 1 and 2p + 2. *)
Definition heap_ordered (s : Search) (n : Z) : Prop :=
  ∀ p c, 0 ≤ p → c < n → c = 2 * p + 1 ∨ c = 2 * p + 2 →
         key_at s p ≤ key_at s c.

(** The state of a search with the pointer [r] taken out of the account:
    what the queue operations leave alone. *)
Definition cells_but (r : CellRef) (s s' : Search) : Prop :=
  ∀ r', r' ≠ r → cell_at (cells s') r' = cell_at (cells s) r'.

(** Position [c] is a child of position [p]. *)
Definition child_of (p c : Z) : Prop := c = 2 * p + 1 ∨ c = 2 * p + 2.

(** The queue is a heap but for the score at position [j], which may be
    below that of its parent: what [heap.up] expects at [j]. *)
Definition heap_but_up (s : Search) (j : Z) : Prop :=
  (∀ p c, 0 ≤ p → c < Len s → child_of p c → c ≠ j →
          key_at s p ≤ key_at s c) ∧
  (∀ g c, 0 ≤ g → c < Len s → child_of g j → child_of j c →
          key_at s g ≤ key_at s c).

(** The first [n] positions are a heap but for the score at position [i],
    which may be above those of its children: what [heap.down] expects at
    [i]. *)
Definition heap_but_down (s : Search) (i n : Z) : Prop :=
  (∀ p c, 0 ≤ p → c < n → child_of p c → p ≠ i →
          key_at s p ≤ key_at s c) ∧
  (∀ g c, 0 ≤ g → c < n → child_of g i → child_of i c →
          key_at s g ≤ key_at s c).

(** The queue is a heap but for the score at position [i], which may have
    moved either way: what [heap.Fix] expects at [i]. *)
Definition heap_but (s : Search) (i : Z) : Prop :=
  (∀ p c, 0 ≤ p → c < Len s → child_of p c → p ≠ i → c ≠ i →
          key_at s p ≤ key_at s c) ∧
  (∀ g c, 0 ≤ g → c < Len s → child_of g i → child_of i c →
          key_at s g ≤ key_at s c).

(** The assignments of [update] to the scores of a cell. *)
Definition rescored (g h : Z) (c : Cell.t) : Cell.t :=
  Cell.set_f (wrap (g + h)) (Cell.set_h h (Cell.set_g g c)).

(** A queue of three cells of one row, a heap on their scores 1, 5 and 3. *)
Definition queue3 : Search :=
  mkSearch [[Cell.mk 0 0 false 0 1 1 None 0 [];
             Cell.mk 1 0 false 0 5 5 None 1 [];
             Cell.mk 2 0 false 0 3 3 None 2 [];
             Cell.mk 3 0 false 0 0 0 None 0 []]]
           [(0, 0); (0, 1); (0, 2)]%nat.

(** ** Vocabulary of the turn that returns *)

(** The coordinates pacs stand on, owned and opposing. *)
Definition spots (g : Game.t) : list (Z * Z) :=
  (λ pac, (Pac.X pac, Pac.Y pac)) <$> (Game.MyPacs g ++ Game.OpponentPacs g).

(** A pellet either scan may return. *)
Definition candidate (p : Pellet.t) : bool :=
  (bool_decide (Pellet.Value p = 10) || bool_decide (Pellet.Value p = 1))
  && negb (Pellet.Consumed p) && negb (Pellet.Targeted p).

(** A candidate no pac stands on. *)
Definition free (g : Game.t) (p : Pellet.t) : bool :=
  candidate p && bool_decide (coords p ∉ spots g).

(** The owned pacs and the pellets lie on the grid. *)
Definition placed (g : Game.t) : Prop :=
  (∀ pac, pac ∈ Game.MyPacs g → on_grid (Game.Grid g) (Pac.X pac) (Pac.Y pac)) ∧
  (∀ p, p ∈ Game.Pellet g → on_grid (Game.Grid g) (Pellet.X p) (Pellet.Y p)).

(** Every pac stands on one of the coordinates [sp]. *)
Definition stationed (sp : list (Z * Z)) (g : Game.t) : Prop :=
  ∀ pac, pac ∈ Game.MyPacs g ++ Game.OpponentPacs g →
         (Pac.X pac, Pac.Y pac) ∈ sp.

(** The slots [res] hold different candidates away from the coordinates
    [sp]. *)
Definition reserved (sp : list (Z * Z)) (res : list nat) (g : Game.t) : Prop :=
  NoDup res ∧
  ∀ i, i ∈ res → ∃ p, Game.Pellet g !! i = Some p ∧ candidate p = true ∧
                      coords p ∉ sp.

(** * Properties *)

(** ** Outcomes and slices *)

Lemma index_Ok {A} (l : list A) (i : Z) (a : A) :
  index l i = Ok a ↔ 0 ≤ i ∧ l !! Z.to_nat i = Some a.
Proof.
  unfold index. destruct (decide (0 ≤ i)) as [Hi|Hi].
  - destruct (l !! Z.to_nat i) eqn:E; split; intros H;
      try discriminate; try (injection H as ->; done);
      destruct H as [_ H]; congruence.
  - split; [discriminate | intros [? _]; lia].
Qed.

Lemma bind_Ok {A B} (m : result A) (k : A → result B) (b : B) :
  m ≫= k = Ok b ↔ ∃ a, m = Ok a ∧ k a = Ok b.
Proof.
  destruct m; simpl; split; try discriminate; eauto;
    try (intros (?&?&?); discriminate).
  intros (?&[= ->]&?). done.
Qed.

Lemma at_xy_Ok grid x y c :
  at_xy grid x y = Ok c ↔
  0 ≤ x ∧ 0 ≤ y ∧ cell_at grid (Z.to_nat y, Z.to_nat x) = Ok c.
Proof.
  unfold at_xy, cell_at. rewrite bind_Ok. simpl. split.
  - intros (row & Hr & Hc). apply index_Ok in Hr as [? Hr].
    apply index_Ok in Hc as [? Hc]. rewrite Hr. simpl. rewrite Hc. done.
  - intros (Hx & Hy & H). destruct (grid !! Z.to_nat y) as [row|] eqn:E;
      [|done]. simpl in H. destruct (row !! Z.to_nat x) eqn:E'; [|done].
    injection H as ->. exists row. by rewrite !index_Ok.
Qed.

Lemma GetCell_Ok grid x y c :
  at_xy grid x y = Ok c → GetCell x y grid = Ok (Z.to_nat y, Z.to_nat x).
Proof.
  unfold at_xy, GetCell. destruct (index grid y) as [row| |]; simpl; try done.
  destruct (index row x); simpl; done.
Qed.

Lemma cell_at_cloneGrid grid r c :
  cell_at grid r = Ok c → cell_at (cloneGrid grid) r = Ok (cloneCell c).
Proof.
  unfold cell_at, cloneGrid. rewrite list_lookup_fmap.
  destruct (grid !! r.1) as [row|]; simpl; [|done].
  rewrite list_lookup_fmap. destruct (row !! r.2); simpl; [|done].
  by intros [= ->].
Qed.

Lemma at_xy_cloneGrid grid x y c :
  at_xy grid x y = Ok c → at_xy (cloneGrid grid) x y = Ok (cloneCell c).
Proof.
  rewrite !at_xy_Ok. intros (?&?&?). eauto using cell_at_cloneGrid.
Qed.

Lemma cell_update_Ok upd r grid c :
  cell_at grid r = Ok c →
  ∃ grid', cell_update upd r grid = Ok grid' ∧
           cell_at grid' r = Ok (upd c).
Proof.
  intros H. unfold cell_update. rewrite H. simpl. eexists. split; [done|].
  revert H. unfold cell_at. destruct (grid !! r.1) as [row|] eqn:E1; [|done].
  simpl. destruct (row !! r.2) eqn:E2; [|done]. intros _.
  rewrite list_lookup_alter_eq, E1. simpl.
  rewrite list_lookup_insert_eq; [done|]. by eapply lookup_lt_Some.
Qed.

(** ** The search on a clone *)

Lemma cloneCell_Neighbors c : Cell.Neighbors (cloneCell c) = [].
Proof. done. Qed.

Lemma cell_at_cloneGrid_inv grid r c' :
  cell_at (cloneGrid grid) r = Ok c' →
  ∃ c, cell_at grid r = Ok c ∧ c' = cloneCell c.
Proof.
  unfold cell_at, cloneGrid. rewrite list_lookup_fmap.
  destruct (grid !! r.1) as [row|]; simpl; [|done].
  rewrite list_lookup_fmap. destruct (row !! r.2); simpl; [|done].
  intros [= <-]. eauto.
Qed.

Lemma heap_Init_empty cs : heap_Init (mkSearch cs []) = Ok (mkSearch cs []).
Proof. done. Qed.

Lemma heap_Push_empty cs r c :
  cell_at cs r = Ok c →
  ∃ cs', heap_Push r (mkSearch cs []) = Ok (mkSearch cs' [r]) ∧
         cell_at cs' r = Ok (Cell.set_index 0 c).
Proof.
  intros H. unfold heap_Push, Push. cbv zeta. cbn [cells pq].
  destruct (cell_update_Ok (Cell.set_index (Len (mkSearch cs []))) r cs c H)
    as (cs' & -> & H').
  exists cs'. split; [reflexivity | exact H'].
Qed.

Lemma heap_Pop_single cs r c :
  cell_at cs r = Ok c →
  ∃ cs', heap_Pop (mkSearch cs [r]) = Ok (r, mkSearch cs' []) ∧
         cell_at cs' r = Ok (Cell.set_index (-1) c).
Proof.
  intros H. unfold heap_Pop, Swap. cbv zeta.
  change (index (pq (mkSearch cs [r])) (Len (mkSearch cs [r]) - 1))
    with (Ok r).
  change (index (pq (mkSearch cs [r])) 0) with (Ok r).
  cbn [mbind result_bind cells].
  change (index _ 0) with (Ok r). cbn [mbind result_bind].
  destruct (cell_update_Ok (Cell.set_index 0) r cs c H) as (cs1 & -> & H1).
  cbn [mbind result_bind].
  change (index _ (Len (mkSearch cs [r]) - 1)) with (Ok r).
  cbn [mbind result_bind].
  destruct (cell_update_Ok (Cell.set_index (Len (mkSearch cs [r]) - 1))
              r cs1 _ H1) as (cs2 & -> & H2).
  cbn [mbind result_bind].
  change (down 0 _ _) with (Ok (false, mkSearch cs2 [r])).
  cbn [mbind result_bind]. unfold Pop.
  change (index _ _) with (Ok r). cbn [mbind result_bind cells].
  destruct (cell_update_Ok (Cell.set_index (-1)) r cs2 _ H2)
    as (cs3 & -> & H3).
  exists cs3. split; [reflexivity | exact H3].
Qed.

Lemma walk_None fuel path cs : walk fuel None path cs = Ok path.
Proof. by destruct fuel. Qed.

Lemma search_loop_unfold fuel goal closedSet s :
  search_loop (S fuel) goal closedSet s =
  if decide (Len s > 0) then
    '(current, s) ← heap_Pop s;
    if decide (current = goal) then
      path ← walk (S (length (concat (cells s)))) (Some current) [] (cells s);
      mapM (λ r, cell_at (cells s) r) path
    else
      let closedSet := {[current]} ∪ closedSet in
      cur ← cell_at (cells s) current;
      s ← neighbors_loop (Cell.Neighbors cur) current goal closedSet s;
      search_loop fuel goal closedSet s
  else Ok [].
Proof. done. Qed.

Lemma search_loop_empty fuel goal closedSet cs :
  search_loop fuel goal closedSet (mkSearch cs []) = Ok [].
Proof. by destruct fuel. Qed.

(** One cell in the open set, without neighbours and without predecessor:
    the loop ends after this pass. *)
Lemma search_loop_single fuel goal closedSet cs r c :
  cell_at cs r = Ok c →
  Cell.Neighbors c = [] →
  Cell.parent c = None →
  search_loop (S fuel) goal closedSet (mkSearch cs [r]) =
  if decide (r = goal) then Ok [Cell.set_index (-1) c] else Ok [].
Proof.
  intros H Hn Hp. rewrite search_loop_unfold.
  destruct (heap_Pop_single _ _ _ H) as (cs' & -> & H').
  change (Len (mkSearch cs [r])) with 1. rewrite decide_True by lia.
  cbn [mbind result_bind cells]. destruct (decide (r = goal)) as [_|_].
  - cbn [walk]. rewrite H'. cbn [mbind result_bind Cell.parent Cell.set_index].
    rewrite Hp, walk_None. cbn [mbind result_bind mapM]. rewrite H'. done.
  - rewrite H'. cbn [mbind result_bind Cell.Neighbors Cell.set_index].
    rewrite Hn. cbn [neighbors_loop mbind result_bind].
    apply search_loop_empty.
Qed.

(** What [AStar] computes on every grid, for coordinates that lie on it. *)
Lemma AStar_eval grid startX startY endX endY start goal :
  at_xy grid startX startY = Ok start →
  at_xy grid endX endY = Ok goal →
  AStar startX startY endX endY grid =
  if decide (startX = endX ∧ startY = endY)
  then Ok [Cell.set_index (-1) (cloneCell start)]
  else Ok [].
Proof.
  intros Hs Hg. unfold AStar. cbv zeta. rewrite heap_Init_empty.
  cbn [mbind result_bind cells].
  apply at_xy_cloneGrid in Hs, Hg.
  rewrite (GetCell_Ok _ _ _ _ Hs), (GetCell_Ok _ _ _ _ Hg).
  cbn [mbind result_bind].
  apply at_xy_Ok in Hs as (Hsx & Hsy & Hs).
  apply at_xy_Ok in Hg as (Hgx & Hgy & Hg).
  destruct (heap_Push_empty _ _ _ Hs) as (cs1 & -> & H1).
  cbn [mbind result_bind].
  rewrite (search_loop_single _ _ _ _ _ _ H1) by done.
  destruct (decide ((Z.to_nat startY, Z.to_nat startX)
                    = (Z.to_nat endY, Z.to_nat endX))) as [E|E].
  - injection E as Ey Ex. rewrite decide_True by lia. done.
  - rewrite decide_False; [done|]. intros [-> ->]. done.
Qed.

Lemma GetCell_cloneGrid grid x y :
  GetCell x y (cloneGrid grid) =
  (_ ← at_xy grid x y; Ok (Z.to_nat y, Z.to_nat x)).
Proof.
  unfold GetCell, at_xy, index, cloneGrid.
  destruct (decide (0 ≤ y)); [|done]. rewrite list_lookup_fmap.
  destruct (grid !! Z.to_nat y) as [row|]; [|done]. simpl.
  destruct (decide (0 ≤ x)); [|done]. rewrite list_lookup_fmap.
  by destruct (row !! Z.to_nat x).
Qed.

(** Off the grid the index expressions of [GetCell] panic. *)
Lemma AStar_off_grid grid startX startY endX endY :
  at_xy grid startX startY = Panic ∨ at_xy grid endX endY = Panic →
  AStar startX startY endX endY grid = Panic.
Proof.
  intros H. unfold AStar. cbv zeta. rewrite heap_Init_empty.
  cbn [mbind result_bind cells]. rewrite !GetCell_cloneGrid.
  destruct H as [-> | ->]; [done|].
  destruct (at_xy grid startX startY) as [c| |] eqn:E; try done.
  exfalso. revert E. unfold at_xy, index.
  repeat (case_decide || case_match || simpl); discriminate.
Qed.

(** ** The search against reachability *)

(** C1: on the two-cell corridor built by [main] the goal (1,0) is one hop
    from the start (0,0), both cells are open and each lists the other as
    neighbour, and yet [AStar] returns the nil path: the search runs on the
    clone, whose cells have no neighbours. *)
Theorem AStar_misses_adjacent_cell :
  initGrid 2 1 ["  "%string] = Ok corridor2 ∧
  hops corridor2 1 (0, 0) (1, 0) ∧
  (c ← at_xy corridor2 0 0; Ok (Cell.Neighbors c)) = Ok [(0, 1)%nat] ∧
  AStar 0 0 1 0 corridor2 = Ok [].
Proof.
  split; [vm_compute; reflexivity|]. split; [|split; vm_compute; reflexivity].
  apply (hops_S _ 0 (0, 0) 0 0 1 0).
  - apply hops_O. eexists. split; vm_compute; reflexivity.
  - eexists. split; vm_compute; reflexivity.
  - reflexivity.
Qed.

(** The same loop, run on the cells of the game grid [ring3] with the
    neighbour lists [main] gave them, finds a path of four hops around the
    wall, and none into the walled-off cell of [walled3]. *)
Example search_loop_with_neighbours :
  (s ← heap_Push (0, 0)%nat (mkSearch ring3 []);
   path ← search_loop 10 (2, 2)%nat ∅ s;
   Ok (map (λ c, (Cell.x c, Cell.y c)) path))
  = Ok [(0, 0); (0, 1); (0, 2); (1, 2); (2, 2)] ∧
  (s ← heap_Push (0, 0)%nat (mkSearch walled3 []);
   search_loop 10 (0, 2)%nat ∅ s) = Ok [].
Proof. split; vm_compute; reflexivity. Qed.

(** C2: for coordinates on the grid, no cell of the clone has a neighbour;
    the search returns the nil path whenever start and goal differ, and the
    one-cell path of the start's clone when they coincide. *)
Theorem AStar_clone_never_expands grid startX startY endX endY start goal :
  at_xy grid startX startY = Ok start →
  at_xy grid endX endY = Ok goal →
  (∀ r c, cell_at (cloneGrid grid) r = Ok c → Cell.Neighbors c = []) ∧
  ((startX, startY) ≠ (endX, endY) →
   AStar startX startY endX endY grid = Ok []) ∧
  ((startX, startY) = (endX, endY) →
   AStar startX startY endX endY grid =
   Ok [Cell.set_index (-1) (cloneCell start)]).
Proof.
  intros Hs Hg. split; [|split].
  - intros r c (c0 & _ & ->)%cell_at_cloneGrid_inv. done.
  - intros Hne. rewrite (AStar_eval _ _ _ _ _ _ _ Hs Hg).
    rewrite decide_False; [done|]. intros [-> ->]. done.
  - intros [= -> ->]. rewrite (AStar_eval _ _ _ _ _ _ _ Hs Hg).
    rewrite decide_True; done.
Qed.

Lemma AStar_clone_never_expands_witness :
  (∀ r c, cell_at (cloneGrid ring3) r = Ok c → Cell.Neighbors c = []) ∧
  ((0, 0) ≠ (2, 2) → AStar 0 0 2 2 ring3 = Ok []) ∧
  ((0, 0) = (2, 2) →
   AStar 0 0 2 2 ring3 =
   Ok [Cell.set_index (-1)
         (cloneCell (Cell.mk 0 0 false 0 0 0 None 0 [(0, 1); (1, 0)]%nat))]).
Proof.
  apply (AStar_clone_never_expands ring3 0 0 2 2
           (Cell.mk 0 0 false 0 0 0 None 0 [(0, 1); (1, 0)]%nat)
           (Cell.mk 2 2 false 0 0 0 None 0 [(2, 1); (1, 2)]%nat)).
  - vm_compute. reflexivity.
  - vm_compute. reflexivity.
Defined.

(** ** The closest-pellet scans *)

Lemma eligible_test value p :
  bool_decide (Pellet.Value p = value) && negb (Pellet.Consumed p)
    && negb (Pellet.Targeted p) = true ↔ eligible value p.
Proof.
  unfold eligible. rewrite !andb_true_iff, !negb_true_iff, bool_decide_eq_true.
  tauto.
Qed.

Lemma closest_scan_first_minimum value pac grid suf :
  ∀ pre closest closestDist,
  (∀ p, p ∈ suf → eligible value p → ∃ d, pathLen pac grid p = Ok d) →
  first_minimum value pac grid pre closest closestDist →
  ∃ r d, closest_scan value pac grid suf (length pre) closest closestDist
         = Ok r ∧
         first_minimum value pac grid (pre ++ suf) r d.
Proof.
  induction suf as [|p suf IH]; intros pre closest closestDist Hok Hinv.
  { exists closest, closestDist. by rewrite app_nil_r. }
  assert (Hstep : ∀ c' d', first_minimum value pac grid (pre ++ [p]) c' d' →
            ∃ r d, closest_scan value pac grid suf (S (length pre)) c' d'
                   = Ok r ∧
                   first_minimum value pac grid (pre ++ p :: suf) r d).
  { intros c' d' H'. rewrite (cons_middle p pre suf), app_assoc.
    replace (S (length pre)) with (length (pre ++ [p]))
      by (rewrite length_app; simpl; lia).
    apply IH; [|done]. intros q Hq. apply Hok. by right. }
  cbn [closest_scan].
  destruct (bool_decide (Pellet.Value p = value) && negb (Pellet.Consumed p)
            && negb (Pellet.Targeted p)) eqn:Et.
  - apply eligible_test in Et.
    destruct (Hok p (list_elem_of_here _ _) Et) as [d Hd].
    pose proof Hd as Hd'. unfold pathLen in Hd'.
    destruct (AStar _ _ _ _ _) as [path| |]; try discriminate.
    injection Hd' as Hd'. cbn [mbind result_bind]. rewrite Hd'.
    case_decide as Hc.
    + apply Hstep. split.
      * exists p. split; [|done]. by rewrite lookup_app_r, Nat.sub_diag.
      * intros j q e Hj Hq He.
        destruct (decide (j < length pre)%nat) as [Hlt|Hge].
        -- rewrite lookup_app_l in Hj by done.
           destruct closest as [i|]; [|by destruct (Hinv j q Hj)].
           destruct Hinv as [_ Hmin].
           destruct (Hmin j q e Hj Hq He) as [? _].
           destruct Hc as [?|?]; [done|lia].
        -- split; [|lia]. rewrite lookup_app_r in Hj by lia.
           destruct (j - length pre)%nat eqn:Ej; [|by destruct n].
           simpl in Hj. injection Hj as <-.
           assert (e = d) as -> by congruence. lia.
    + destruct closest as [i|]; [|by destruct Hc; left].
      apply Hstep. destruct Hinv as [(pi & Hi & Hei & Hdi) Hmin].
      pose proof (lookup_lt_Some _ _ _ Hi) as Hlen. split.
      * exists pi. by rewrite lookup_app_l.
      * intros j q e Hj Hq He.
        destruct (decide (j < length pre)%nat) as [Hlt|Hge].
        -- rewrite lookup_app_l in Hj by done. eauto.
        -- split; [|lia]. rewrite lookup_app_r in Hj by lia.
           destruct (j - length pre)%nat eqn:Ej; [|by destruct n].
           simpl in Hj. injection Hj as <-.
           assert (e = d) as -> by congruence. lia.
  - apply Hstep. assert (Hne : ¬ eligible value p).
    { rewrite <- eligible_test, Et. done. }
    destruct closest as [i|].
    + destruct Hinv as [(pi & Hi & Hei & Hdi) Hmin].
      pose proof (lookup_lt_Some _ _ _ Hi) as Hlen. split.
      * exists pi. by rewrite lookup_app_l.
      * intros j q e Hj Hq He.
        destruct (decide (j < length pre)%nat) as [Hlt|Hge].
        -- rewrite lookup_app_l in Hj by done. eauto.
        -- rewrite lookup_app_r in Hj by lia.
           destruct (j - length pre)%nat eqn:Ej; [|by destruct n].
           simpl in Hj. injection Hj as <-. done.
    + intros j q Hj.
      destruct (decide (j < length pre)%nat) as [Hlt|Hge].
      * rewrite lookup_app_l in Hj by done. eauto.
      * rewrite lookup_app_r in Hj by lia.
        destruct (j - length pre)%nat eqn:Ej; [|by destruct n].
        simpl in Hj. injection Hj as <-. done.
Qed.

(** On the grid the measured length is 1 for a pellet under the pac and 0,
    the length of the nil path, for every other pellet. *)
Lemma pathLen_on_grid pac grid p c c' :
  at_xy grid (Pac.X pac) (Pac.Y pac) = Ok c →
  at_xy grid (Pellet.X p) (Pellet.Y p) = Ok c' →
  pathLen pac grid p =
  Ok (if decide (Pac.X pac = Pellet.X p ∧ Pac.Y pac = Pellet.Y p)
      then 1 else 0).
Proof.
  intros H H'. unfold pathLen. rewrite (AStar_eval _ _ _ _ _ _ _ H H').
  by case_decide.
Qed.

(** What the scans do compute: when the search returns for every candidate,
    each scan returns the first pellet, in slice order, among those of its
    value that are neither consumed nor targeted, whose measured length
    [len(AStar(...))] is least, and nil exactly when there is no such
    pellet.  By [pathLen_on_grid] the measured length is not the length of
    a route: it is 0 for every pellet that is not under the pac. *)
Lemma closest_pallet_is_first_minimum pac g :
  (∀ p, p ∈ Game.Pellet g → eligible 10 p ∨ eligible 1 p →
        ∃ d, pathLen pac (Game.Grid g) p = Ok d) →
  (∃ r d, GetClosestSuperPallet pac g = Ok r ∧
          first_minimum 10 pac (Game.Grid g) (Game.Pellet g) r d) ∧
  (∃ r d, GetClosestRegularPallet pac g = Ok r ∧
          first_minimum 1 pac (Game.Grid g) (Game.Pellet g) r d).
Proof.
  intros Hok. split.
  - apply (closest_scan_first_minimum 10 pac (Game.Grid g) (Game.Pellet g)
             [] None 0); [|by intros j q Hj].
    intros p Hp He. apply Hok; [done|by left].
  - apply (closest_scan_first_minimum 1 pac (Game.Grid g) (Game.Pellet g)
             [] None 0); [|by intros j q Hj].
    intros p Hp He. apply Hok; [done|by right].
Qed.

Lemma closest_pallet_is_first_minimum_witness :
  (∃ r d, GetClosestSuperPallet sample_pac sample_game = Ok r ∧
          first_minimum 10 sample_pac ring3 (Game.Pellet sample_game) r d) ∧
  (∃ r d, GetClosestRegularPallet sample_pac sample_game = Ok r ∧
          first_minimum 1 sample_pac ring3 (Game.Pellet sample_game) r d).
Proof.
  apply (closest_pallet_is_first_minimum sample_pac sample_game).
  intros p Hp _. simpl in Hp.
  repeat (apply elem_of_cons in Hp as [-> | Hp]);
    [ eexists; vm_compute; reflexivity .. | by apply elem_of_nil in Hp ].
Defined.

(** The scans on the sample: the super scan keeps the first of two pellets
    of equal measure, the regular scan skips the targeted pellet. *)
Example closest_on_sample :
  GetClosestSuperPallet sample_pac sample_game = Ok (Some 0%nat) ∧
  GetClosestRegularPallet sample_pac sample_game = Ok (Some 1%nat).
Proof. split; vm_compute; reflexivity. Qed.

(** ** The nearest pellet *)

(** A route of [n] hops covers a Manhattan distance of at most [n]. *)
Lemma hops_at_least grid n a b :
  hops grid n a b → Z.abs (b.1 - a.1) + Z.abs (b.2 - a.2) ≤ Z.of_nat n.
Proof.
  induction 1 as [x y _|n a x y x' y' _ IH _ Hd]; cbn [fst snd] in *; lia.
Qed.

Lemma ring3_open x y :
  (x, y) ∈ [(0, 0); (1, 0); (2, 0); (0, 1); (2, 1); (0, 2); (1, 2); (2, 2)] →
  open_at ring3 x y.
Proof.
  intros H. repeat (apply elem_of_cons in H as [[= -> ->]|H]);
    [..|by apply elem_of_nil in H];
    (eexists; split; vm_compute; reflexivity).
Qed.

(** C4: the maze is 3 by 3 with a wall in the middle, the pac stands in the
    corner (0,0), and of each kind the farther pellet is reported first:
    super pellets at (2,2) and (2,0), regular ones at (1,2) and (0,1).  The
    pellet at (2,0) is two hops away and no route to (2,2) has fewer than
    four; the pellet at (0,1) is one hop away and no route to (1,2) has
    fewer than three.  The search returns the nil path for all four, each
    scan keeps the first pellet of its kind in slice order, which is the
    farther one, and the turn commits the pac to the pellet at (2,2). *)
Theorem closest_pallet_is_not_the_nearest :
  initGame 3 3 ["   "; " # "; "   "]%string = Ok ring_game ∧
  Game.Pellet (readTurn far_input ring_game) =
    [Pellet.mk 2 2 10 false false; Pellet.mk 2 0 10 false false;
     Pellet.mk 1 2 1 false false; Pellet.mk 0 1 1 false false] ∧
  (hops ring3 2 (0, 0) (2, 0) ∧ hops ring3 4 (0, 0) (2, 2) ∧
   ∀ n, hops ring3 n (0, 0) (2, 2) → (4 ≤ n)%nat) ∧
  (hops ring3 1 (0, 0) (0, 1) ∧ hops ring3 3 (0, 0) (1, 2) ∧
   ∀ n, hops ring3 n (0, 0) (1, 2) → (3 ≤ n)%nat) ∧
  (AStar 0 0 2 2 ring3 = Ok [] ∧ AStar 0 0 2 0 ring3 = Ok [] ∧
   AStar 0 0 1 2 ring3 = Ok [] ∧ AStar 0 0 0 1 ring3 = Ok []) ∧
  GetClosestSuperPallet (Pac.mk 0 true 0 0 "" 0 0 0 0 0 0)
                        (readTurn far_input ring_game) = Ok (Some 0%nat) ∧
  GetClosestRegularPallet (Pac.mk 0 true 0 0 "" 0 0 0 0 0 0)
                          (readTurn far_input ring_game) = Ok (Some 2%nat) ∧
  turn far_input ring_game =
  Ok (Game.mk 3 3 [Pac.mk 0 true 0 0 "" 0 0 2 2 0 0] []
              [Pellet.mk 2 2 10 false true; Pellet.mk 2 0 10 false false;
               Pellet.mk 1 2 1 false false; Pellet.mk 0 1 1 false false]
              ring3 0 0 1 4,
      "MOVE 0 2 2|"%string).
Proof.
  assert (Hstep : ∀ n a x y x' y',
            hops ring3 n a (x, y) →
            (x', y') ∈ [(0, 0); (1, 0); (2, 0); (0, 1); (2, 1); (0, 2);
                        (1, 2); (2, 2)] →
            Z.abs (x' - x) + Z.abs (y' - y) = 1 →
            hops ring3 (S n) a (x', y')).
  { intros n a x y x' y' H Hin Hd. eapply hops_S; [exact H| |exact Hd].
    by apply ring3_open. }
  assert (H0 : hops ring3 0 (0, 0) (0, 0)).
  { apply hops_O, ring3_open. by left. }
  assert (H10 : hops ring3 1 (0, 0) (1, 0)).
  { apply (Hstep _ _ 0 0); [done| |done]. by apply (list_elem_of_lookup_2 _ 1%nat). }
  assert (H20 : hops ring3 2 (0, 0) (2, 0)).
  { apply (Hstep _ _ 1 0); [done| |done]. by apply (list_elem_of_lookup_2 _ 2%nat). }
  assert (H21 : hops ring3 3 (0, 0) (2, 1)).
  { apply (Hstep _ _ 2 0); [done| |done]. by apply (list_elem_of_lookup_2 _ 4%nat). }
  assert (H22 : hops ring3 4 (0, 0) (2, 2)).
  { apply (Hstep _ _ 2 1); [done| |done]. by apply (list_elem_of_lookup_2 _ 7%nat). }
  assert (H01 : hops ring3 1 (0, 0) (0, 1)).
  { apply (Hstep _ _ 0 0); [done| |done]. by apply (list_elem_of_lookup_2 _ 3%nat). }
  assert (H02 : hops ring3 2 (0, 0) (0, 2)).
  { apply (Hstep _ _ 0 1); [done| |done]. by apply (list_elem_of_lookup_2 _ 5%nat). }
  assert (H12 : hops ring3 3 (0, 0) (1, 2)).
  { apply (Hstep _ _ 0 2); [done| |done]. by apply (list_elem_of_lookup_2 _ 6%nat). }
  split; [vm_compute; reflexivity|]. split; [vm_compute; reflexivity|].
  split.
  { split; [done|]. split; [done|].
    intros n Hn%hops_at_least. cbn [fst snd] in Hn. lia. }
  split.
  { split; [done|]. split; [done|].
    intros n Hn%hops_at_least. cbn [fst snd] in Hn. lia. }
  repeat split; vm_compute; reflexivity.
Qed.

(** ** A pellet behind a wall *)

Lemma walled3_left_is_closed n b : hops walled3 n (0, 0) b → b = (0, 0).
Proof.
  remember (0, 0) as a eqn:Ea. induction 1 as [|n a x y x' y' _ IH Ho Hd];
    [done|].
  specialize (IH Ea). subst a. injection IH as -> ->.
  destruct Ho as (c & Hc & Hw). exfalso.
  pose proof Hc as (Hx & Hy & _)%at_xy_Ok.
  assert (x' = 1 ∧ y' = 0 ∨ x' = 0 ∧ y' = 1) as [[-> ->]|[-> ->]] by lia.
  - vm_compute in Hc. injection Hc as <-. discriminate.
  - vm_compute in Hc. discriminate.
Qed.

(** C5: the only pellet lies behind the wall, no number of hops reaches it
    and the search reports no path; the scan measures the nil path as length
    0 and returns that pellet, and the turn commits the pac to it. *)
Theorem unreachable_pellet_is_selected :
  initGame 3 1 [" # "%string] = Ok walled_game ∧
  (∀ n, ¬ hops walled3 n (0, 0) (2, 0)) ∧
  AStar 0 0 2 0 walled3 = Ok [] ∧
  GetClosestSuperPallet (Pac.mk 0 true 0 0 "" 0 0 0 0 0 0)
                        (readTurn walled_input walled_game) = Ok (Some 0%nat) ∧
  turn walled_input walled_game =
  Ok (Game.mk 3 1 [Pac.mk 0 true 0 0 "" 0 0 2 0 0 0] []
              [Pellet.mk 2 0 10 false true] walled3 0 0 1 1,
      "MOVE 0 2 0|"%string).
Proof.
  split; [vm_compute; reflexivity|]. split.
  { intros n H%walled3_left_is_closed. discriminate. }
  repeat split; vm_compute; reflexivity.
Qed.

(** ** The branch without pellets *)

Lemma closest_scan_none value pac grid pallets :
  ∀ i, (∀ p, p ∈ pallets → ¬ eligible value p) →
       closest_scan value pac grid pallets i None 0 = Ok None.
Proof.
  induction pallets as [|p pallets IH]; intros i Hne; [done|].
  cbn [closest_scan].
  destruct (bool_decide (Pellet.Value p = value) && negb (Pellet.Consumed p)
            && negb (Pellet.Targeted p)) eqn:Et.
  - apply eligible_test in Et. destruct (Hne p); [by left|done].
  - apply IH. intros q Hq. apply Hne. by right.
Qed.

Lemma elem_of_alter_inv {A} (f : A → A) (i : nat) (l : list A) (x : A) :
  x ∈ alter f i l → x ∈ l ∨ ∃ y, y ∈ l ∧ x = f y.
Proof.
  intros (j & Hj)%list_elem_of_lookup. rewrite list_lookup_alter in Hj.
  case_decide; subst.
  - destruct (l !! j) as [y|] eqn:E; [|done]. injection Hj as <-.
    right. exists y. split; [|done]. by eapply list_elem_of_lookup_2.
  - left. by eapply list_elem_of_lookup_2.
Qed.

(** An idle pac for which neither scan has a candidate: the planner reads
    [pallet.X] through the nil pointer. *)
Lemma plan_without_pellets_panics pac g moves :
  Pac.X pac = Pac.TargetX pac → Pac.Y pac = Pac.TargetY pac →
  (∀ p, p ∈ Game.Pellet g → ¬ eligible 10 p ∧ ¬ eligible 1 p) →
  plan pac g moves = Panic.
Proof.
  intros Hx Hy Hne. unfold plan. rewrite decide_True by done. cbv zeta.
  set (pg := match GetPallet _ _ g with Some o => _ | None => _ end).
  assert (Hne' : ∀ p, p ∈ Game.Pellet pg.2 → ¬ eligible 10 p ∧ ¬ eligible 1 p).
  { subst pg. destruct (GetPallet _ _ g) as [o|]; [|done]. simpl.
    intros p [Hp|(q & Hq & ->)]%elem_of_alter_inv; [by apply Hne|].
    split; intros [Hv _]; simpl in Hv; discriminate. }
  unfold GetClosestSuperPallet, GetClosestRegularPallet.
  rewrite closest_scan_none by (intros p Hp; by apply Hne').
  cbn [mbind result_bind].
  rewrite closest_scan_none by (intros p Hp; by apply Hne').
  done.
Qed.

(** C3: one open cell, one owned pac on it, no pellet reported.  After the
    input is read the pac's target is its own position and no pellet exists,
    and [PlayTurn] panics instead of holding the position. *)
Theorem idle_pac_without_pellets_panics :
  initGame 1 1 [" "%string] = Ok lone_game ∧
  Game.MyPacs (readTurn lone_input lone_game)
    = [Pac.mk 0 true 0 0 "" 0 0 0 0 0 0] ∧
  Game.Pellet (readTurn lone_input lone_game) = [] ∧
  PlayTurn (readTurn lone_input lone_game) = Panic.
Proof. repeat split; vm_compute; reflexivity. Qed.

(** ** The unit registry: what [AddPac] writes, and units are never removed *)

Lemma keeps_units_refl g : keeps_units g g.
Proof. split; reflexivity. Qed.

Lemma keeps_units_trans g1 g2 g3 :
  keeps_units g1 g2 → keeps_units g2 g3 → keeps_units g1 g3.
Proof. intros [? ?] [? ?]. split; etrans; done. Qed.

Lemma keeps_units_same g g' :
  Pac.Id <$> Game.MyPacs g' = Pac.Id <$> Game.MyPacs g →
  Pac.Id <$> Game.OpponentPacs g' = Pac.Id <$> Game.OpponentPacs g →
  keeps_units g g'.
Proof. intros H1 H2. split; [rewrite H1|rewrite H2]; reflexivity. Qed.

Lemma fmap_insert_same {A B} (f : A → B) (l : list A) i x y :
  l !! i = Some x → f y = f x → f <$> <[i := y]> l = f <$> l.
Proof.
  intros Hi Hf. rewrite list_fmap_insert, Hf. apply list_insert_id.
  by rewrite list_lookup_fmap, Hi.
Qed.

Lemma AddPac_side id mine x y typeId stl acd g :
  side mine (AddPac id mine x y typeId stl acd g) =
  match list_find (λ pac, Pac.Id pac = id) (side mine g) with
  | Some (i, pac) =>
      <[i := Pac.mk (Pac.Id pac) (Pac.Mine pac) x y typeId stl acd
                    (Pac.TargetX pac) (Pac.TargetY pac)
                    (Pac.TargetPelletId pac) (Pac.TargetPelletDist pac)]>
        (side mine g)
  | None =>
      side mine g ++ [Pac.mk id (bool_decide (mine = 1)) x y typeId stl acd
                             x y 0 0]
  end.
Proof.
  unfold AddPac, side. destruct (decide (mine = 1)); simpl;
    by destruct (list_find _ _) as [[i pac]|].
Qed.

Lemma AddPac_other_side id mine x y typeId stl acd g :
  other_side mine (AddPac id mine x y typeId stl acd g) = other_side mine g.
Proof. unfold AddPac, other_side. by destruct (decide (mine = 1)). Qed.

Lemma AddPac_Pellet id mine x y typeId stl acd g :
  Game.Pellet (AddPac id mine x y typeId stl acd g) = Game.Pellet g.
Proof. unfold AddPac. by destruct (decide (mine = 1)). Qed.

Lemma AddPac_keeps_units id mine x y typeId stl acd g :
  keeps_units g (AddPac id mine x y typeId stl acd g).
Proof.
  pose proof (AddPac_side id mine x y typeId stl acd g) as Hs.
  pose proof (AddPac_other_side id mine x y typeId stl acd g) as Ho.
  assert (Hp : (Pac.Id <$> side mine g) `prefix_of`
               (Pac.Id <$> side mine (AddPac id mine x y typeId stl acd g))).
  { rewrite Hs. destruct (list_find _ _) as [[i pac]|] eqn:E.
    - apply list_find_Some in E as (Hi & _ & _).
      by erewrite fmap_insert_same.
    - rewrite fmap_app. by apply prefix_app_r. }
  revert Hp Ho. unfold side, other_side, keeps_units.
  destruct (decide (mine = 1)); intros Hp ->; done.
Qed.

Lemma AddPellet_pacs id x y value g :
  Game.MyPacs (AddPellet id x y value g) = Game.MyPacs g ∧
  Game.OpponentPacs (AddPellet id x y value g) = Game.OpponentPacs g ∧
  Game.Grid (AddPellet id x y value g) = Game.Grid g.
Proof. unfold AddPellet. by destruct (list_find _ _) as [[i p]|]. Qed.

Lemma addPacs_keeps_units pacs : ∀ g, keeps_units g (addPacs pacs g).
Proof.
  induction pacs as [|l pacs IH]; intros g; [apply keeps_units_refl|].
  eapply keeps_units_trans; [|apply IH]. apply AddPac_keeps_units.
Qed.

Lemma addPellets_pacs pellets : ∀ i g,
  Game.MyPacs (addPellets i pellets g) = Game.MyPacs g ∧
  Game.OpponentPacs (addPellets i pellets g) = Game.OpponentPacs g ∧
  Game.Grid (addPellets i pellets g) = Game.Grid g.
Proof.
  induction pellets as [|l pellets IH]; intros i g; [done|]. simpl.
  destruct (IH (i + 1) (AddPellet i (pelletX l) (pelletY l) (pelletValue l) g))
    as (-> & -> & ->).
  apply AddPellet_pacs.
Qed.

Lemma readTurn_keeps_units input g : keeps_units g (readTurn input g).
Proof.
  unfold readTurn. cbv zeta.
  set (g4 := Game.set_VisiblePacCount _ _).
  set (g5 := Game.set_VisiblePalleteCount _ _).
  apply (keeps_units_trans _ g4); [by apply keeps_units_same|].
  apply (keeps_units_trans _ (addPacs (visiblePacs input) g4));
    [apply addPacs_keeps_units|].
  apply (keeps_units_trans _ g5); [by apply keeps_units_same|].
  destruct (addPellets_pacs (visiblePellets input) 0 g5) as (H1 & H2 & _).
  apply keeps_units_same; by f_equal.
Qed.

(** ** What [PlayTurn] leaves in place *)

#[local] Instance pac_moved_refl : Reflexive pac_moved.
Proof. by intros a. Qed.
#[local] Instance pac_moved_trans : Transitive pac_moved.
Proof.
  intros a b c (?&?&?&?&?&?&?) (?&?&?&?&?&?&?).
  unfold pac_moved. split_and!; congruence.
Qed.
#[local] Instance pellet_kept_refl : Reflexive pellet_kept.
Proof. by intros a. Qed.
#[local] Instance pellet_kept_trans : Transitive pellet_kept.
Proof.
  intros a b c (?&?&?&?) (?&?&?&?).
  unfold pellet_kept. split_and!; [congruence|congruence|auto|auto].
Qed.

#[local] Instance evolves_refl : Reflexive evolves.
Proof. intros g. by split. Qed.
#[local] Instance evolves_trans : Transitive evolves.
Proof.
  intros g1 g2 g3 [? ? ? ?] [? ? ? ?]. split; try congruence; by etrans.
Qed.

Lemma Forall2_alter_self {A} (R : A → A → Prop) `{!Reflexive R} f i l :
  (∀ x, l !! i = Some x → R x (f x)) → Forall2 R l (alter f i l).
Proof.
  intros H. apply Forall2_alter_r; [done|]. intros x y Hx Hy _.
  assert (y = x) as -> by congruence. auto.
Qed.

Lemma Forall2_insert_self {A} (R : A → A → Prop) `{!Reflexive R} y i l :
  (∀ x, l !! i = Some x → R x y) → Forall2 R l (<[i := y]> l).
Proof.
  intros H. apply Forall2_same_length_lookup. split; [by rewrite length_insert|].
  intros j x z Hx Hz. destruct (decide (i = j)) as [->|Hne].
  - rewrite list_lookup_insert_eq in Hz by (by eapply lookup_lt_Some).
    injection Hz as <-. auto.
  - rewrite list_lookup_insert_ne in Hz by done.
    assert (z = x) as -> by congruence. done.
Qed.

Lemma foldl_evolves {B} (f : Game.t → B → Game.t) (l : list B) :
  (∀ g b, evolves g (f g b)) → ∀ g, evolves g (foldl f g l).
Proof.
  intros Hf. induction l as [|b l IH]; intros g; simpl; [done|].
  etrans; [apply Hf|apply IH].
Qed.

Lemma RemovePallet_evolves pac g : evolves g (RemovePallet pac g).
Proof.
  unfold RemovePallet. destruct (GetPallet _ _ g) as [i|]; [|done].
  split; try done. simpl. apply Forall2_alter_self; [apply _|].
  intros p _. by split_and!.
Qed.

Lemma CheckTargetEaten_moved pac g : pac_moved pac (CheckTargetEaten pac g).
Proof.
  unfold CheckTargetEaten. destruct (_ ≫= _) as [p|]; [|done].
  by destruct (Pellet.Consumed p).
Qed.

Lemma reconcile_step_evolves g i : evolves g (reconcile_step g i).
Proof.
  unfold reconcile_step. destruct (Game.MyPacs g !! i) as [pac|] eqn:E; [|done].
  etrans; [apply (RemovePallet_evolves pac)|]. split; try done. simpl.
  apply Forall2_insert_self; [apply _|]. intros a Ha.
  destruct (RemovePallet_evolves pac g) as [_ _ Hm _].
  assert (Game.MyPacs (RemovePallet pac g) = Game.MyPacs g) as Hsame.
  { unfold RemovePallet. by destruct (GetPallet _ _ g). }
  rewrite Hsame in Ha. assert (a = pac) as -> by congruence.
  apply CheckTargetEaten_moved.
Qed.

Lemma reconcile_mine_evolves g : evolves g (reconcile_mine g).
Proof. apply foldl_evolves. apply reconcile_step_evolves. Qed.

Lemma reconcile_opponents_evolves g : evolves g (reconcile_opponents g).
Proof. apply foldl_evolves. intros g' pac. apply RemovePallet_evolves. Qed.

Lemma commit_evolves i pac g moves pac' g' moves' :
  commit i pac g moves = Ok (pac', g', moves') →
  evolves g g' ∧ pac_moved pac pac'.
Proof.
  unfold commit. destruct (Game.Pellet g !! i) as [p|]; [|done].
  cbn [deref mbind result_bind]. destruct (AStar _ _ _ _ _); try done.
  cbn [mbind result_bind]. intros [= <- <- <-]. split; [|done].
  split; try done. simpl. apply Forall2_alter_self; [apply _|].
  intros q _. by split_and!.
Qed.

Lemma plan_evolves pac g moves pac' g' moves' :
  plan pac g moves = Ok (pac', g', moves') →
  evolves g g' ∧ pac_moved pac pac'.
Proof.
  unfold plan. case_decide; [|by intros [= <- <- <-]]. cbv zeta.
  set (pg := match GetPallet _ _ g with Some o => _ | None => _ end).
  assert (Hpg : evolves g pg.2 ∧ pac_moved pac pg.1).
  { subst pg. destruct (GetPallet _ _ g) as [o|]; [|done]. split; [|done].
    split; try done. simpl. apply Forall2_alter_self; [apply _|].
    intros q _. by split_and!. }
  destruct Hpg as [Hg Hp].
  destruct (GetClosestSuperPallet _ _) as [[i|]| |]; try done;
    cbn [mbind result_bind].
  { intros [? ?]%commit_evolves. split; by etrans. }
  destruct (GetClosestRegularPallet _ _) as [[i|]| |]; try done;
    cbn [mbind result_bind].
  intros [? ?]%commit_evolves. split; by etrans.
Qed.

Lemma plan_loop_evolves slots : ∀ g moves g' moves',
  plan_loop slots g moves = Ok (g', moves') → evolves g g'.
Proof.
  induction slots as [|i slots IH]; intros g moves g' moves'; simpl.
  { by intros [= <- <-]. }
  destruct (Game.MyPacs g !! i) as [pac|] eqn:E; [|done].
  cbn [deref mbind result_bind].
  destruct (plan pac g moves) as [[[pac1 g1] moves1]| |] eqn:Ep; try done.
  cbn [mbind result_bind]. intros H%IH. etrans; [|exact H].
  apply plan_evolves in Ep as [Hg Hp]. etrans; [exact Hg|].
  split; try done. simpl. apply Forall2_insert_self; [apply _|].
  intros a Ha. destruct Hg as [_ _ Hm _].
  destruct (Forall2_lookup_l _ _ _ _ _ Hm E) as (a' & Ha' & Hmv).
  assert (a' = a) as -> by congruence.
  (* [a] is the pac of slot [i] after [plan] ran on the game, [pac1] the
     planned pac that is stored back *)
  destruct Hmv as (?&?&?&?&?&?&?), Hp as (?&?&?&?&?&?&?).
  unfold pac_moved. split_and!; congruence.
Qed.

Lemma PlayTurn_evolves g g' moves :
  PlayTurn g = Ok (g', moves) → evolves g g'.
Proof.
  unfold PlayTurn. cbv zeta. intros H%plan_loop_evolves.
  etrans; [apply reconcile_mine_evolves|].
  etrans; [apply reconcile_opponents_evolves|]. done.
Qed.

Lemma evolves_keeps_units g g' : evolves g g' → keeps_units g g'.
Proof.
  intros [_ Ho Hm _]. apply keeps_units_same; [|by rewrite Ho].
  symmetry. apply list_eq_Forall2. apply Forall2_fmap.
  eapply Forall2_impl; [exact Hm|]. by intros a a' (-> & _).
Qed.

(** C10: [AddPac] on an id its side already holds rewrites, in the first pac
    with that id, the position and the three attributes and nothing else
    (id, ownership, target coordinates, target pellet id and cached distance
    stay); on a new id it appends a pac whose target is its own position;
    it never touches the other side; and neither [AddPac] nor [AddPellet],
    the reading of a turn, or [PlayTurn] removes a unit. *)
Theorem AddPac_overwrites_position_only id mine x y typeId stl acd g :
  let g' := AddPac id mine x y typeId stl acd g in
  (∀ pac, pac ∈ side mine g → Pac.Id pac = id →
     ∃ i pac0,
       list_find (λ pac, Pac.Id pac = id) (side mine g) = Some (i, pac0) ∧
       side mine g' =
       <[i := Pac.mk (Pac.Id pac0) (Pac.Mine pac0) x y typeId stl acd
                     (Pac.TargetX pac0) (Pac.TargetY pac0)
                     (Pac.TargetPelletId pac0) (Pac.TargetPelletDist pac0)]>
         (side mine g)) ∧
  ((∀ pac, pac ∈ side mine g → Pac.Id pac ≠ id) →
     side mine g' =
     side mine g ++ [Pac.mk id (bool_decide (mine = 1)) x y typeId stl acd
                            x y 0 0]) ∧
  other_side mine g' = other_side mine g ∧
  keeps_units g g' ∧
  (∀ pid px py value, keeps_units g (AddPellet pid px py value g)) ∧
  (∀ input, keeps_units g (readTurn input g)) ∧
  (∀ g'' moves, PlayTurn g = Ok (g'', moves) → keeps_units g g'').
Proof.
  cbv zeta. split_and!.
  - intros pac Hin Hid.
    destruct (list_find_elem_of (λ pac, Pac.Id pac = id) _ _ Hin Hid)
      as [[i pac0] E].
    exists i, pac0. split; [done|]. by rewrite AddPac_side, E.
  - intros Hnew. rewrite AddPac_side.
    destruct (list_find _ _) as [[i pac0]|] eqn:E; [|done].
    apply list_find_Some in E as (Hi & Hid & _).
    destruct (Hnew pac0); [by eapply list_elem_of_lookup_2|done].
  - apply AddPac_other_side.
  - apply AddPac_keeps_units.
  - intros pid px py value.
    destruct (AddPellet_pacs pid px py value g) as (H1 & H2 & _).
    apply keeps_units_same; by f_equal.
  - intros input. apply readTurn_keeps_units.
  - intros g'' moves H%PlayTurn_evolves. by apply evolves_keeps_units.
Qed.

(** A sighting of own pac 7, which is under way to (5,5), at a new place. *)
Example AddPac_keeps_target :
  Game.MyPacs
    (AddPac 7 1 2 1 "ROCK" 3 4
       (Game.mk 3 3 [Pac.mk 7 true 0 0 "" 0 0 5 5 0 9] [] [] ring3 0 0 0 0))
  = [Pac.mk 7 true 2 1 "ROCK" 3 4 5 5 0 9].
Proof. reflexivity. Qed.

(** ** The pellet registry across the reading of a turn *)

Lemma AddPellet_Pellet id x y value g :
  Game.Pellet (AddPellet id x y value g) =
  match list_find (λ p, Pellet.X p = x ∧ Pellet.Y p = y) (Game.Pellet g) with
  | Some (i, p) =>
      <[i := Pellet.mk x y value false (Pellet.Targeted p)]> (Game.Pellet g)
  | None => Game.Pellet g ++ [Pellet.mk x y value false false]
  end.
Proof. unfold AddPellet. by destruct (list_find _ _) as [[i p]|]. Qed.

Lemma NoDup_coords_lookup (ps : list Pellet.t) i j p q :
  NoDup (coords <$> ps) → ps !! i = Some p → ps !! j = Some q →
  coords p = coords q → i = j.
Proof.
  intros Hnd Hi Hj Hc. eapply NoDup_lookup; [exact Hnd| |].
  - by rewrite list_lookup_fmap, Hi.
  - by rewrite list_lookup_fmap, Hj, Hc.
Qed.

Lemma AddPellet_lookup id x y value g i p :
  NoDup (coords <$> Game.Pellet g) →
  Game.Pellet g !! i = Some p →
  Game.Pellet (AddPellet id x y value g) !! i =
  Some (if decide (coords p = (x, y))
        then Pellet.mk x y value false (Pellet.Targeted p) else p).
Proof.
  intros Hnd Hi. rewrite AddPellet_Pellet.
  destruct (list_find _ _) as [[j q]|] eqn:E.
  - apply list_find_Some in E as (Hj & [Hx Hy] & _).
    destruct (decide (j = i)) as [->|Hne].
    + assert (q = p) as -> by congruence.
      rewrite list_lookup_insert_eq by (by eapply lookup_lt_Some).
      rewrite decide_True; [done|]. unfold coords. by rewrite Hx, Hy.
    + rewrite list_lookup_insert_ne by done. rewrite Hi.
      rewrite decide_False; [done|]. intros Hc. apply Hne.
      eapply NoDup_coords_lookup; [done..|]. unfold coords at 1.
      by rewrite Hx, Hy.
  - apply list_find_None in E. rewrite lookup_app_l by (by eapply lookup_lt_Some).
    rewrite Hi. rewrite decide_False; [done|]. intros [= Hx Hy].
    eapply Forall_lookup_1 in E; [|exact Hi]. by apply E.
Qed.

Lemma AddPellet_NoDup id x y value g :
  NoDup (coords <$> Game.Pellet g) →
  NoDup (coords <$> Game.Pellet (AddPellet id x y value g)).
Proof.
  intros Hnd. rewrite AddPellet_Pellet.
  destruct (list_find _ _) as [[j q]|] eqn:E.
  - apply list_find_Some in E as (Hj & [Hx Hy] & _).
    erewrite fmap_insert_same; [done..|]. unfold coords. simpl. by rewrite Hx, Hy.
  - apply list_find_None in E. rewrite fmap_app. apply NoDup_app.
    split; [done|]. split; [|apply NoDup_singleton].
    intros c (p & -> & Hp)%list_elem_of_fmap [= Hx Hy]%list_elem_of_singleton.
    rewrite Forall_forall in E. by apply (E p).
Qed.

Lemma addPellets_lookup pellets : ∀ k g i p,
  NoDup (coords <$> Game.Pellet g) →
  Game.Pellet g !! i = Some p →
  ∃ p', Game.Pellet (addPellets k pellets g) !! i = Some p' ∧
        coords p' = coords p ∧
        Pellet.Targeted p' = Pellet.Targeted p ∧
        (Pellet.Consumed p' = true ↔
         Pellet.Consumed p = true ∧
         coords p ∉ (λ l, (pelletX l, pelletY l)) <$> pellets).
Proof.
  induction pellets as [|l pellets IH]; intros k g i p Hnd Hi.
  { exists p. split_and!; try done. split; [|tauto].
    intros ?. split; [done|]. apply not_elem_of_nil. }
  cbn [addPellets].
  pose proof (AddPellet_lookup k (pelletX l) (pelletY l) (pelletValue l)
                g i p Hnd Hi) as Hi'.
  apply (AddPellet_NoDup k (pelletX l) (pelletY l) (pelletValue l)) in Hnd.
  destruct (IH (k + 1) _ i _ Hnd Hi') as (p' & Hp' & Hc & Ht & Hcons).
  exists p'. split; [done|]. rewrite Hc, Ht, Hcons. clear Hp' Hc Ht Hcons.
  rewrite fmap_cons, not_elem_of_cons. case_decide as Hd.
  - unfold coords at 1 2. simpl. split_and!; [by symmetry|done|].
    split; [intros [? _]; discriminate|]. intros (_ & Hne & _). by destruct Hne.
  - split_and!; try done. split; [|tauto]. intros [? ?]. done.
Qed.

Lemma addPacs_Pellet pacs : ∀ g,
  Game.Pellet (addPacs pacs g) = Game.Pellet g.
Proof.
  induction pacs as [|l pacs IH]; intros g; [done|].
  unfold addPacs in *. simpl. rewrite IH. apply AddPac_Pellet.
Qed.

Lemma readTurn_start input g :
  ∃ g5, readTurn input g = addPellets 0 (visiblePellets input) g5 ∧
        Game.Pellet g5 = Game.Pellet (markAllConsumed g).
Proof.
  unfold readTurn. cbv zeta. eexists. split; [reflexivity|].
  cbn [Game.Pellet Game.set_VisiblePalleteCount]. by rewrite addPacs_Pellet.
Qed.

Lemma markAllConsumed_coords g :
  coords <$> Game.Pellet (markAllConsumed g) = coords <$> Game.Pellet g.
Proof.
  unfold markAllConsumed. cbn [Game.Pellet Game.set_Pellet].
  rewrite <- list_fmap_compose. by apply list_fmap_ext.
Qed.

Lemma addPellets_NoDup pellets : ∀ k g,
  NoDup (coords <$> Game.Pellet g) →
  NoDup (coords <$> Game.Pellet (addPellets k pellets g)).
Proof.
  induction pellets as [|l pellets IH]; intros k g Hnd; [done|].
  cbn [addPellets]. by apply IH, AddPellet_NoDup.
Qed.

(** No two known pellets share a coordinate: this holds when [main] enters
    its loop and is kept by every pass. *)
Lemma initGame_NoDup width height rows g :
  initGame width height rows = Ok g → NoDup (coords <$> Game.Pellet g).
Proof.
  unfold initGame. destruct (initGrid _ _ _); try done.
  intros [= <-]. apply NoDup_nil_2.
Qed.

Lemma readTurn_NoDup input g :
  NoDup (coords <$> Game.Pellet g) →
  NoDup (coords <$> Game.Pellet (readTurn input g)).
Proof.
  intros Hnd. destruct (readTurn_start input g) as (g5 & -> & H5).
  apply addPellets_NoDup. by rewrite H5, markAllConsumed_coords.
Qed.

Lemma evolves_coords g g' :
  evolves g g' → coords <$> Game.Pellet g' = coords <$> Game.Pellet g.
Proof.
  intros [_ _ _ Hp]. symmetry. apply list_eq_Forall2, Forall2_fmap.
  eapply Forall2_impl; [exact Hp|]. intros p p' (Hx & Hy & _).
  unfold coords. by rewrite Hx, Hy.
Qed.

Lemma turn_NoDup input g g' moves :
  NoDup (coords <$> Game.Pellet g) →
  turn input g = Ok (g', moves) →
  NoDup (coords <$> Game.Pellet g').
Proof.
  intros Hnd H%PlayTurn_evolves%evolves_coords. rewrite H.
  by apply readTurn_NoDup.
Qed.

(** C7: a pass first marks every known pellet consumed; a pellet line then
    either rewrites the first entry at its coordinate (value taken from the
    line, consumed flag cleared) or appends an unconsumed entry; and once all
    lines are applied, a pellet known before the pass is still where it was
    and is consumed exactly when no line reported its coordinate. *)
Theorem unreported_pellets_are_consumed input g :
  NoDup (coords <$> Game.Pellet g) →
  (∀ p, p ∈ Game.Pellet (markAllConsumed g) → Pellet.Consumed p = true) ∧
  (∀ id x y value g0,
     match GetPallet x y g0 with
     | Some i =>
         ∃ p, Game.Pellet g0 !! i = Some p ∧
              Game.Pellet (AddPellet id x y value g0) =
              <[i := Pellet.mk x y value false (Pellet.Targeted p)]>
                (Game.Pellet g0)
     | None =>
         Game.Pellet (AddPellet id x y value g0) =
         Game.Pellet g0 ++ [Pellet.mk x y value false false]
     end) ∧
  (∀ i p, Game.Pellet g !! i = Some p →
     ∃ p', Game.Pellet (readTurn input g) !! i = Some p' ∧
           coords p' = coords p ∧
           (Pellet.Consumed p' = true ↔ coords p ∉ reported input)).
Proof.
  intros Hnd. split_and!.
  - unfold markAllConsumed. cbn [Game.Pellet Game.set_Pellet].
    by intros p (q & -> & _)%list_elem_of_fmap.
  - intros id x y value g0. rewrite AddPellet_Pellet. unfold GetPallet.
    destruct (list_find _ _) as [[i p]|] eqn:E; [|done]. simpl.
    apply list_find_Some in E as (Hi & _). eauto.
  - intros i p Hi. destruct (readTurn_start input g) as (g5 & -> & H5).
    assert (Hnd5 : NoDup (coords <$> Game.Pellet g5))
      by (by rewrite H5, markAllConsumed_coords).
    assert (Hi5 : Game.Pellet g5 !! i = Some (Pellet.set_Consumed true p)).
    { rewrite H5. unfold markAllConsumed. cbn [Game.Pellet Game.set_Pellet].
      by rewrite list_lookup_fmap, Hi. }
    destruct (addPellets_lookup (visiblePellets input) 0 g5 i _ Hnd5 Hi5)
      as (p' & Hp' & Hc & _ & Hcons).
    exists p'. split_and!; [done..|]. rewrite Hcons. unfold reported.
    change (coords (Pellet.set_Consumed true p)) with (coords p).
    cbn [Pellet.Consumed Pellet.set_Consumed]. tauto.
Qed.

Lemma unreported_pellets_are_consumed_witness :
  ∃ p', Game.Pellet (readTurn seen_input sample_game) !! 1%nat = Some p' ∧
        coords p' = (0, 1) ∧
        (Pellet.Consumed p' = true ↔ (0, 1) ∉ reported seen_input).
Proof.
  destruct (unreported_pellets_are_consumed seen_input sample_game)
    as (_ & _ & H).
  - apply (bool_decide_unpack _). vm_compute. exact I.
  - apply (H 1%nat (Pellet.mk 0 1 1 false false)). reflexivity.
Defined.

(** The pass on the sample: the pellets at (2,2) and (1,0) are reported and
    unconsumed, the other three are consumed. *)
Example readTurn_on_sample :
  Pellet.Consumed <$> Game.Pellet (readTurn seen_input sample_game)
  = [false; true; true; true; false].
Proof. reflexivity. Qed.

(** ** Stale targets *)

Lemma CheckTargetEaten_stale pac g :
  stale pac g → CheckTargetEaten pac g = clear_target pac.
Proof.
  unfold stale, CheckTargetEaten. destruct (_ ≫= _) as [p|]; [|done].
  by intros ->.
Qed.

Lemma CheckTargetEaten_live pac g :
  ¬ stale pac g → CheckTargetEaten pac g = pac.
Proof.
  unfold stale, CheckTargetEaten. destruct (_ ≫= _) as [p|]; [|done].
  by destruct (Pellet.Consumed p).
Qed.

(** [GetPallet] reads the coordinates of the pellets only. *)
Lemma GetPallet_evolves x y g g' :
  evolves g g' → GetPallet x y g' = GetPallet x y g.
Proof.
  intros [_ _ _ Hp]. unfold GetPallet.
  induction Hp as [|p p' l l' (Hx & Hy & _) _ IH]; [done|]. simpl.
  rewrite Hx, Hy. case_decide; [done|].
  destruct (list_find _ l) as [[i q]|], (list_find _ l') as [[i' q']|];
    simpl in *; congruence.
Qed.

Lemma stale_evolves pac g g' : evolves g g' → stale pac g → stale pac g'.
Proof.
  intros Hev. unfold stale. rewrite (GetPallet_evolves _ _ _ _ Hev).
  destruct (GetPallet _ _ g) as [i|]; [|done]. simpl.
  destruct Hev as [_ _ _ Hp].
  destruct (Game.Pellet g' !! i) as [p'|] eqn:E'; [|done].
  destruct (Forall2_lookup_r _ _ _ _ _ Hp E') as (p & -> & (_ & _ & Hc & _)).
  exact Hc.
Qed.

Lemma RemovePallet_pacs pac g :
  Game.MyPacs (RemovePallet pac g) = Game.MyPacs g.
Proof. unfold RemovePallet. by destruct (GetPallet _ _ g). Qed.

Lemma reconcile_step_lookup g j i :
  Game.MyPacs (reconcile_step g j) !! i =
  if decide (j = i) then
    (λ pac, CheckTargetEaten pac (RemovePallet pac g)) <$> Game.MyPacs g !! i
  else Game.MyPacs g !! i.
Proof.
  unfold reconcile_step. case_decide as Hd.
  - subst j. destruct (Game.MyPacs g !! i) as [pac|] eqn:E; [|by rewrite E].
    cbn [Game.MyPacs Game.set_MyPacs fmap option_fmap option_map].
    rewrite RemovePallet_pacs.
    by rewrite list_lookup_insert_eq by (by eapply lookup_lt_Some).
  - destruct (Game.MyPacs g !! j) as [pac|] eqn:E; [|done].
    cbn [Game.MyPacs Game.set_MyPacs]. rewrite RemovePallet_pacs.
    by rewrite list_lookup_insert_ne.
Qed.

Lemma reconcile_fold_other slots i : ∀ g,
  i ∉ slots →
  Game.MyPacs (foldl reconcile_step g slots) !! i = Game.MyPacs g !! i.
Proof.
  induction slots as [|j slots IH]; intros g Hi; [done|].
  apply not_elem_of_cons in Hi as [Hne Hi]. simpl. rewrite IH by done.
  rewrite reconcile_step_lookup. by rewrite decide_False.
Qed.

Lemma reconcile_fold_clears slots i pac : ∀ g,
  NoDup slots → i ∈ slots →
  Game.MyPacs g !! i = Some pac → stale pac g →
  Game.MyPacs (foldl reconcile_step g slots) !! i = Some (clear_target pac).
Proof.
  induction slots as [|j slots IH]; intros g Hnd Hin Hi Hst.
  { by apply elem_of_nil in Hin. }
  apply NoDup_cons in Hnd as [Hj Hnd]. simpl.
  destruct (decide (j = i)) as [->|Hne].
  - rewrite reconcile_fold_other by done.
    rewrite reconcile_step_lookup, decide_True, Hi by done. simpl.
    f_equal. apply CheckTargetEaten_stale.
    eapply stale_evolves; [apply RemovePallet_evolves|done].
  - apply elem_of_cons in Hin as [?|Hin]; [congruence|].
    apply IH; [done..| |].
    + by rewrite reconcile_step_lookup, decide_False.
    + eapply stale_evolves; [apply reconcile_step_evolves|done].
Qed.

Lemma reconcile_opponents_pacs g :
  Game.MyPacs (reconcile_opponents g) = Game.MyPacs g.
Proof.
  unfold reconcile_opponents. generalize (Game.OpponentPacs g) as pacs.
  intros pacs. revert g. induction pacs as [|pac pacs IH]; intros g; [done|].
  simpl. by rewrite IH, RemovePallet_pacs.
Qed.

Lemma plan_pacs pac g moves pac' g' moves' :
  plan pac g moves = Ok (pac', g', moves') →
  Game.MyPacs g' = Game.MyPacs g.
Proof.
  assert (Hc : ∀ i pac g moves pac' g' moves',
            commit i pac g moves = Ok (pac', g', moves') →
            Game.MyPacs g' = Game.MyPacs g).
  { clear. intros i pac g moves pac' g' moves'. unfold commit.
    destruct (Game.Pellet g !! i) as [p|]; [|done].
    cbn [deref mbind result_bind]. destruct (AStar _ _ _ _ _); try done.
    cbn [mbind result_bind]. by intros [= <- <- <-]. }
  unfold plan. case_decide; [|by intros [= <- <- <-]]. cbv zeta.
  set (pg := match GetPallet _ _ g with Some o => _ | None => _ end).
  assert (Hpg : Game.MyPacs pg.2 = Game.MyPacs g).
  { subst pg. by destruct (GetPallet _ _ g). }
  destruct (GetClosestSuperPallet _ _) as [[i|]| |]; try done;
    cbn [mbind result_bind].
  { intros ?%Hc. congruence. }
  destruct (GetClosestRegularPallet _ _) as [[i|]| |]; try done;
    cbn [mbind result_bind].
  intros ?%Hc. congruence.
Qed.

Lemma plan_loop_other slots i : ∀ g moves g' moves',
  plan_loop slots g moves = Ok (g', moves') →
  i ∉ slots →
  Game.MyPacs g' !! i = Game.MyPacs g !! i.
Proof.
  induction slots as [|j slots IH]; intros g moves g' moves'; simpl.
  { by intros [= <- <-]. }
  destruct (Game.MyPacs g !! j) as [pac|] eqn:E; [|done].
  cbn [deref mbind result_bind].
  destruct (plan pac g moves) as [[[pac1 g1] moves1]| |] eqn:Ep; try done.
  cbn [mbind result_bind]. intros H [Hne Hi]%not_elem_of_cons.
  rewrite (IH _ _ _ _ H Hi). cbn [Game.MyPacs Game.set_MyPacs].
  rewrite list_lookup_insert_ne by done. by rewrite (plan_pacs _ _ _ _ _ _ Ep).
Qed.

Lemma plan_loop_app l1 l2 g moves :
  plan_loop (l1 ++ l2) g moves =
  '(g1, moves1) ← plan_loop l1 g moves; plan_loop l2 g1 moves1.
Proof.
  revert g moves. induction l1 as [|i l1 IH]; intros g moves; [done|].
  simpl. destruct (Game.MyPacs g !! i) as [pac|]; [|done].
  cbn [deref mbind result_bind].
  destruct (plan pac g moves) as [[[pac1 g1] moves1]| |]; try done.
  cbn [mbind result_bind]. apply IH.
Qed.

(** C8: for an owned pac whose target pellet is absent or consumed when
    [PlayTurn] starts, [CheckTargetEaten] resets the target to the pac's own
    position and the cached distance to -1; the pac is in that state when the
    two reconciliation loops are done, and still so when the move loop, which
    runs after them, reaches its slot. *)
Theorem stale_target_is_cleared g i pac :
  Game.MyPacs g !! i = Some pac →
  stale pac g →
  let g' := reconcile_opponents (reconcile_mine g) in
  CheckTargetEaten pac g = clear_target pac ∧
  Game.MyPacs g' !! i = Some (clear_target pac) ∧
  PlayTurn g =
    ('(g1, moves) ← plan_loop (seq 0 i) g' "";
     plan_loop (seq i (length (Game.MyPacs g) - i)) g1 moves) ∧
  ∀ g1 moves, plan_loop (seq 0 i) g' "" = Ok (g1, moves) →
              Game.MyPacs g1 !! i = Some (clear_target pac).
Proof.
  intros Hi Hst g'.
  assert (Hlen : length (Game.MyPacs g') = length (Game.MyPacs g)).
  { symmetry. eapply Forall2_length, ev_mine.
    etrans; [apply reconcile_mine_evolves|apply reconcile_opponents_evolves]. }
  assert (Hi' : Game.MyPacs g' !! i = Some (clear_target pac)).
  { subst g'. rewrite reconcile_opponents_pacs. unfold reconcile_mine.
    apply reconcile_fold_clears; [apply NoDup_seq| |done..].
    apply elem_of_seq. apply lookup_lt_Some in Hi. lia. }
  split_and!; [by apply CheckTargetEaten_stale|done| |].
  - unfold PlayTurn. cbv zeta. fold g'. rewrite Hlen, <- plan_loop_app.
    f_equal. apply lookup_lt_Some in Hi.
    replace (length (Game.MyPacs g)) with (i + (length (Game.MyPacs g) - i))%nat
      at 1 by lia.
    apply seq_app.
  - intros g1 moves H. rewrite (plan_loop_other _ i _ _ _ _ H); [done|].
    rewrite elem_of_seq. lia.
Qed.

Lemma stale_target_is_cleared_witness :
  Game.MyPacs (reconcile_opponents (reconcile_mine stale_game)) !! 0%nat
  = Some (clear_target stale_pac).
Proof.
  apply (stale_target_is_cleared stale_game 0 stale_pac).
  - reflexivity.
  - vm_compute. reflexivity.
Defined.

(** ** The targeted flag *)

(** A pellet returned by a scan is eligible, in particular not targeted. *)
Lemma closest_scan_eligible value pac grid suf : ∀ k closest d r,
  closest_scan value pac grid suf k closest d = Ok (Some r) →
  closest = Some r ∨
  ∃ p, (k ≤ r)%nat ∧ suf !! (r - k)%nat = Some p ∧ eligible value p.
Proof.
  induction suf as [|p suf IH]; intros k closest d r; cbn [closest_scan].
  { intros [= ->]. by left. }
  assert (Hrest : ∀ c' d',
            closest_scan value pac grid suf (S k) c' d' = Ok (Some r) →
            c' = Some r ∨
            ∃ q, (k ≤ r)%nat ∧ (p :: suf) !! (r - k)%nat = Some q ∧
                 eligible value q).
  { intros c' d' [?|(q & Hk & Hq & He)]%IH; [by left|right].
    exists q. split; [lia|]. split; [|done].
    replace (r - k)%nat with (S (r - S k)) by lia. done. }
  destruct (bool_decide (Pellet.Value p = value) && negb (Pellet.Consumed p)
            && negb (Pellet.Targeted p)) eqn:Et; [|by apply Hrest].
  apply eligible_test in Et.
  destruct (AStar _ _ _ _ _) as [path| |]; try done. cbn [mbind result_bind].
  case_decide; [|by apply Hrest].
  intros [[= <-]|?]%Hrest; [|by right]. right. exists p.
  rewrite Nat.sub_diag. done.
Qed.

Lemma GetClosest_not_targeted pac g i :
  GetClosestSuperPallet pac g = Ok (Some i) ∨
  GetClosestRegularPallet pac g = Ok (Some i) →
  ∃ p, Game.Pellet g !! i = Some p ∧ Pellet.Targeted p = false.
Proof.
  unfold GetClosestSuperPallet, GetClosestRegularPallet.
  intros [H|H]; apply closest_scan_eligible in H
    as [?|(p & _ & Hp & _ & _ & Ht)]; try done;
    rewrite Nat.sub_0_r in Hp; eauto.
Qed.

Lemma targeted_kept_trans g1 g2 g3 :
  targeted_kept g1 g2 → targeted_kept g2 g3 → targeted_kept g1 g3.
Proof.
  intros H12 H23 i p Hi Ht.
  destruct (H12 i p Hi Ht) as (p2 & Hi2 & Hc2 & Ht2).
  destruct (H23 i p2 Hi2 Ht2) as (p3 & Hi3 & Hc3 & Ht3).
  exists p3. split_and!; congruence.
Qed.

Lemma targeted_kept_same g g' :
  Game.Pellet g' = Game.Pellet g → targeted_kept g g'.
Proof. intros H i p Hi Ht. exists p. by rewrite H. Qed.

Lemma evolves_targeted_kept g g' : evolves g g' → targeted_kept g g'.
Proof.
  intros [_ _ _ Hp] i p Hi Ht.
  destruct (Forall2_lookup_l _ _ _ _ _ Hp Hi) as (p' & Hi' & Hx & Hy & _ & Hk).
  exists p'. split_and!; [done| |auto]. unfold coords. by rewrite Hx, Hy.
Qed.

Lemma markAllConsumed_targeted_kept g : targeted_kept g (markAllConsumed g).
Proof.
  intros i p Hi Ht. exists (Pellet.set_Consumed true p). split; [|done].
  unfold markAllConsumed. cbn [Game.Pellet Game.set_Pellet].
  by rewrite list_lookup_fmap, Hi.
Qed.

Lemma AddPellet_targeted_kept id x y value g :
  targeted_kept g (AddPellet id x y value g).
Proof.
  intros i p Hi Ht. rewrite AddPellet_Pellet.
  destruct (list_find _ _) as [[j q]|] eqn:E.
  - apply list_find_Some in E as (Hj & [Hx Hy] & _).
    destruct (decide (j = i)) as [->|Hne].
    + assert (q = p) as -> by congruence.
      rewrite list_lookup_insert_eq by (by eapply lookup_lt_Some).
      eexists. split; [done|]. unfold coords. simpl. by rewrite Hx, Hy.
    + rewrite list_lookup_insert_ne by done. eauto.
  - rewrite lookup_app_l by (by eapply lookup_lt_Some). eauto.
Qed.

Lemma addPellets_targeted_kept pellets : ∀ k g,
  targeted_kept g (addPellets k pellets g).
Proof.
  induction pellets as [|l pellets IH]; intros k g.
  { by apply targeted_kept_same. }
  cbn [addPellets]. eapply targeted_kept_trans; [|apply IH].
  apply AddPellet_targeted_kept.
Qed.

Lemma readTurn_targeted_kept input g : targeted_kept g (readTurn input g).
Proof.
  destruct (readTurn_start input g) as (g5 & -> & H5).
  eapply targeted_kept_trans; [apply markAllConsumed_targeted_kept|].
  eapply targeted_kept_trans; [apply targeted_kept_same; exact H5|].
  apply addPellets_targeted_kept.
Qed.

Lemma commit_targets i pac g moves pac' g' moves' :
  commit i pac g moves = Ok (pac', g', moves') →
  ∃ p', Game.Pellet g' !! i = Some p' ∧ Pellet.Targeted p' = true ∧
        (Pac.TargetX pac', Pac.TargetY pac') = coords p'.
Proof.
  unfold commit. destruct (Game.Pellet g !! i) as [p|] eqn:E; [|done].
  cbn [deref mbind result_bind]. destruct (AStar _ _ _ _ _); try done.
  cbn [mbind result_bind]. intros [= <- <- <-].
  exists (Pellet.set_Targeted true p). split; [|done].
  cbn [Game.Pellet Game.set_Pellet]. by rewrite list_lookup_alter_eq, E.
Qed.

(** C6, as stated, fails: in the second pass the pac's target (2,0) is stale
    and is cleared, yet the pellet keeps its flag; when the pellet is
    reported again in the third pass it is an unconsumed super pellet that no
    pac has as target, and the scan does not return it. *)
Lemma targeted_flag_outlives_stale_target :
  initGame 3 1 ["   "%string] = Ok pass0 ∧
  turn input1 pass0 = Ok (pass1, "MOVE 0 2 0|"%string) ∧
  ¬ flag_cleared_when_stale (readTurn input2 pass1) ∧
  turn input2 pass1 = Ok (pass2, "MOVE 0 0 0|"%string) ∧
  Game.MyPacs (readTurn input3 pass2) = [Pac.mk 0 true 0 0 "" 0 0 0 0 0 0] ∧
  Game.Pellet (readTurn input3 pass2) !! 0%nat
    = Some (Pellet.mk 2 0 10 false true) ∧
  GetClosestSuperPallet (Pac.mk 0 true 0 0 "" 0 0 0 0 0 0)
                        (readTurn input3 pass2) = Ok None.
Proof.
  split_and!; try (vm_compute; reflexivity).
  intros H.
  specialize (H 0%nat (Pac.mk 0 true 1 0 "" 0 0 2 0 0 0) eq_refl).
  assert (Hst : stale (Pac.mk 0 true 1 0 "" 0 0 2 0 0 0)
                      (readTurn input2 pass1)) by (vm_compute; reflexivity).
  specialize (H Hst 0%nat (Pellet.mk 2 0 10 true true) eq_refl eq_refl).
  discriminate H.
Qed.

(** C6, amended: a commitment sets the flag of the pellet committed to, and
    nothing clears a flag: neither the reading of a turn nor [PlayTurn],
    whose check for stale targets rewrites the pac only, nor [RemovePallet];
    and no scan returns a flagged pellet. *)
Theorem targeted_flag_is_never_cleared g :
  (∀ i pac moves pac' g' moves',
     commit i pac g moves = Ok (pac', g', moves') →
     ∃ p', Game.Pellet g' !! i = Some p' ∧ Pellet.Targeted p' = true ∧
           (Pac.TargetX pac', Pac.TargetY pac') = coords p') ∧
  (∀ input, targeted_kept g (readTurn input g)) ∧
  (∀ pac, targeted_kept g (RemovePallet pac g)) ∧
  targeted_kept g (reconcile_opponents (reconcile_mine g)) ∧
  (∀ g' moves, PlayTurn g = Ok (g', moves) → targeted_kept g g') ∧
  (∀ pac i,
     GetClosestSuperPallet pac g = Ok (Some i) ∨
     GetClosestRegularPallet pac g = Ok (Some i) →
     ∃ p, Game.Pellet g !! i = Some p ∧ Pellet.Targeted p = false).
Proof.
  split_and!.
  - intros i pac moves pac' g' moves'. apply commit_targets.
  - intros input. apply readTurn_targeted_kept.
  - intros pac. apply evolves_targeted_kept, RemovePallet_evolves.
  - apply evolves_targeted_kept.
    etrans; [apply reconcile_mine_evolves|apply reconcile_opponents_evolves].
  - intros g' moves H%PlayTurn_evolves. by apply evolves_targeted_kept.
  - intros pac i. apply GetClosest_not_targeted.
Qed.

(** ** Two idle pacs and one super pellet *)

Lemma plan_idle pac g moves :
  idle pac →
  plan pac g moves =
  let pac1 := (arrive pac g).1 in
  let g1 := (arrive pac g).2 in
  pallet ← GetClosestSuperPallet pac1 g1;
  match pallet with
  | Some i => commit i pac1 g1 moves
  | None =>
      pallet ← GetClosestRegularPallet pac1 g1;
      match pallet with
      | Some i => commit i pac1 g1 moves
      | None => Panic
      end
  end.
Proof.
  intros Hidle. unfold plan. rewrite decide_True by exact Hidle.
  cbv zeta. fold (arrive pac g).
  destruct (GetClosestSuperPallet _ _) as [[i|]| |]; [done| |done..].
  cbn [mbind result_bind].
  by destruct (GetClosestRegularPallet _ _) as [[j|]| |].
Qed.

Lemma arrive_frame pac g :
  Game.Grid (arrive pac g).2 = Game.Grid g ∧
  Game.MyPacs (arrive pac g).2 = Game.MyPacs g ∧
  pac_moved pac (arrive pac g).1.
Proof. unfold arrive. by destruct (GetPallet _ _ g). Qed.

Lemma arrive_pellets pac g j q' :
  Game.Pellet (arrive pac g).2 !! j = Some q' →
  ∃ q, Game.Pellet g !! j = Some q ∧ coords q' = coords q ∧
       Pellet.Consumed q' = Pellet.Consumed q ∧
       Pellet.Targeted q' = Pellet.Targeted q ∧
       (q' = q ∨
        Pellet.Value q' = 0 ∧
        GetPallet (Pac.TargetX pac) (Pac.TargetY pac) g = Some j).
Proof.
  unfold arrive. destruct (GetPallet _ _ g) as [o|] eqn:E;
    cbn [snd Game.Pellet Game.set_Pellet]; [|by eauto 10].
  rewrite list_lookup_alter. case_decide as Ho; [subst o|by eauto 10].
  destruct (Game.Pellet g !! j) as [q|]; [|done]. intros [= <-].
  exists q. split_and!; try done. by right.
Qed.

Lemma arrive_pellets_back pac g j q :
  Game.Pellet g !! j = Some q →
  GetPallet (Pac.TargetX pac) (Pac.TargetY pac) g ≠ Some j →
  Game.Pellet (arrive pac g).2 !! j = Some q.
Proof.
  intros Hj Hne. unfold arrive. destruct (GetPallet _ _ g) as [o|];
    cbn [snd Game.Pellet Game.set_Pellet]; [|done].
  rewrite list_lookup_alter_ne; [done|]. congruence.
Qed.

Lemma commit_Ok i pac g moves p c c' :
  Game.Pellet g !! i = Some p →
  at_xy (Game.Grid g) (Pac.X pac) (Pac.Y pac) = Ok c →
  at_xy (Game.Grid g) (Pellet.X p) (Pellet.Y p) = Ok c' →
  ∃ d,
    commit i pac g moves =
    Ok (Pac.set_TargetPelletDist d
          (Pac.set_TargetY (Pellet.Y p) (Pac.set_TargetX (Pellet.X p) pac)),
        Game.set_Pellet (alter (Pellet.set_Targeted true) i (Game.Pellet g)) g,
        moves +:+ Sprintf_MOVE (Pac.Id pac) (Pellet.X p) (Pellet.Y p)).
Proof.
  intros Hi Hc Hc'. unfold commit. rewrite Hi.
  cbn [deref mbind result_bind Pac.X Pac.Y Pac.set_TargetX Pac.set_TargetY].
  rewrite (AStar_eval _ _ _ _ _ _ _ Hc Hc').
  case_decide; cbn [mbind result_bind]; eauto.
Qed.

(** An idle pac that [plan] returns for has been committed to a pellet that
    was not flagged before. *)
Lemma plan_idle_commits pac g moves pac' g' moves' :
  idle pac →
  plan pac g moves = Ok (pac', g', moves') →
  ∃ r q0 q, Game.Pellet g !! r = Some q0 ∧ Pellet.Targeted q0 = false ∧
            Game.Pellet g' !! r = Some q ∧ Pellet.Targeted q = true ∧
            (Pac.TargetX pac', Pac.TargetY pac') = coords q.
Proof.
  intros Hidle. rewrite plan_idle by done. cbv zeta.
  assert (Hc : ∀ i, GetClosestSuperPallet (arrive pac g).1 (arrive pac g).2
                      = Ok (Some i) ∨
                    GetClosestRegularPallet (arrive pac g).1 (arrive pac g).2
                      = Ok (Some i) →
                    commit i (arrive pac g).1 (arrive pac g).2 moves
                      = Ok (pac', g', moves') →
                    ∃ r q0 q, Game.Pellet g !! r = Some q0 ∧
                      Pellet.Targeted q0 = false ∧
                      Game.Pellet g' !! r = Some q ∧
                      Pellet.Targeted q = true ∧
                      (Pac.TargetX pac', Pac.TargetY pac') = coords q).
  { intros i (p & Hp & Ht)%GetClosest_not_targeted
             (q & Hq & Htq & Hcq)%commit_targets.
    apply arrive_pellets in Hp as (q0 & Hq0 & _ & _ & Ht0 & _).
    exists i, q0, q. split_and!; try done. congruence. }
  destruct (GetClosestSuperPallet _ _) as [[i|]| |] eqn:Es; try done;
    cbn [mbind result_bind].
  { apply Hc. by left. }
  destruct (GetClosestRegularPallet _ _) as [[i|]| |] eqn:Er; try done;
    cbn [mbind result_bind].
  apply Hc. by right.
Qed.

Lemma eaten_under_evolves pac pac' g g' :
  evolves g g' → Pac.X pac' = Pac.X pac → Pac.Y pac' = Pac.Y pac →
  eaten_under pac g → eaten_under pac' g'.
Proof.
  intros Hev Hx Hy H o p'. rewrite Hx, Hy, (GetPallet_evolves _ _ _ _ Hev).
  intros Ho Hp'. destruct Hev as [_ _ _ Hp].
  destruct (Forall2_lookup_r _ _ _ _ _ Hp Hp') as (p & Hpo & (_ & _ & Hc & _)).
  eauto.
Qed.

Lemma RemovePallet_eaten pac g : eaten_under pac (RemovePallet pac g).
Proof.
  intros o p. rewrite (GetPallet_evolves _ _ _ _ (RemovePallet_evolves pac g)).
  intros Ho. unfold RemovePallet. rewrite Ho.
  cbn [Game.Pellet Game.set_Pellet]. rewrite list_lookup_alter_eq.
  destruct (Game.Pellet g !! o); [|done]. by intros [= <-].
Qed.

Lemma reconcile_fold_eats slots i : ∀ g pac,
  i ∈ slots → Game.MyPacs g !! i = Some pac →
  ∃ pac', Game.MyPacs (foldl reconcile_step g slots) !! i = Some pac' ∧
          eaten_under pac' (foldl reconcile_step g slots).
Proof.
  induction slots as [|j slots IH]; intros g pac Hin Hi.
  { by apply elem_of_nil in Hin. }
  simpl. destruct (decide (i ∈ slots)) as [Hin'|Hnin].
  - pose proof (reconcile_step_evolves g j) as Hev.
    destruct (Forall2_lookup_l _ _ _ _ _ (ev_mine _ _ Hev) Hi)
      as (pac1 & Hi1 & _).
    by apply (IH _ _ Hin' Hi1).
  - apply elem_of_cons in Hin as [->|?]; [|done].
    rewrite reconcile_fold_other by done.
    rewrite reconcile_step_lookup, decide_True, Hi by done. simpl.
    eexists. split; [done|].
    eapply eaten_under_evolves;
      [| | |apply (RemovePallet_eaten pac g)].
    + etrans; [|apply foldl_evolves, reconcile_step_evolves].
      unfold reconcile_step. rewrite Hi.
      split; try done. simpl. apply Forall2_insert_self; [apply _|].
      intros x Hx. rewrite RemovePallet_pacs in Hx.
      assert (x = pac) as -> by congruence. apply CheckTargetEaten_moved.
    + apply CheckTargetEaten_moved.
    + apply CheckTargetEaten_moved.
Qed.

(** When the two reconciliation loops of [PlayTurn] are done, the pellet
    under every owned pac is consumed. *)
Lemma reconcile_eats_under g i pac :
  Game.MyPacs (reconcile_opponents (reconcile_mine g)) !! i = Some pac →
  eaten_under pac (reconcile_opponents (reconcile_mine g)).
Proof.
  rewrite reconcile_opponents_pacs. intros Hi.
  assert (Hlt : (i < length (Game.MyPacs g))%nat).
  { apply lookup_lt_Some in Hi.
    by rewrite (Forall2_length _ _ _ (ev_mine _ _ (reconcile_mine_evolves g))). }
  destruct (lookup_lt_is_Some_2 _ _ Hlt) as [pac0 Hi0].
  destruct (reconcile_fold_eats (seq 0 (length (Game.MyPacs g))) i g pac0)
    as (pac' & Hi' & Heat); [apply elem_of_seq; lia|done|].
  unfold reconcile_mine in Hi. assert (pac' = pac) as -> by congruence.
  eapply eaten_under_evolves; [apply reconcile_opponents_evolves|done..].
Qed.

(** C9: two idle owned pacs in slots [a] and [b], planned in this order, and
    exactly one super pellet, in slot [s], that is neither consumed nor
    targeted; the first pac and the pellet lie on the grid, and the pellet
    under the first pac is consumed, as the reconciliation loops leave it.
    Planning the first pac returns and commits it to the pellet, whose flag is
    set; from then on the super scan of any pac returns nil; and whenever
    planning the second pac returns, the first keeps its commitment and the
    second has a target at another coordinate. *)
Theorem single_super_pellet_single_commit g a b pa pb s ps moves ca cs :
  a ≠ b →
  Game.MyPacs g !! a = Some pa →
  Game.MyPacs g !! b = Some pb →
  idle pa → idle pb →
  eaten_under pa g →
  NoDup (coords <$> Game.Pellet g) →
  Game.Pellet g !! s = Some ps →
  eligible 10 ps →
  (∀ j q, Game.Pellet g !! j = Some q → eligible 10 q → j = s) →
  at_xy (Game.Grid g) (Pac.X pa) (Pac.Y pa) = Ok ca →
  at_xy (Game.Grid g) (Pellet.X ps) (Pellet.Y ps) = Ok cs →
  ∃ g1 moves1 pa' ps',
    plan_loop [a] g moves = Ok (g1, moves1) ∧
    plan_loop [a; b] g moves = plan_loop [b] g1 moves1 ∧
    Game.MyPacs g1 !! a = Some pa' ∧
    (Pac.TargetX pa', Pac.TargetY pa') = coords ps ∧
    Game.Pellet g1 !! s = Some ps' ∧
    coords ps' = coords ps ∧ Pellet.Targeted ps' = true ∧
    Game.MyPacs g1 !! b = Some pb ∧
    (∀ pac, GetClosestSuperPallet pac g1 = Ok None) ∧
    ∀ g2 moves2, plan_loop [b] g1 moves1 = Ok (g2, moves2) →
      Game.MyPacs g2 !! a = Some pa' ∧
      ∃ pb', Game.MyPacs g2 !! b = Some pb' ∧
             (Pac.TargetX pb', Pac.TargetY pb') ≠ coords ps.
Proof.
  intros Hab Ha Hb Hia Hib Heat Hnd Hs Hes Huniq Hca Hcs.
  destruct (arrive_frame pa g) as (Hgrid & Hpacs & Hmv).
  destruct Hmv as (Hid & _ & Hx & Hy & _).
  set (pa0 := (arrive pa g).1) in *. set (ga := (arrive pa g).2) in *.
  assert (Hs0 : Game.Pellet ga !! s = Some ps).
  { apply arrive_pellets_back; [done|]. intros Ho.
    destruct Hia as [Hix Hiy]. rewrite <- Hix, <- Hiy in Ho.
    specialize (Heat s ps Ho Hs). destruct Hes as (_ & Hc & _). congruence. }
  assert (Huniq0 : ∀ j q, Game.Pellet ga !! j = Some q → eligible 10 q → j = s).
  { intros j q' Hj He.
    apply arrive_pellets in Hj as (q & Hq & _ & _ & _ & [->|[Hv _]]); [eauto|].
    destruct He as [Hv' _]. rewrite Hv in Hv'. discriminate. }
  assert (Hca0 : at_xy (Game.Grid ga) (Pac.X pa0) (Pac.Y pa0) = Ok ca)
    by (by rewrite Hgrid, Hx, Hy).
  assert (Hcs0 : at_xy (Game.Grid ga) (Pellet.X ps) (Pellet.Y ps) = Ok cs)
    by (by rewrite Hgrid).
  assert (Hsearch : GetClosestSuperPallet pa0 ga = Ok (Some s)).
  { destruct (closest_scan_first_minimum 10 pa0 (Game.Grid ga)
                (Game.Pellet ga) [] None 0) as (r & d & Hr & Hmin).
    - intros p [j Hj]%list_elem_of_lookup He.
      assert (j = s) as -> by eauto. assert (p = ps) as -> by congruence.
      eexists. by eapply pathLen_on_grid.
    - by intros j q Hj.
    - unfold GetClosestSuperPallet. simpl in Hr, Hmin. rewrite Hr.
      destruct r as [i|].
      + destruct Hmin as [(p & Hp & He & _) _]. do 2 f_equal. eauto.
      + by destruct (Hmin s ps Hs0). }
  destruct (commit_Ok s pa0 ga moves ps ca cs Hs0 Hca0 Hcs0) as [d Hcommit].
  set (pa' := Pac.set_TargetPelletDist d
                (Pac.set_TargetY (Pellet.Y ps)
                   (Pac.set_TargetX (Pellet.X ps) pa0))) in *.
  set (gc := Game.set_Pellet
               (alter (Pellet.set_Targeted true) s (Game.Pellet ga)) ga) in *.
  set (moves1 := moves +:+ Sprintf_MOVE (Pac.Id pa0) (Pellet.X ps) (Pellet.Y ps))
    in *.
  set (g1 := Game.set_MyPacs (<[a := pa']> (Game.MyPacs gc)) gc).
  assert (Hplan : plan pa g moves = Ok (pa', gc, moves1)).
  { rewrite plan_idle by done. cbv zeta. fold pa0 ga. rewrite Hsearch.
    cbn [mbind result_bind]. exact Hcommit. }
  assert (Hloop : plan_loop [a] g moves = Ok (g1, moves1)).
  { cbn [plan_loop]. rewrite Ha. cbn [deref mbind result_bind].
    rewrite Hplan. done. }
  assert (Hpacs1 : Game.MyPacs g1 = <[a := pa']> (Game.MyPacs g)).
  { subst g1 gc. cbn [Game.MyPacs Game.set_MyPacs Game.set_Pellet].
    by rewrite Hpacs. }
  assert (Hpel1 : Game.Pellet g1
                  = alter (Pellet.set_Targeted true) s (Game.Pellet ga)) by done.
  assert (Hs1 : Game.Pellet g1 !! s = Some (Pellet.set_Targeted true ps)).
  { by rewrite Hpel1, list_lookup_alter_eq, Hs0. }
  assert (Hnone1 : ∀ p, p ∈ Game.Pellet g1 → ¬ eligible 10 p).
  { intros p [j Hj]%list_elem_of_lookup He. rewrite Hpel1 in Hj.
    rewrite list_lookup_alter in Hj. case_decide as Hd.
    - subst j. rewrite Hs0 in Hj. injection Hj as <-.
      destruct He as (_ & _ & Ht). discriminate.
    - destruct Hd. symmetry. eauto. }
  assert (Hev1 : evolves g g1).
  { eapply plan_loop_evolves. exact Hloop. }
  exists g1, moves1, pa', (Pellet.set_Targeted true ps).
  split_and!; try done.
  - change [a; b] with ([a] ++ [b]). rewrite plan_loop_app, Hloop. done.
  - rewrite Hpacs1. apply list_lookup_insert_eq. by eapply lookup_lt_Some.
  - rewrite Hpacs1. by rewrite list_lookup_insert_ne.
  - intros pac. unfold GetClosestSuperPallet. by apply closest_scan_none.
  - intros g2 moves2. cbn [plan_loop].
    assert (Hb1 : Game.MyPacs g1 !! b = Some pb)
      by (by rewrite Hpacs1, list_lookup_insert_ne).
    rewrite Hb1. cbn [deref mbind result_bind].
    destruct (plan pb g1 moves1) as [[[pb' gb] mb]| |] eqn:Epb; try done.
    cbn [mbind result_bind]. intros [= <- <-].
    cbn [Game.MyPacs Game.set_MyPacs].
    rewrite (plan_pacs _ _ _ _ _ _ Epb). split.
    + rewrite list_lookup_insert_ne by done.
      rewrite Hpacs1. apply list_lookup_insert_eq. by eapply lookup_lt_Some.
    + exists pb'. split.
      { apply list_lookup_insert_eq. by eapply lookup_lt_Some. }
      destruct (plan_idle_commits _ _ _ _ _ _ Hib Epb)
        as (r & q0 & q & Hq0 & Ht0 & Hq & _ & ->).
      apply plan_evolves in Epb as [Hevb _].
      destruct (Forall2_lookup_lr _ _ _ _ _ _ (ev_pellets _ _ Hevb) Hq0 Hq)
        as (Hqx & Hqy & _).
      intros Hc. assert (r = s); [|subst r].
      { eapply (NoDup_coords_lookup (Game.Pellet g1)); [|done..|].
        - by rewrite (evolves_coords _ _ Hev1).
        - unfold coords in *. simpl. by rewrite <- Hqx, <- Hqy. }
      rewrite Hs1 in Hq0. injection Hq0 as <-. discriminate.
Qed.

Lemma single_super_pellet_single_commit_witness :
  ∃ g1 moves1 pa' ps',
    plan_loop [0%nat] duo_game "" = Ok (g1, moves1) ∧
    plan_loop [0%nat; 1%nat] duo_game "" = plan_loop [1%nat] g1 moves1 ∧
    Game.MyPacs g1 !! 0%nat = Some pa' ∧
    (Pac.TargetX pa', Pac.TargetY pa') = coords (Pellet.mk 2 2 10 false false) ∧
    Game.Pellet g1 !! 0%nat = Some ps' ∧
    coords ps' = coords (Pellet.mk 2 2 10 false false) ∧
    Pellet.Targeted ps' = true ∧
    Game.MyPacs g1 !! 1%nat = Some duo_second ∧
    (∀ pac, GetClosestSuperPallet pac g1 = Ok None) ∧
    ∀ g2 moves2, plan_loop [1%nat] g1 moves1 = Ok (g2, moves2) →
      Game.MyPacs g2 !! 0%nat = Some pa' ∧
      ∃ pb', Game.MyPacs g2 !! 1%nat = Some pb' ∧
             (Pac.TargetX pb', Pac.TargetY pb')
             ≠ coords (Pellet.mk 2 2 10 false false).
Proof.
  apply (single_super_pellet_single_commit duo_game 0 1 duo_first duo_second
           0 (Pellet.mk 2 2 10 false false) ""
           (Cell.mk 0 0 false 0 0 0 None 0 [(0, 1); (1, 0)]%nat)
           (Cell.mk 2 2 false 0 0 0 None 0 [(2, 1); (1, 2)]%nat)).
  - lia.
  - reflexivity.
  - reflexivity.
  - split; reflexivity.
  - split; reflexivity.
  - intros o p Ho. vm_compute in Ho. discriminate Ho.
  - apply (bool_decide_unpack _). vm_compute. exact I.
  - reflexivity.
  - repeat split.
  - intros [|[|j]] q Hj (Hv & _ & _); simpl in Hj.
    + reflexivity.
    + injection Hj as <-. discriminate Hv.
    + discriminate Hj.
  - vm_compute. reflexivity.
  - vm_compute. reflexivity.
Defined.

(** The whole turn on that state: the first pac takes the super pellet, the
    second the regular one. *)
Example PlayTurn_on_duo :
  PlayTurn duo_game =
  Ok (Game.mk 3 3
        [Pac.mk 0 true 0 0 "" 0 0 2 2 0 0; Pac.mk 1 true 2 0 "" 0 0 0 1 0 0] []
        [Pellet.mk 2 2 10 false true; Pellet.mk 0 1 1 false true]
        ring3 0 0 0 0,
      "MOVE 0 2 2|MOVE 1 0 1|"%string).
Proof. vm_compute. reflexivity. Qed.

(** * Further properties of the registries, the planner and the search *)

(** ** Pellet upsert and lookup *)

Lemma list_find_same_coords x y (l l' : list Pellet.t) :
  coords <$> l' = coords <$> l →
  fst <$> list_find (λ p, Pellet.X p = x ∧ Pellet.Y p = y) l' =
  fst <$> list_find (λ p, Pellet.X p = x ∧ Pellet.Y p = y) l.
Proof.
  revert l'. induction l as [|p l IH]; intros [|p' l']; try done.
  intros [= Hx Hy Hl]. simpl. rewrite Hx, Hy. case_decide; [done|].
  specialize (IH l' Hl).
  destruct (list_find _ l) as [[i q]|], (list_find _ l') as [[i' q']|];
    simpl in *; congruence.
Qed.

Lemma AddPellet_found id x y value g :
  ∃ i p,
    GetPallet x y (AddPellet id x y value g) = Some i ∧
    Game.Pellet (AddPellet id x y value g) !! i = Some p ∧
    p = Pellet.mk x y value false
          (default false
             (Pellet.Targeted <$>
                (GetPallet x y g ≫= λ j, Game.Pellet g !! j))) ∧
    i = default (length (Game.Pellet g)) (GetPallet x y g).
Proof.
  unfold GetPallet. rewrite AddPellet_Pellet.
  destruct (list_find _ (Game.Pellet g)) as [[j q]|] eqn:E; simpl.
  - apply list_find_Some in E as (Hj & [Hx Hy] & Hlt).
    exists j, (Pellet.mk x y value false (Pellet.Targeted q)).
    rewrite Hj. simpl. split_and!; try done.
    + assert (Hf : list_find (λ p, Pellet.X p = x ∧ Pellet.Y p = y)
                     (<[j := Pellet.mk x y value false (Pellet.Targeted q)]>
                        (Game.Pellet g))
                   = Some (j, Pellet.mk x y value false (Pellet.Targeted q))).
      { apply list_find_Some. split; [|split; [done|]].
        - apply list_lookup_insert_eq. by eapply lookup_lt_Some.
        - intros k z Hk Hkj. rewrite list_lookup_insert_ne in Hk by lia. eauto. }
      by rewrite Hf.
    + apply list_lookup_insert_eq. by eapply lookup_lt_Some.
  - apply list_find_None in E.
    exists (length (Game.Pellet g)), (Pellet.mk x y value false false).
    split_and!; try done.
    + assert (Hf : list_find (λ p, Pellet.X p = x ∧ Pellet.Y p = y)
                     (Game.Pellet g ++ [Pellet.mk x y value false false])
                   = Some (length (Game.Pellet g),
                           Pellet.mk x y value false false)).
      { apply list_find_Some. split; [|split; [done|]].
        - by rewrite lookup_app_r, Nat.sub_diag.
        - intros k z Hk Hkj. rewrite lookup_app_l in Hk by done.
          eapply Forall_lookup_1 in E; [|exact Hk]. done. }
      by rewrite Hf.
    + by rewrite lookup_app_r, Nat.sub_diag.
Qed.

Lemma AddPellet_elsewhere id x y value g x' y' :
  (x', y') ≠ (x, y) →
  GetPallet x' y' (AddPellet id x y value g) = GetPallet x' y' g ∧
  ∀ j, GetPallet x' y' g = Some j →
       Game.Pellet (AddPellet id x y value g) !! j = Game.Pellet g !! j.
Proof.
  intros Hne. unfold GetPallet. rewrite AddPellet_Pellet.
  destruct (list_find (λ p, Pellet.X p = x ∧ Pellet.Y p = y) (Game.Pellet g))
    as [[i q]|] eqn:E.
  - apply list_find_Some in E as (Hi & [Hx Hy] & _). split.
    + apply list_find_same_coords. erewrite fmap_insert_same; [done..|].
      unfold coords. simpl. by rewrite Hx, Hy.
    + intros j Hj. apply fmap_Some in Hj as ([j' z] & Hj & ->).
      apply list_find_Some in Hj as (Hz & [Hx' Hy'] & _). simpl in *.
      rewrite list_lookup_insert_ne; [done|]. intros ->.
      assert (z = q) as -> by congruence. apply Hne. congruence.
  - split.
    + destruct (list_find (λ p, Pellet.X p = x' ∧ Pellet.Y p = y')
                  (Game.Pellet g)) as [[j z]|] eqn:E'.
      * by rewrite (list_find_app_l _ _ _ _ _ E').
      * rewrite list_find_app_r by done. simpl.
        rewrite decide_False; [done|]. intros [-> ->]. done.
    + intros j Hj. apply fmap_Some in Hj as ([j' z] & Hj & ->).
      apply list_find_Some in Hj as (Hz & _). simpl in *.
      by rewrite lookup_app_l by (by eapply lookup_lt_Some).
Qed.

(** X1: after [AddPellet] at (x, y), [GetPallet] at (x, y) finds an
    unconsumed pellet there with the value given, in the slot it had before
    or, for a new coordinate, in the new last slot; the number of pellets
    grows by one exactly for a new coordinate; and at every other coordinate
    [GetPallet] finds the same slot, holding the same pellet, as before. *)
Theorem AddPellet_then_GetPallet id x y value g :
  let g' := AddPellet id x y value g in
  (∃ i p, GetPallet x y g' = Some i ∧ Game.Pellet g' !! i = Some p ∧
          Pellet.X p = x ∧ Pellet.Y p = y ∧ Pellet.Value p = value ∧
          Pellet.Consumed p = false ∧
          i = default (length (Game.Pellet g)) (GetPallet x y g)) ∧
  length (Game.Pellet g') =
    (length (Game.Pellet g) +
     match GetPallet x y g with Some _ => 0 | None => 1 end)%nat ∧
  (∀ x' y', (x', y') ≠ (x, y) →
     GetPallet x' y' g' = GetPallet x' y' g ∧
     ∀ j, GetPallet x' y' g = Some j →
          Game.Pellet g' !! j = Game.Pellet g !! j).
Proof.
  cbv zeta. split_and!.
  - destruct (AddPellet_found id x y value g) as (i & p & Hi & Hp & -> & Hd).
    exists i. eexists. split_and!; done.
  - rewrite AddPellet_Pellet. unfold GetPallet.
    destruct (list_find _ _) as [[i q]|]; simpl.
    + rewrite length_insert. lia.
    + by rewrite length_app.
  - intros x' y'. apply AddPellet_elsewhere.
Qed.

(** ** The pellets a pass reports *)

Lemma addPellets_keeps_found x y lines : ∀ k g i p,
  GetPallet x y g = Some i → Game.Pellet g !! i = Some p →
  last_report x y lines = None →
  GetPallet x y (addPellets k lines g) = Some i ∧
  Game.Pellet (addPellets k lines g) !! i = Some p.
Proof.
  induction lines as [|l lines IH]; intros k g i p Hi Hp Hnone; [done|].
  unfold last_report in Hnone. rewrite filter_cons in Hnone.
  case_decide as Hl.
  { apply last_None in Hnone. discriminate. }
  cbn [addPellets].
  destruct (AddPellet_elsewhere k (pelletX l) (pelletY l) (pelletValue l) g x y)
    as [Hg Hsame].
  { intros [= -> ->]. by apply Hl. }
  apply IH; [by rewrite Hg|by rewrite (Hsame i Hi)|done].
Qed.

Lemma addPellets_last_report x y lines : ∀ k g l,
  last_report x y lines = Some l →
  ∃ i p, GetPallet x y (addPellets k lines g) = Some i ∧
         Game.Pellet (addPellets k lines g) !! i = Some p ∧
         coords p = (x, y) ∧ Pellet.Value p = pelletValue l ∧
         Pellet.Consumed p = false.
Proof.
  induction lines as [|l0 lines IH]; intros k g l Hl; [done|].
  cbn [addPellets].
  destruct (last_report x y lines) as [l'|] eqn:Erest.
  - apply IH. unfold last_report in *.
    rewrite filter_cons in Hl.
    case_decide; [|congruence]. rewrite last_cons, Erest in Hl. done.
  - unfold last_report in Hl. rewrite filter_cons in Hl.
    pose proof Erest as Hnil. unfold last_report in Hnil.
    apply last_None in Hnil. rewrite Hnil in Hl.
    case_decide as Hm; [|done]. injection Hl as <-. destruct Hm as [<- <-].
    destruct (AddPellet_found k (pelletX l0) (pelletY l0) (pelletValue l0) g)
      as (i & p & Hi & Hp & -> & _).
    destruct (addPellets_keeps_found _ _ lines (k + 1) _ i _ Hi Hp Erest)
      as [Hi' Hp'].
    eauto 10.
Qed.

Lemma elem_of_insert_inv {A} (l : list A) i x y :
  y ∈ <[i := x]> l → y = x ∨ y ∈ l.
Proof.
  intros (j & Hj)%list_elem_of_lookup.
  apply list_lookup_insert_Some in Hj as [(-> & -> & _)|[_ Hj]]; [by left|].
  right. by eapply list_elem_of_lookup_2.
Qed.

Lemma addPellets_unconsumed lines : ∀ k g (C : list (Z * Z)),
  (∀ p, p ∈ Game.Pellet g → Pellet.Consumed p = false → coords p ∈ C) →
  ∀ p, p ∈ Game.Pellet (addPellets k lines g) →
       Pellet.Consumed p = false →
       coords p ∈ C ++ ((λ l, (pelletX l, pelletY l)) <$> lines).
Proof.
  induction lines as [|l lines IH]; intros k g C HC p Hp Hc.
  { rewrite app_nil_r. by apply HC. }
  cbn [addPellets] in Hp. rewrite fmap_cons, cons_middle, app_assoc.
  revert p Hp Hc. apply IH. intros p Hp Hc. rewrite AddPellet_Pellet in Hp.
  apply elem_of_app.
  destruct (list_find _ _) as [[i q]|].
  - apply elem_of_insert_inv in Hp as [->|Hp]; [right|left; by apply HC].
    apply list_elem_of_singleton. done.
  - apply elem_of_app in Hp as [Hp|Hp%list_elem_of_singleton];
      [left; by apply HC|right; subst p].
    apply list_elem_of_singleton. done.
Qed.

(** X2: after the reading of a turn, every reported coordinate holds, in the
    slot [GetPallet] finds, an unconsumed pellet whose value is that of the
    last line reporting the coordinate; and every pellet the pass leaves
    unconsumed lies at a reported coordinate. *)
Theorem readTurn_reported_pellets input g :
  (∀ x y l, last_report x y (visiblePellets input) = Some l →
     ∃ i p, GetPallet x y (readTurn input g) = Some i ∧
            Game.Pellet (readTurn input g) !! i = Some p ∧
            coords p = (x, y) ∧ Pellet.Value p = pelletValue l ∧
            Pellet.Consumed p = false) ∧
  (∀ p, p ∈ Game.Pellet (readTurn input g) → Pellet.Consumed p = false →
        coords p ∈ reported input).
Proof.
  destruct (readTurn_start input g) as (g5 & -> & H5). split.
  - intros x y l Hl. by apply addPellets_last_report.
  - intros p Hp Hc.
    apply (addPellets_unconsumed (visiblePellets input) 0 g5 [] ); [|done..].
    intros q Hq Hqc. rewrite H5 in Hq. unfold markAllConsumed in Hq.
    cbn [Game.Pellet Game.set_Pellet] in Hq.
    apply list_elem_of_fmap in Hq as (q0 & -> & _). discriminate.
Qed.

(** ** Pac upsert and lookup *)

Lemma AddPac_as_side id mine x y typeId stl acd g :
  AddPac id mine x y typeId stl acd g =
  if decide (mine = 1)
  then Game.set_MyPacs (side mine (AddPac id mine x y typeId stl acd g)) g
  else Game.set_OpponentPacs (side mine (AddPac id mine x y typeId stl acd g)) g.
Proof. unfold AddPac, side. by destruct (decide (mine = 1)). Qed.

Lemma AddPac_found id mine x y typeId stl acd g :
  ∃ i pac,
    list_find (λ pac, Pac.Id pac = id)
              (side mine (AddPac id mine x y typeId stl acd g)) = Some (i, pac) ∧
    Pac.Id pac = id ∧ Pac.X pac = x ∧ Pac.Y pac = y ∧
    Pac.TypeId pac = typeId ∧ Pac.SpeedTurnsLeft pac = stl ∧
    Pac.AbilityCooldown pac = acd ∧
    i = default (length (side mine g))
          (fst <$> list_find (λ pac, Pac.Id pac = id) (side mine g)).
Proof.
  rewrite AddPac_side.
  destruct (list_find _ (side mine g)) as [[i pac0]|] eqn:E; simpl.
  - apply list_find_Some in E as (Hi & Hid & Hlt).
    exists i, (Pac.mk (Pac.Id pac0) (Pac.Mine pac0) x y typeId stl acd
                      (Pac.TargetX pac0) (Pac.TargetY pac0)
                      (Pac.TargetPelletId pac0) (Pac.TargetPelletDist pac0)).
    split; [|by split_and!].
    apply list_find_Some. split; [|split; [done|]].
    + apply list_lookup_insert_eq. by eapply lookup_lt_Some.
    + intros k z Hk Hki. rewrite list_lookup_insert_ne in Hk by lia. eauto.
  - apply list_find_None in E.
    exists (length (side mine g)),
           (Pac.mk id (bool_decide (mine = 1)) x y typeId stl acd x y 0 0).
    split; [|by split_and!].
    apply list_find_Some. split; [|split; [done|]].
    + by rewrite lookup_app_r, Nat.sub_diag.
    + intros k z Hk Hkl. rewrite lookup_app_l in Hk by done.
      eapply Forall_lookup_1 in E; [|exact Hk]. done.
Qed.

Lemma AddPac_other_ids id mine x y typeId stl acd g id' :
  id' ≠ id →
  list_find (λ pac, Pac.Id pac = id')
            (side mine (AddPac id mine x y typeId stl acd g)) =
  list_find (λ pac, Pac.Id pac = id') (side mine g).
Proof.
  intros Hne. rewrite AddPac_side.
  destruct (list_find (λ pac, Pac.Id pac = id) (side mine g))
    as [[i pac0]|] eqn:E.
  - apply list_find_Some in E as (Hi & Hid & _).
    destruct (list_find (λ pac, Pac.Id pac = id') (side mine g))
      as [[j z]|] eqn:E'.
    + apply list_find_Some in E' as (Hj & Hz & Hlt).
      assert (i ≠ j) by (intros ->; congruence).
      apply list_find_Some. split; [|split; [done|]].
      * by rewrite list_lookup_insert_ne.
      * intros k w Hk Hkj.
        apply list_lookup_insert_Some in Hk as [(-> & <- & _)|[_ Hk]];
          [simpl; congruence|eauto].
    + apply list_find_None in E'. apply list_find_None.
      apply Forall_insert; [done|]. simpl. congruence.
  - destruct (list_find (λ pac, Pac.Id pac = id') (side mine g))
      as [[j z]|] eqn:E'.
    + by apply list_find_app_l.
    + rewrite list_find_app_r by done. simpl. rewrite decide_False; [done|].
      simpl. congruence.
Qed.

Lemma AddPac_twice id mine x y typeId stl acd g :
  let g' := AddPac id mine x y typeId stl acd g in
  AddPac id mine x y typeId stl acd g' = g'.
Proof.
  cbv zeta. set (g' := AddPac id mine x y typeId stl acd g).
  assert (Hs : side mine (AddPac id mine x y typeId stl acd g') = side mine g').
  { rewrite AddPac_side.
    destruct (AddPac_found id mine x y typeId stl acd g)
      as (i & pac & Hf & Hid & Hx & Hy & Ht & Hs & Ha & _).
    fold g' in Hf. rewrite Hf. apply list_find_Some in Hf as (Hi & _).
    apply list_insert_id. rewrite Hi. f_equal.
    destruct pac. simpl in *. congruence. }
  rewrite (AddPac_as_side id mine x y typeId stl acd g'), Hs.
  clearbody g'. unfold side. by destruct g', (decide (mine = 1)).
Qed.

Lemma AddPac_NoDup id mine x y typeId stl acd g :
  NoDup (Pac.Id <$> side mine g) →
  NoDup (Pac.Id <$> side mine (AddPac id mine x y typeId stl acd g)).
Proof.
  intros Hnd. rewrite AddPac_side.
  destruct (list_find _ (side mine g)) as [[i pac0]|] eqn:E.
  - apply list_find_Some in E as (Hi & _). by erewrite fmap_insert_same.
  - apply list_find_None in E. rewrite fmap_app. apply NoDup_app.
    split; [done|]. split; [|apply NoDup_singleton].
    intros c (p & -> & Hp)%list_elem_of_fmap Hc%list_elem_of_singleton.
    rewrite Forall_forall in E. by apply (E p).
Qed.

(** X3: after [AddPac] the first pac with the id on the side given carries
    the position and attributes of the call, in the slot the id had before
    or, for a new id, in the new last slot; the search for any other id
    finds what it found before; a second identical call changes nothing;
    and ids that were distinct on the side stay distinct. *)
Theorem AddPac_then_find id mine x y typeId stl acd g :
  let g' := AddPac id mine x y typeId stl acd g in
  (∃ i pac,
     list_find (λ pac, Pac.Id pac = id) (side mine g') = Some (i, pac) ∧
     Pac.Id pac = id ∧ Pac.X pac = x ∧ Pac.Y pac = y ∧
     Pac.TypeId pac = typeId ∧ Pac.SpeedTurnsLeft pac = stl ∧
     Pac.AbilityCooldown pac = acd ∧
     i = default (length (side mine g))
           (fst <$> list_find (λ pac, Pac.Id pac = id) (side mine g))) ∧
  (∀ id', id' ≠ id →
     list_find (λ pac, Pac.Id pac = id') (side mine g') =
     list_find (λ pac, Pac.Id pac = id') (side mine g)) ∧
  AddPac id mine x y typeId stl acd g' = g' ∧
  (NoDup (Pac.Id <$> side mine g) → NoDup (Pac.Id <$> side mine g')).
Proof.
  cbv zeta. split_and!.
  - apply AddPac_found.
  - intros id'. apply AddPac_other_ids.
  - apply AddPac_twice.
  - apply AddPac_NoDup.
Qed.

(** ** What a turn does to the pellets and leaves of the game *)

Section pellet_relation.
Context (R : Pellet.t → Pellet.t → Prop) `{!Reflexive R, !Transitive R}.
Hypothesis R_consumed : ∀ p, R p (Pellet.set_Consumed true p).
Hypothesis R_value : ∀ p, R p (Pellet.set_Value 0 p).
Hypothesis R_targeted : ∀ p, R p (Pellet.set_Targeted true p).

Lemma RemovePallet_related pac g :
  Forall2 R (Game.Pellet g) (Game.Pellet (RemovePallet pac g)).
Proof.
  unfold RemovePallet. destruct (GetPallet _ _ g); [|done]. simpl.
  apply Forall2_alter_self; [done|]. auto.
Qed.

Lemma RemovePallet_fold_related pacs : ∀ g,
  Forall2 R (Game.Pellet g)
            (Game.Pellet (foldl (λ g pac, RemovePallet pac g) g pacs)).
Proof.
  induction pacs as [|pac pacs IH]; intros g; simpl; [done|].
  etrans; [apply (RemovePallet_related pac)|apply IH].
Qed.

Lemma reconcile_step_fold_related sl : ∀ g,
  Forall2 R (Game.Pellet g) (Game.Pellet (foldl reconcile_step g sl)).
Proof.
  induction sl as [|i sl IH]; intros g; simpl; [done|].
  etrans; [|apply IH]. unfold reconcile_step.
  destruct (Game.MyPacs g !! i) as [pac|]; [|done]. simpl.
  apply RemovePallet_related.
Qed.

Lemma reconcile_related g :
  Forall2 R (Game.Pellet g)
            (Game.Pellet (reconcile_opponents (reconcile_mine g))).
Proof.
  etrans; [apply reconcile_step_fold_related|].
  apply RemovePallet_fold_related.
Qed.

Lemma plan_related pac g moves pac' g' moves' :
  plan pac g moves = Ok (pac', g', moves') →
  Forall2 R (Game.Pellet g) (Game.Pellet g').
Proof.
  assert (Hc : ∀ i pac g moves pac' g' moves',
            commit i pac g moves = Ok (pac', g', moves') →
            Forall2 R (Game.Pellet g) (Game.Pellet g')).
  { clear pac g moves pac' g' moves'.
    intros i pac g moves pac' g' moves'. unfold commit.
    destruct (Game.Pellet g !! i) as [p|]; [|done].
    cbn [deref mbind result_bind]. destruct (AStar _ _ _ _ _); try done.
    cbn [mbind result_bind]. intros [= <- <- <-]. simpl.
    apply Forall2_alter_self; [done|]. auto. }
  unfold plan. case_decide; [|by intros [= <- <- <-]]. cbv zeta.
  fold (arrive pac g).
  assert (Ha : Forall2 R (Game.Pellet g) (Game.Pellet (arrive pac g).2)).
  { unfold arrive. destruct (GetPallet _ _ g); [|done]. simpl.
    apply Forall2_alter_self; [done|]. auto. }
  destruct (GetClosestSuperPallet _ _) as [[i|]| |]; try done;
    cbn [mbind result_bind].
  { intros ?%Hc. by etrans. }
  destruct (GetClosestRegularPallet _ _) as [[i|]| |]; try done;
    cbn [mbind result_bind].
  intros ?%Hc. by etrans.
Qed.

Lemma plan_loop_related slots : ∀ g moves g' moves',
  plan_loop slots g moves = Ok (g', moves') →
  Forall2 R (Game.Pellet g) (Game.Pellet g').
Proof.
  induction slots as [|i slots IH]; intros g moves g' moves'; simpl.
  { by intros [= <- <-]. }
  destruct (Game.MyPacs g !! i) as [pac|]; [|done].
  cbn [deref mbind result_bind].
  destruct (plan pac g moves) as [[[pac1 g1] moves1]| |] eqn:Ep; try done.
  cbn [mbind result_bind]. intros H%IH.
  etrans; [by eapply plan_related|exact H].
Qed.

Lemma PlayTurn_related g g' moves :
  PlayTurn g = Ok (g', moves) →
  Forall2 R (Game.Pellet g) (Game.Pellet g').
Proof.
  unfold PlayTurn. cbv zeta. intros H%plan_loop_related.
  etrans; [apply reconcile_related|exact H].
Qed.
End pellet_relation.

#[local] Instance pellet_turned_refl : Reflexive pellet_turned.
Proof. intros p. unfold pellet_turned. auto. Qed.

#[local] Instance pellet_turned_trans : Transitive pellet_turned.
Proof.
  intros a b c (Hc1 & Hv1 & ? & ?) (Hc2 & Hv2 & ? & ?).
  unfold pellet_turned. split_and!; [congruence| |auto|auto].
  destruct Hv2 as [-> | ->]; auto.
Qed.

Lemma RemovePallet_scalars pac g : scalars (RemovePallet pac g) = scalars g.
Proof. unfold RemovePallet. by destruct (GetPallet _ _ g). Qed.

Lemma reconcile_scalars g :
  scalars (reconcile_opponents (reconcile_mine g)) = scalars g.
Proof.
  assert (H1 : ∀ pacs g1,
            scalars (foldl (λ g pac, RemovePallet pac g) g1 pacs) = scalars g1).
  { induction pacs as [|pac pacs IH]; intros g1; simpl; [done|].
    by rewrite IH, RemovePallet_scalars. }
  unfold reconcile_opponents. rewrite H1. unfold reconcile_mine.
  generalize (seq 0 (length (Game.MyPacs g))) as sl.
  intros sl. revert g. induction sl as [|i sl IH]; intros g; simpl; [done|].
  rewrite IH. unfold reconcile_step.
  destruct (Game.MyPacs g !! i) as [pac|]; [|done].
  apply (RemovePallet_scalars pac g).
Qed.

Lemma plan_scalars pac g moves pac' g' moves' :
  plan pac g moves = Ok (pac', g', moves') → scalars g' = scalars g.
Proof.
  assert (Hc : ∀ i pac g moves pac' g' moves',
            commit i pac g moves = Ok (pac', g', moves') →
            scalars g' = scalars g).
  { clear. intros i pac g moves pac' g' moves'. unfold commit.
    destruct (Game.Pellet g !! i) as [p|]; [|done].
    cbn [deref mbind result_bind]. destruct (AStar _ _ _ _ _); try done.
    cbn [mbind result_bind]. by intros [= <- <- <-]. }
  unfold plan. case_decide; [|by intros [= <- <- <-]]. cbv zeta.
  fold (arrive pac g).
  assert (Ha : scalars (arrive pac g).2 = scalars g).
  { unfold arrive. by destruct (GetPallet _ _ g). }
  destruct (GetClosestSuperPallet _ _) as [[i|]| |]; try done;
    cbn [mbind result_bind].
  { intros ?%Hc. congruence. }
  destruct (GetClosestRegularPallet _ _) as [[i|]| |]; try done;
    cbn [mbind result_bind].
  intros ?%Hc. congruence.
Qed.

Lemma plan_loop_scalars slots : ∀ g moves g' moves',
  plan_loop slots g moves = Ok (g', moves') → scalars g' = scalars g.
Proof.
  induction slots as [|i slots IH]; intros g moves g' moves'; simpl.
  { by intros [= <- <-]. }
  destruct (Game.MyPacs g !! i) as [pac|]; [|done].
  cbn [deref mbind result_bind].
  destruct (plan pac g moves) as [[[pac1 g1] moves1]| |] eqn:Ep; try done.
  cbn [mbind result_bind]. intros H%IH. rewrite H.
  etrans; [|by eapply plan_scalars]. done.
Qed.

Lemma PlayTurn_scalars g g' moves :
  PlayTurn g = Ok (g', moves) → scalars g' = scalars g.
Proof.
  unfold PlayTurn. cbv zeta. intros ->%plan_loop_scalars.
  apply reconcile_scalars.
Qed.

(** X4: a turn that returns has left the grid, the opponents, the
    dimensions, scores and counts as they were; every owned pac is in its
    slot with only its target fields possibly changed; and every pellet is
    in its slot at its coordinate, its value kept or zeroed, its consumed
    and targeted flags set if they were set.  No pac or pellet is added or
    removed. *)
Theorem PlayTurn_frame g g' moves :
  PlayTurn g = Ok (g', moves) →
  Game.Grid g' = Game.Grid g ∧
  Game.OpponentPacs g' = Game.OpponentPacs g ∧
  scalars g' = scalars g ∧
  Forall2 pac_moved (Game.MyPacs g) (Game.MyPacs g') ∧
  Forall2 pellet_turned (Game.Pellet g) (Game.Pellet g').
Proof.
  intros H. destruct (PlayTurn_evolves _ _ _ H) as [Hg Ho Hm _].
  split_and!; try done.
  - by eapply PlayTurn_scalars.
  - apply (PlayTurn_related pellet_turned) in H; [done|..];
      intros p; unfold pellet_turned; simpl; auto.
Qed.

Lemma PlayTurn_frame_witness :
  Forall2 pellet_turned (Game.Pellet duo_game)
    [Pellet.mk 2 2 10 false true; Pellet.mk 0 1 1 false true].
Proof.
  apply (PlayTurn_frame duo_game
           (Game.mk 3 3
              [Pac.mk 0 true 0 0 "" 0 0 2 2 0 0;
               Pac.mk 1 true 2 0 "" 0 0 0 1 0 0] []
              [Pellet.mk 2 2 10 false true; Pellet.mk 0 1 1 false true]
              ring3 0 0 0 0)
           "MOVE 0 2 2|MOVE 1 0 1|").
  vm_compute. reflexivity.
Defined.

(** ** Consumption under the pacs *)

Lemma RemovePallet_fold_eats pacs : ∀ g pac,
  pac ∈ pacs →
  eaten_under pac (foldl (λ g pac, RemovePallet pac g) g pacs).
Proof.
  induction pacs as [|q pacs IH]; intros g pac Hin.
  { by apply elem_of_nil in Hin. }
  simpl. apply elem_of_cons in Hin as [->|Hin]; [|by apply IH].
  eapply eaten_under_evolves; [|done|done|apply RemovePallet_eaten].
  apply foldl_evolves. intros g' pac'. apply RemovePallet_evolves.
Qed.

(** X5: when a turn returns, the pellet [GetPallet] finds under any pac,
    owned or opposing, is marked consumed. *)
Theorem PlayTurn_eats_under_every_pac g g' moves pac :
  PlayTurn g = Ok (g', moves) →
  pac ∈ Game.MyPacs g' ∨ pac ∈ Game.OpponentPacs g' →
  eaten_under pac g'.
Proof.
  unfold PlayTurn. cbv zeta. intros H Hin.
  pose proof (plan_loop_evolves _ _ _ _ _ H) as Hev.
  destruct Hin as [Hin|Hin].
  - apply list_elem_of_lookup in Hin as [i Hi].
    destruct (Forall2_lookup_r _ _ _ _ _ (ev_mine _ _ Hev) Hi)
      as (pac0 & Hi0 & (_ & _ & Hx & Hy & _)).
    eapply eaten_under_evolves; [exact Hev|done|done|].
    by eapply reconcile_eats_under.
  - rewrite (ev_opponents _ _ Hev) in Hin.
    eapply eaten_under_evolves; [exact Hev|done|done|].
    rewrite (ev_opponents _ _ (reconcile_opponents_evolves _)) in Hin.
    by apply RemovePallet_fold_eats.
Qed.

Lemma PlayTurn_eats_under_every_pac_witness :
  eaten_under (Pac.mk 0 false 2 0 "" 0 0 2 0 0 0) crowd_after.
Proof.
  apply (PlayTurn_eats_under_every_pac crowd_game crowd_after "MOVE 0 2 2|").
  - vm_compute. reflexivity.
  - right. vm_compute. repeat constructor.
Defined.

(** ** The line a turn prints *)

Lemma commit_move i pac g moves pac' g' moves' :
  commit i pac g moves = Ok (pac', g', moves') →
  Pac.Id pac' = Pac.Id pac ∧
  moves' = moves +:+
           Sprintf_MOVE (Pac.Id pac') (Pac.TargetX pac') (Pac.TargetY pac').
Proof.
  unfold commit. destruct (Game.Pellet g !! i) as [p|]; [|done].
  cbn [deref mbind result_bind]. destruct (AStar _ _ _ _ _); try done.
  cbn [mbind result_bind]. by intros [= <- <- <-].
Qed.

Lemma plan_move pac g moves pac' g' moves' :
  plan pac g moves = Ok (pac', g', moves') →
  moves' = moves +:+
           Sprintf_MOVE (Pac.Id pac') (Pac.TargetX pac') (Pac.TargetY pac').
Proof.
  unfold plan. case_decide; [|by intros [= <- <- <-]]. cbv zeta.
  fold (arrive pac g).
  destruct (GetClosestSuperPallet _ _) as [[i|]| |]; try done;
    cbn [mbind result_bind].
  { by intros [_ ?]%commit_move. }
  destruct (GetClosestRegularPallet _ _) as [[i|]| |]; try done;
    cbn [mbind result_bind].
  by intros [_ ?]%commit_move.
Qed.

Lemma plan_loop_moves slots : ∀ g moves g' moves',
  NoDup slots →
  plan_loop slots g moves = Ok (g', moves') →
  moves' =
  foldl (λ moves i, moves +:+ moves_of (option_list (Game.MyPacs g' !! i)))
        moves slots.
Proof.
  induction slots as [|i slots IH]; intros g moves g' moves' Hnd; simpl.
  { by intros [= <- <-]. }
  apply NoDup_cons in Hnd as [Hi Hnd].
  destruct (Game.MyPacs g !! i) as [pac|] eqn:E; [|done].
  cbn [deref mbind result_bind].
  destruct (plan pac g moves) as [[[pac1 g1] moves1]| |] eqn:Ep; try done.
  cbn [mbind result_bind]. intros H.
  rewrite (IH _ _ _ _ Hnd H). f_equal.
  rewrite (plan_loop_other _ i _ _ _ _ H Hi).
  cbn [Game.MyPacs Game.set_MyPacs].
  rewrite list_lookup_insert_eq
    by (rewrite (plan_pacs _ _ _ _ _ _ Ep); by eapply lookup_lt_Some).
  by rewrite (plan_move _ _ _ _ _ _ Ep).
Qed.

Lemma foldl_slots_moves (pre pacs : list Pac.t) : ∀ moves,
  foldl (λ moves i, moves +:+ moves_of (option_list ((pre ++ pacs) !! i)))
        moves (seq (length pre) (length pacs)) =
  foldl (λ moves pac,
           moves +:+ Sprintf_MOVE (Pac.Id pac) (Pac.TargetX pac) (Pac.TargetY pac))
        moves pacs.
Proof.
  revert pre. induction pacs as [|pac pacs IH]; intros pre moves; [done|].
  simpl. rewrite lookup_app_r, Nat.sub_diag by done. simpl.
  specialize (IH (pre ++ [pac])). rewrite <- app_assoc in IH. simpl in IH.
  replace (S (length pre)) with (length (pre ++ [pac]))
    by (rewrite length_app; simpl; lia).
  apply IH.
Qed.

(** X6: the line a returning turn prints is the concatenation, in slot
    order, of one command [MOVE id x y|] per owned pac, where (x, y) is the
    target the pac has when the turn is over. *)
Theorem PlayTurn_prints_targets g g' moves :
  PlayTurn g = Ok (g', moves) →
  moves = moves_of (Game.MyPacs g').
Proof.
  intros H. pose proof (PlayTurn_evolves _ _ _ H) as Hev.
  revert H. unfold PlayTurn. cbv zeta. intros H.
  apply plan_loop_moves in H; [|apply NoDup_seq]. rewrite H.
  assert (Hlen : length (Game.MyPacs (reconcile_opponents (reconcile_mine g)))
                 = length (Game.MyPacs g')).
  { rewrite reconcile_opponents_pacs.
    rewrite <- (Forall2_length _ _ _ (ev_mine _ _ (reconcile_mine_evolves g))).
    apply (Forall2_length _ _ _ (ev_mine _ _ Hev)). }
  rewrite Hlen. apply (foldl_slots_moves [] (Game.MyPacs g') "").
Qed.

Lemma PlayTurn_prints_targets_witness :
  "MOVE 0 2 2|"%string = moves_of (Game.MyPacs crowd_after).
Proof.
  apply (PlayTurn_prints_targets crowd_game crowd_after "MOVE 0 2 2|").
  vm_compute. reflexivity.
Defined.

(** ** A pac under way *)

Lemma GetPallet_Some_coords x y g o p :
  GetPallet x y g = Some o → Game.Pellet g !! o = Some p → coords p = (x, y).
Proof.
  unfold GetPallet. intros ([o' q] & Hf & ->)%fmap_Some Hp.
  apply list_find_Some in Hf as (Hq & [Hx Hy] & _). simpl in *.
  assert (q = p) as -> by congruence. unfold coords. by rewrite Hx, Hy.
Qed.

Lemma RemovePallet_keeps_live x y o q g :
  (Pac.X q, Pac.Y q) ≠ (x, y) →
  live_at x y o g → live_at x y o (RemovePallet q g).
Proof.
  intros Hne [Ho (p & Hp & Hc)]. split.
  { by rewrite (GetPallet_evolves _ _ _ _ (RemovePallet_evolves q g)). }
  exists p. split; [|done]. unfold RemovePallet.
  destruct (GetPallet (Pac.X q) (Pac.Y q) g) as [o'|] eqn:Eo; [|done].
  cbn [Game.Pellet Game.set_Pellet].
  rewrite list_lookup_alter_ne; [done|]. intros ->.
  pose proof (GetPallet_Some_coords _ _ _ _ _ Eo Hp).
  pose proof (GetPallet_Some_coords _ _ _ _ _ Ho Hp). congruence.
Qed.

Lemma live_not_stale pac o g :
  live_at (Pac.TargetX pac) (Pac.TargetY pac) o g → ¬ stale pac g.
Proof.
  intros [Ho (p & Hp & Hc)]. unfold stale. rewrite Ho. simpl. rewrite Hp.
  congruence.
Qed.

Lemma reconcile_fold_keeps_live g0 i pac o slots : ∀ g,
  evolves g0 g →
  i ∉ slots →
  (∀ j pj, j ∈ slots → Game.MyPacs g0 !! j = Some pj →
           (Pac.X pj, Pac.Y pj) ≠ (Pac.TargetX pac, Pac.TargetY pac)) →
  live_at (Pac.TargetX pac) (Pac.TargetY pac) o g →
  evolves g0 (foldl reconcile_step g slots) ∧
  live_at (Pac.TargetX pac) (Pac.TargetY pac) o (foldl reconcile_step g slots).
Proof.
  induction slots as [|j slots IH]; intros g Hev Hi Hpos Hlive; [done|].
  apply not_elem_of_cons in Hi as [Hij Hi]. simpl. apply IH; [|done| |].
  - etrans; [exact Hev|apply reconcile_step_evolves].
  - intros j' pj' Hj'. apply Hpos. by right.
  - unfold reconcile_step. destruct (Game.MyPacs g !! j) as [pj|] eqn:Ej;
      [|done].
    destruct (Forall2_lookup_r _ _ _ _ _ (ev_mine _ _ Hev) Ej)
      as (pj0 & Hj0 & (_ & _ & Hx & Hy & _)).
    assert (Hl : live_at (Pac.TargetX pac) (Pac.TargetY pac) o
                   (RemovePallet pj g)).
    { apply RemovePallet_keeps_live; [|done]. rewrite Hx, Hy.
      apply (Hpos j pj0); [by left|done]. }
    exact Hl.
Qed.

Lemma plan_loop_keeps_en_route i pac slots : ∀ g moves g' moves',
  (Pac.X pac, Pac.Y pac) ≠ (Pac.TargetX pac, Pac.TargetY pac) →
  Game.MyPacs g !! i = Some pac →
  plan_loop slots g moves = Ok (g', moves') →
  Game.MyPacs g' !! i = Some pac.
Proof.
  induction slots as [|j slots IH]; intros g moves g' moves' Hne Hi; simpl.
  { by intros [= <- <-]. }
  destruct (Game.MyPacs g !! j) as [pj|] eqn:Ej; [|done].
  cbn [deref mbind result_bind].
  destruct (plan pj g moves) as [[[pj1 g1] moves1]| |] eqn:Ep; try done.
  cbn [mbind result_bind]. apply IH; [done|].
  cbn [Game.MyPacs Game.set_MyPacs]. rewrite (plan_pacs _ _ _ _ _ _ Ep).
  destruct (decide (j = i)) as [->|Hji].
  - assert (pj = pac) as -> by congruence.
    rewrite list_lookup_insert_eq by (by eapply lookup_lt_Some).
    revert Ep. unfold plan. rewrite decide_False; [by intros [= <- _ _]|].
    intros [? ?]. apply Hne. congruence.
  - by rewrite list_lookup_insert_ne.
Qed.

(** X7: an owned pac that is not on its target, whose target pellet is
    there and unconsumed, and on whose target coordinate no owned pac of an
    earlier slot stands, comes out of a returning turn exactly as it went
    in: same target, same cached distance. *)
Theorem en_route_pac_keeps_target g g' moves i pac o :
  Game.MyPacs g !! i = Some pac →
  (Pac.X pac, Pac.Y pac) ≠ (Pac.TargetX pac, Pac.TargetY pac) →
  live_at (Pac.TargetX pac) (Pac.TargetY pac) o g →
  (∀ j pj, (j < i)%nat → Game.MyPacs g !! j = Some pj →
           (Pac.X pj, Pac.Y pj) ≠ (Pac.TargetX pac, Pac.TargetY pac)) →
  PlayTurn g = Ok (g', moves) →
  Game.MyPacs g' !! i = Some pac.
Proof.
  intros Hi Hne Hlive Hpos. unfold PlayTurn. cbv zeta.
  apply plan_loop_keeps_en_route; [done|].
  rewrite reconcile_opponents_pacs. unfold reconcile_mine.
  pose proof (lookup_lt_Some _ _ _ Hi) as Hlt.
  replace (length (Game.MyPacs g))
    with (i + S (length (Game.MyPacs g) - S i))%nat by lia.
  rewrite seq_app, foldl_app. cbn [seq foldl]. simpl.
  rewrite reconcile_fold_other by (rewrite elem_of_seq; lia).
  destruct (reconcile_fold_keeps_live g i pac o (seq 0 i) g) as [Hev Hl];
    [done|rewrite elem_of_seq; lia| |done|].
  { intros j pj Hj. apply Hpos. apply elem_of_seq in Hj. lia. }
  set (g1 := foldl reconcile_step g (seq 0 i)) in *.
  assert (Hi1 : Game.MyPacs g1 !! i = Some pac).
  { subst g1. rewrite reconcile_fold_other; [done|]. rewrite elem_of_seq. lia. }
  rewrite reconcile_step_lookup, decide_True, Hi1 by done. simpl. f_equal.
  apply CheckTargetEaten_live. eapply live_not_stale.
  by apply RemovePallet_keeps_live.
Qed.

Lemma en_route_pac_keeps_target_witness :
  Game.MyPacs pass1 !! 0%nat = Some (Pac.mk 0 true 0 0 "" 0 0 2 0 0 0).
Proof.
  apply (en_route_pac_keeps_target pass1 pass1 "MOVE 0 2 0|" 0
           (Pac.mk 0 true 0 0 "" 0 0 2 0 0 0) 0).
  - reflexivity.
  - simpl. intros H. discriminate H.
  - split; [reflexivity|]. exists (Pellet.mk 2 0 10 false true).
    split; reflexivity.
  - intros j pj Hj. lia.
  - vm_compute. reflexivity.
Defined.

(** ** No pellet is committed to twice in a turn *)

Lemma CheckTargetEaten_cases pac g :
  CheckTargetEaten pac g = pac ∨ CheckTargetEaten pac g = clear_target pac.
Proof.
  unfold CheckTargetEaten. destruct (_ ≫= _) as [p|]; [|by right].
  destruct (Pellet.Consumed p); [by right|by left].
Qed.

Lemma reconcile_fold_slot i pac slots : ∀ g,
  Game.MyPacs g !! i = Some pac ∨ Game.MyPacs g !! i = Some (clear_target pac) →
  Game.MyPacs (foldl reconcile_step g slots) !! i = Some pac ∨
  Game.MyPacs (foldl reconcile_step g slots) !! i = Some (clear_target pac).
Proof.
  induction slots as [|j slots IH]; intros g Hi; [done|].
  simpl. apply IH. rewrite reconcile_step_lookup. case_decide; [|done].
  destruct Hi as [-> | ->]; simpl.
  - destruct (CheckTargetEaten_cases pac (RemovePallet pac g)) as [-> | ->];
      auto.
  - destruct (CheckTargetEaten_cases (clear_target pac)
                (RemovePallet (clear_target pac) g)) as [-> | ->]; auto.
Qed.

(** A pac that is on its target, or whose target is stale, when the turn
    starts is on its target when the move loop starts. *)
Lemma reconcile_idle g i pac :
  Game.MyPacs g !! i = Some pac →
  idle pac ∨ stale pac g →
  ∃ pac1, Game.MyPacs (reconcile_opponents (reconcile_mine g)) !! i = Some pac1 ∧
          idle pac1.
Proof.
  intros Hi Hor. rewrite reconcile_opponents_pacs. unfold reconcile_mine.
  destruct Hor as [Hidle|Hst].
  - destruct (reconcile_fold_slot i pac (seq 0 (length (Game.MyPacs g))) g)
      as [H|H]; [by left|..]; rewrite H; eexists; split; try done.
  - exists (clear_target pac). split; [|done].
    apply reconcile_fold_clears; [apply NoDup_seq| |done..].
    apply elem_of_seq. apply lookup_lt_Some in Hi. lia.
Qed.

Lemma plan_step_state j pj g moves pj1 g1 moves1 :
  Game.MyPacs g !! j = Some pj →
  plan pj g moves = Ok (pj1, g1, moves1) →
  plan_loop [j] g moves =
    Ok (Game.set_MyPacs (<[j := pj1]> (Game.MyPacs g1)) g1, moves1) ∧
  Game.MyPacs (Game.set_MyPacs (<[j := pj1]> (Game.MyPacs g1)) g1)
    = <[j := pj1]> (Game.MyPacs g).
Proof.
  intros Hj Hp. cbn [plan_loop]. rewrite Hj. cbn [deref mbind result_bind].
  rewrite Hp. cbn [mbind result_bind Game.MyPacs Game.set_MyPacs].
  by rewrite (plan_pacs _ _ _ _ _ _ Hp).
Qed.

Lemma plan_loop_avoids_flagged slots : ∀ g moves g' moves' b pb r q,
  NoDup slots → b ∈ slots →
  NoDup (coords <$> Game.Pellet g) →
  Game.MyPacs g !! b = Some pb → idle pb →
  Game.Pellet g !! r = Some q → Pellet.Targeted q = true →
  plan_loop slots g moves = Ok (g', moves') →
  ∃ pb', Game.MyPacs g' !! b = Some pb' ∧
         (Pac.TargetX pb', Pac.TargetY pb') ≠ coords q.
Proof.
  induction slots as [|j slots IH];
    intros g moves g' moves' b pb r q Hnd Hb Hco Hpb Hidle Hr Ht.
  { by apply elem_of_nil in Hb. }
  apply NoDup_cons in Hnd as [Hj Hnd]. cbn [plan_loop].
  destruct (Game.MyPacs g !! j) as [pj|] eqn:Ej; [|done].
  cbn [deref mbind result_bind].
  destruct (plan pj g moves) as [[[pj1 g1] moves1]| |] eqn:Ep; try done.
  cbn [mbind result_bind]. intros Hloop.
  destruct (plan_step_state _ _ _ _ _ _ _ Ej Ep) as [Hstep Hpacs].
  pose proof (plan_loop_evolves _ _ _ _ _ Hstep) as Hev.
  set (g2 := Game.set_MyPacs (<[j := pj1]> (Game.MyPacs g1)) g1) in *.
  destruct (decide (j = b)) as [->|Hjb].
  - assert (pj = pb) as -> by congruence. exists pj1. split.
    + rewrite (plan_loop_other _ b _ _ _ _ Hloop Hj), Hpacs.
      apply list_lookup_insert_eq. by eapply lookup_lt_Some.
    + destruct (plan_idle_commits _ _ _ _ _ _ Hidle Ep)
        as (r' & q0 & q' & Hq0 & Ht0 & Hq' & _ & ->).
      destruct (Forall2_lookup_lr _ _ _ _ _ _
                  (ev_pellets _ _ (proj1 (plan_evolves _ _ _ _ _ _ Ep)))
                  Hq0 Hq') as (Hx & Hy & _).
      intros Hc. assert (r' = r); [|subst r'; congruence].
      eapply (NoDup_coords_lookup (Game.Pellet g)); [done..|].
      rewrite <- Hc. unfold coords. by rewrite Hx, Hy.
  - apply elem_of_cons in Hb as [?|Hb]; [congruence|].
    destruct (Forall2_lookup_l _ _ _ _ _ (ev_pellets _ _ Hev) Hr)
      as (q1 & Hr1 & Hx & Hy & _ & Ht1).
    destruct (IH g2 moves1 g' moves' b pb r q1) as (pb' & Hb' & Hne);
      try done.
    + by rewrite (evolves_coords _ _ Hev).
    + rewrite Hpacs. by rewrite list_lookup_insert_ne.
    + auto.
    + exists pb'. split; [done|]. unfold coords in *. by rewrite <- Hx, <- Hy.
Qed.

Lemma plan_loop_distinct_targets slots : ∀ g moves g' moves' a b pa pb,
  NoDup slots → a ∈ slots → b ∈ slots → a ≠ b →
  NoDup (coords <$> Game.Pellet g) →
  Game.MyPacs g !! a = Some pa → Game.MyPacs g !! b = Some pb →
  idle pa → idle pb →
  plan_loop slots g moves = Ok (g', moves') →
  ∃ pa' pb', Game.MyPacs g' !! a = Some pa' ∧ Game.MyPacs g' !! b = Some pb' ∧
             (Pac.TargetX pa', Pac.TargetY pa')
             ≠ (Pac.TargetX pb', Pac.TargetY pb').
Proof.
  induction slots as [|j slots IH];
    intros g moves g' moves' a b pa pb Hnd Ha Hb Hab Hco Hpa Hpb Hia Hib.
  { by apply elem_of_nil in Ha. }
  pose proof Hnd as Hnd0. apply NoDup_cons in Hnd as [Hj Hnd].
  cbn [plan_loop].
  destruct (Game.MyPacs g !! j) as [pj|] eqn:Ej; [|done].
  cbn [deref mbind result_bind].
  destruct (plan pj g moves) as [[[pj1 g1] moves1]| |] eqn:Ep; try done.
  cbn [mbind result_bind]. intros Hloop.
  destruct (plan_step_state _ _ _ _ _ _ _ Ej Ep) as [Hstep Hpacs].
  pose proof (plan_loop_evolves _ _ _ _ _ Hstep) as Hev.
  set (g2 := Game.set_MyPacs (<[j := pj1]> (Game.MyPacs g1)) g1) in *.
  assert (Hco2 : NoDup (coords <$> Game.Pellet g2))
    by (by rewrite (evolves_coords _ _ Hev)).
  assert (Hfirst : ∀ c d pc pd, c = j → d ∈ slots → c ≠ d →
            Game.MyPacs g !! c = Some pc → Game.MyPacs g !! d = Some pd →
            idle pc → idle pd →
            ∃ pc' pd', Game.MyPacs g' !! c = Some pc' ∧
                       Game.MyPacs g' !! d = Some pd' ∧
                       (Pac.TargetX pc', Pac.TargetY pc')
                       ≠ (Pac.TargetX pd', Pac.TargetY pd')).
  { intros c d pc pd -> Hd Hcd Hpc Hpd Hic Hid.
    assert (pj = pc) as -> by congruence.
    destruct (plan_idle_commits _ _ _ _ _ _ Hic Ep)
      as (r & q0 & q & _ & _ & Hq & Htq & Htarget).
    destruct (plan_loop_avoids_flagged slots g2 moves1 g' moves' d pd r q)
      as (pd' & Hd' & Hne); try done.
    { rewrite Hpacs. by rewrite list_lookup_insert_ne. }
    exists pj1, pd'. split_and!; [|done|congruence].
    rewrite (plan_loop_other _ j _ _ _ _ Hloop Hj), Hpacs.
    apply list_lookup_insert_eq. by eapply lookup_lt_Some. }
  destruct (decide (a = j)) as [Haj|Haj], (decide (b = j)) as [Hbj|Hbj].
  - congruence.
  - apply elem_of_cons in Hb as [?|Hb]; [done|]. by eapply Hfirst.
  - apply elem_of_cons in Ha as [?|Ha]; [done|].
    destruct (Hfirst b a pb pa) as (pb' & pa' & ? & ? & ?); try done.
    exists pa', pb'. split_and!; [done..|]. congruence.
  - apply elem_of_cons in Ha as [?|Ha]; [done|].
    apply elem_of_cons in Hb as [?|Hb]; [done|].
    apply (IH g2 moves1 g' moves' a b pa pb); try done.
    + rewrite Hpacs. by rewrite list_lookup_insert_ne.
    + rewrite Hpacs. by rewrite list_lookup_insert_ne.
Qed.

(** X8: pellet coordinates being distinct, two owned pacs that each are on
    their target, or have a stale target, when a turn starts have targets at
    different coordinates when the turn returns: no two pacs are committed
    to the same pellet in one turn. *)
Theorem no_two_pacs_commit_to_one_pellet g g' moves a b pa pb :
  NoDup (coords <$> Game.Pellet g) →
  a ≠ b →
  Game.MyPacs g !! a = Some pa → Game.MyPacs g !! b = Some pb →
  idle pa ∨ stale pa g → idle pb ∨ stale pb g →
  PlayTurn g = Ok (g', moves) →
  ∃ pa' pb', Game.MyPacs g' !! a = Some pa' ∧ Game.MyPacs g' !! b = Some pb' ∧
             (Pac.TargetX pa', Pac.TargetY pa')
             ≠ (Pac.TargetX pb', Pac.TargetY pb').
Proof.
  intros Hco Hab Hpa Hpb Ha Hb. unfold PlayTurn. cbv zeta.
  destruct (reconcile_idle g a pa Hpa Ha) as (pa1 & Hpa1 & Hia).
  destruct (reconcile_idle g b pb Hpb Hb) as (pb1 & Hpb1 & Hib).
  set (g1 := reconcile_opponents (reconcile_mine g)) in *.
  assert (Hev : evolves g g1).
  { etrans; [apply reconcile_mine_evolves|apply reconcile_opponents_evolves]. }
  apply plan_loop_distinct_targets with (pa := pa1) (pb := pb1); try done.
  - apply NoDup_seq.
  - apply elem_of_seq. apply lookup_lt_Some in Hpa1. lia.
  - apply elem_of_seq. apply lookup_lt_Some in Hpb1. lia.
  - by rewrite (evolves_coords _ _ Hev).
Qed.

Lemma no_two_pacs_commit_to_one_pellet_witness :
  ∃ pa' pb',
    Game.MyPacs
      (Game.mk 3 3
         [Pac.mk 0 true 0 0 "" 0 0 2 2 0 0; Pac.mk 1 true 2 0 "" 0 0 0 1 0 0]
         [] [Pellet.mk 2 2 10 false true; Pellet.mk 0 1 1 false true]
         ring3 0 0 0 0) !! 0%nat = Some pa' ∧
    Game.MyPacs
      (Game.mk 3 3
         [Pac.mk 0 true 0 0 "" 0 0 2 2 0 0; Pac.mk 1 true 2 0 "" 0 0 0 1 0 0]
         [] [Pellet.mk 2 2 10 false true; Pellet.mk 0 1 1 false true]
         ring3 0 0 0 0) !! 1%nat = Some pb' ∧
    (Pac.TargetX pa', Pac.TargetY pa') ≠ (Pac.TargetX pb', Pac.TargetY pb').
Proof.
  apply (no_two_pacs_commit_to_one_pellet duo_game _ "MOVE 0 2 2|MOVE 1 0 1|"
           0 1 duo_first duo_second).
  - apply (bool_decide_unpack _). vm_compute. exact I.
  - lia.
  - reflexivity.
  - reflexivity.
  - left. split; reflexivity.
  - left. split; reflexivity.
  - vm_compute. reflexivity.
Defined.

(** ** A turn without candidates *)

Lemma pellet_turned_candidates ps ps' :
  Forall2 pellet_turned ps ps' →
  (∀ p, p ∈ ps → ¬ eligible 10 p ∧ ¬ eligible 1 p) →
  ∀ p', p' ∈ ps' → ¬ eligible 10 p' ∧ ¬ eligible 1 p'.
Proof.
  intros HF Hno p' [i Hi]%list_elem_of_lookup.
  destruct (Forall2_lookup_r _ _ _ _ _ HF Hi) as (p & Hp & (_ & Hv & Hc & Ht)).
  assert (Hback : ∀ v, v ≠ 0 → eligible v p' → eligible v p).
  { intros v Hv0 (Hv' & Hc' & Ht'). unfold eligible. split_and!.
    - destruct Hv as [<-|?]; [done|congruence].
    - destruct (Pellet.Consumed p); [|done]. rewrite Hc in Hc'; done.
    - destruct (Pellet.Targeted p); [|done]. rewrite Ht in Ht'; done. }
  destruct (Hno p (list_elem_of_lookup_2 _ _ _ Hp)) as [H10 H1].
  split; intros He; [apply H10|apply H1]; by apply Hback.
Qed.

Lemma plan_loop_without_candidates slots i pac : ∀ g moves,
  no_candidates g →
  i ∈ slots →
  (∀ j, j ∈ slots → is_Some (Game.MyPacs g !! j)) →
  Game.MyPacs g !! i = Some pac → idle pac →
  plan_loop slots g moves = Panic.
Proof.
  induction slots as [|j slots IH]; intros g moves Hno Hi Hall Hpac Hidle.
  { by apply elem_of_nil in Hi. }
  cbn [plan_loop]. destruct (Hall j) as [pj Hj]; [by left|]. rewrite Hj.
  cbn [deref mbind result_bind].
  destruct (decide (Pac.X pj = Pac.TargetX pj ∧ Pac.Y pj = Pac.TargetY pj))
    as [Hij|Hij].
  { destruct Hij. by rewrite plan_without_pellets_panics. }
  assert (Hp : plan pj g moves =
               Ok (pj, g, moves +:+ Sprintf_MOVE (Pac.Id pj) (Pac.TargetX pj)
                                                 (Pac.TargetY pj))).
  { unfold plan. by rewrite decide_False. }
  rewrite Hp. cbn [mbind result_bind].
  rewrite list_insert_id by done.
  apply elem_of_cons in Hi as [->|Hi].
  { assert (pj = pac) as -> by congruence. by destruct Hij. }
  apply IH; try done. intros j' Hj'. apply Hall. by right.
Qed.

(** X9: when no pellet is a candidate (none of value 10 or 1 that is
    neither consumed nor targeted) and some owned pac is on its target or
    has a stale target, the turn panics: it never returns a line. *)
Theorem PlayTurn_without_candidates_panics g i pac :
  no_candidates g →
  Game.MyPacs g !! i = Some pac →
  idle pac ∨ stale pac g →
  PlayTurn g = Panic.
Proof.
  intros Hno Hpac Hor. unfold PlayTurn. cbv zeta.
  destruct (reconcile_idle g i pac Hpac Hor) as (pac1 & Hpac1 & Hidle).
  apply (plan_loop_without_candidates _ i pac1); try done.
  - intros p'. apply (pellet_turned_candidates (Game.Pellet g)); [|done].
    apply (reconcile_related pellet_turned);
      intros p; unfold pellet_turned; simpl; auto.
  - apply elem_of_seq. apply lookup_lt_Some in Hpac1. lia.
  - intros j Hj%elem_of_seq. apply lookup_lt_is_Some. lia.
Qed.

Lemma PlayTurn_without_candidates_panics_witness :
  PlayTurn (readTurn lone_input lone_game) = Panic.
Proof.
  apply (PlayTurn_without_candidates_panics
           (readTurn lone_input lone_game) 0 (Pac.mk 0 true 0 0 "" 0 0 0 0 0 0)).
  - intros p Hp. vm_compute in Hp. by apply elem_of_nil in Hp.
  - reflexivity.
  - left. split; reflexivity.
Defined.

(** ** Invariants of a run *)

Lemma AddPac_pacs_ok id mine x y typeId stl acd g :
  pacs_ok (bool_decide (mine = 1)) (side mine g) →
  pacs_ok (bool_decide (mine = 1))
          (side mine (AddPac id mine x y typeId stl acd g)).
Proof.
  intros [Hnd Hall]. split; [by apply AddPac_NoDup|].
  rewrite AddPac_side.
  destruct (list_find _ (side mine g)) as [[i pac0]|] eqn:E.
  - apply list_find_Some in E as (Hi & _).
    apply Forall_insert; [done|]. simpl.
    by eapply Forall_lookup_1 in Hall.
  - apply Forall_app. split; [done|]. by apply Forall_singleton.
Qed.

Lemma AddPac_registry_ok id mine x y typeId stl acd g :
  registry_ok g → registry_ok (AddPac id mine x y typeId stl acd g).
Proof.
  intros (Hp & Hm & Ho).
  pose proof (AddPac_pacs_ok id mine x y typeId stl acd g) as Hs.
  pose proof (AddPac_other_side id mine x y typeId stl acd g) as Hother.
  unfold registry_ok. rewrite AddPac_Pellet. split; [done|].
  revert Hs Hother. unfold side, other_side.
  destruct (decide (mine = 1)) as [H1|H1].
  - rewrite bool_decide_eq_true_2 by done. intros Hs ->. auto.
  - rewrite bool_decide_eq_false_2 by done. intros Hs ->. auto.
Qed.

Lemma addPacs_registry_ok pacs : ∀ g,
  registry_ok g → registry_ok (addPacs pacs g).
Proof.
  induction pacs as [|l pacs IH]; intros g Hok; [done|].
  apply (IH _). by apply AddPac_registry_ok.
Qed.

Lemma readTurn_registry_ok input g :
  registry_ok g → registry_ok (readTurn input g).
Proof.
  intros (Hp & Hm & Ho). split; [by apply readTurn_NoDup|].
  unfold readTurn. cbv zeta.
  set (g4 := Game.set_VisiblePacCount _ _).
  set (g5 := Game.set_VisiblePalleteCount _ _).
  destruct (addPellets_pacs (visiblePellets input) 0 g5) as (-> & -> & _).
  assert (H4 : registry_ok g4).
  { split; [|done].
    change (NoDup (coords <$> Game.Pellet (markAllConsumed g))).
    by rewrite markAllConsumed_coords. }
  destruct (addPacs_registry_ok (visiblePacs input) g4 H4) as (_ & ? & ?).
  done.
Qed.

Lemma evolves_registry_ok g g' :
  evolves g g' → registry_ok g → registry_ok g'.
Proof.
  intros Hev (Hp & [Hm Hmf] & Ho).
  split; [by rewrite (evolves_coords _ _ Hev)|].
  split; [|by rewrite (ev_opponents _ _ Hev)]. split.
  - assert (Pac.Id <$> Game.MyPacs g' = Pac.Id <$> Game.MyPacs g) as ->;
      [|done].
    symmetry. apply list_eq_Forall2, Forall2_fmap.
    eapply Forall2_impl; [apply (ev_mine _ _ Hev)|]. by intros a a' (-> & _).
  - apply Forall_lookup. intros i a' Ha'.
    destruct (Forall2_lookup_r _ _ _ _ _ (ev_mine _ _ Hev) Ha')
      as (a & Ha & (_ & -> & _)).
    by eapply Forall_lookup_1 in Hmf.
Qed.

Lemma turn_registry_ok input g g' line :
  registry_ok g → turn input g = Ok (g', line) → registry_ok g'.
Proof.
  intros Hok H%PlayTurn_evolves.
  eapply evolves_registry_ok; [exact H|]. by apply readTurn_registry_ok.
Qed.

Lemma readTurn_maze input g :
  Game.Grid (readTurn input g) = Game.Grid g ∧
  Game.Width (readTurn input g) = Game.Width g ∧
  Game.Height (readTurn input g) = Game.Height g.
Proof.
  assert (Hpac : ∀ pacs g, Game.Grid (addPacs pacs g) = Game.Grid g ∧
                           Game.Width (addPacs pacs g) = Game.Width g ∧
                           Game.Height (addPacs pacs g) = Game.Height g).
  { clear. induction pacs as [|l pacs IH]; intros g; [done|].
    unfold addPacs in *. simpl. destruct (IH (AddPac (pacId l) (mine l)
      (pacX l) (pacY l) (typeId l) (speedTurnsLeft l) (abilityCooldown l) g))
      as (-> & -> & ->).
    unfold AddPac. by destruct (decide (mine l = 1)). }
  assert (Hpel : ∀ lines k g,
            Game.Grid (addPellets k lines g) = Game.Grid g ∧
            Game.Width (addPellets k lines g) = Game.Width g ∧
            Game.Height (addPellets k lines g) = Game.Height g).
  { clear. induction lines as [|l lines IH]; intros k g; [done|].
    cbn [addPellets]. destruct (IH (k + 1) (AddPellet k (pelletX l)
      (pelletY l) (pelletValue l) g)) as (-> & -> & ->).
    unfold AddPellet. by destruct (list_find _ _) as [[i p]|]. }
  unfold readTurn. cbv zeta.
  set (g4 := Game.set_VisiblePacCount _ _).
  destruct (Hpel (visiblePellets input) 0
              (Game.set_VisiblePalleteCount
                 (Z.of_nat (length (visiblePellets input)))
                 (addPacs (visiblePacs input) g4))) as (-> & -> & ->).
  destruct (Hpac (visiblePacs input) g4) as (H1 & H2 & H3).
  cbn [Game.Grid Game.Width Game.Height Game.set_VisiblePalleteCount].
  by rewrite H1, H2, H3.
Qed.

(** X10: in every state a run reaches from the state [main] starts with,
    no two pellets share a coordinate, no two pacs of one collection share
    an id, every pac carries the ownership flag of its collection, and the
    maze and its dimensions are those read at the start; and the run has
    printed one line per pass. *)
Theorem play_keeps_registry width height rows inputs g0 g lines :
  initGame width height rows = Ok g0 →
  play inputs g0 = Ok (g, lines) →
  registry_ok g ∧
  Game.Grid g = Game.Grid g0 ∧
  Game.Width g = width ∧ Game.Height g = height ∧
  length lines = length inputs.
Proof.
  intros Hinit Hplay.
  assert (H0 : registry_ok g0 ∧ Game.Width g0 = width ∧ Game.Height g0 = height).
  { revert Hinit. unfold initGame. destruct (initGrid _ _ _); try done.
    intros [= <-]. split; [|done].
    unfold registry_ok, pacs_ok. simpl.
    split_and!; first [apply NoDup_nil_2 | apply Forall_nil_2]. }
  destruct H0 as (Hok & <- & <-). clear Hinit.
  revert g0 g lines Hok Hplay.
  induction inputs as [|input inputs IH]; intros g0 g lines Hok; simpl.
  { by intros [= <- <-]. }
  destruct (turn input g0) as [[g1 line]| |] eqn:Et; try done.
  cbn [mbind result_bind].
  destruct (play inputs g1) as [[g2 lines2]| |] eqn:Ep; try done.
  cbn [mbind result_bind]. intros [= <- <-].
  destruct (IH g1 g2 lines2) as (Hok2 & HG & HW & HH & Hlen); [|done|].
  { by eapply turn_registry_ok. }
  pose proof (ev_grid _ _ (PlayTurn_evolves _ _ _ Et)) as HG1.
  pose proof (PlayTurn_scalars _ _ _ Et) as Hsc.
  destruct (readTurn_maze input g0) as (HG0 & HW0 & HH0).
  unfold scalars in Hsc. injection Hsc as HW1 HH1 _ _ _ _.
  simpl. split_and!; [done|congruence..|by rewrite Hlen].
Qed.

Lemma play_keeps_registry_witness :
  registry_ok pass2 ∧
  Game.Grid pass2 = Game.Grid pass0 ∧
  Game.Width pass2 = 3 ∧ Game.Height pass2 = 1 ∧
  length ["MOVE 0 2 0|"; "MOVE 0 0 0|"]%string = length [input1; input2].
Proof.
  apply (play_keeps_registry 3 1 ["   "%string] [input1; input2] pass0 pass2
           ["MOVE 0 2 0|"; "MOVE 0 0 0|"]%string).
  - vm_compute. reflexivity.
  - vm_compute. reflexivity.
Defined.

(** ** The search: bounds and isolation *)

Lemma at_xy_on_grid grid x y :
  (∃ c, at_xy grid x y = Ok c) ↔ on_grid grid x y.
Proof.
  unfold on_grid. split.
  - intros (c & (row & Hr & Hc)%bind_Ok).
    apply index_Ok in Hr as [Hy Hr]. apply index_Ok in Hc as [Hx Hc].
    split; [done|]. exists row. split; [done|].
    apply lookup_lt_Some in Hc. lia.
  - intros (Hy & row & Hr & Hx).
    destruct (lookup_lt_is_Some_2 row (Z.to_nat x)) as [c Hc]; [lia|].
    exists c. apply bind_Ok. exists row. rewrite !index_Ok. auto with lia.
Qed.

Lemma at_xy_cases grid x y :
  (∃ c, at_xy grid x y = Ok c) ∨ at_xy grid x y = Panic.
Proof.
  unfold at_xy, index. destruct (decide (0 ≤ y)); [|by right].
  destruct (grid !! Z.to_nat y) as [row|]; [|by right]. simpl.
  destruct (decide (0 ≤ x)); [|by right].
  destruct (row !! Z.to_nat x); [left; eauto|by right].
Qed.

(** X11: [AStar] never exhausts the step budget of its loops; it panics
    exactly when the start or the goal does not name a slot of the grid, and
    otherwise returns a path of at most one cell. *)
Theorem AStar_panics_exactly_off_grid startX startY endX endY grid :
  match AStar startX startY endX endY grid with
  | Ok path =>
      on_grid grid startX startY ∧ on_grid grid endX endY ∧
      (length path ≤ 1)%nat
  | Panic => ¬ (on_grid grid startX startY ∧ on_grid grid endX endY)
  | OutOfFuel => False
  end.
Proof.
  destruct (at_xy_cases grid startX startY) as [[c Hs]|Hs],
           (at_xy_cases grid endX endY) as [[c' Hg]|Hg].
  - rewrite (AStar_eval _ _ _ _ _ _ _ Hs Hg).
    assert (on_grid grid startX startY) by (apply at_xy_on_grid; eauto).
    assert (on_grid grid endX endY) by (apply at_xy_on_grid; eauto).
    case_decide; simpl; auto.
  - rewrite AStar_off_grid by auto.
    intros [_ (c1 & Hc1)%at_xy_on_grid]. congruence.
  - rewrite AStar_off_grid by auto.
    intros [(c1 & Hc1)%at_xy_on_grid _]. congruence.
  - rewrite AStar_off_grid by auto.
    intros [_ (c1 & Hc1)%at_xy_on_grid]. congruence.
Qed.

Lemma same_maze_cloneGrid grid grid' :
  same_maze grid grid' → cloneGrid grid' = cloneGrid grid.
Proof.
  unfold same_maze, cloneGrid. induction 1 as [|row row' g g' Hrow _ IH];
    [done|]. simpl. f_equal; [|done].
  induction Hrow as [|c c' r r' (Hx & Hy & Hw) _ IHr]; [done|]. simpl.
  f_equal; [|done]. unfold cloneCell. by rewrite Hx, Hy, Hw.
Qed.

Lemma concat_length_cloneGrid grid :
  length (concat (cloneGrid grid)) = length (concat grid).
Proof.
  unfold cloneGrid. induction grid as [|row grid IH]; [done|]. simpl.
  by rewrite !length_app, length_map, IH.
Qed.

(** X12: the search reads nothing of the game grid but the positions and
    wall flags of its cells: on two grids that agree in these it returns the
    same result, whatever scores, predecessors, heap indices or neighbour
    lists their cells hold. *)
Theorem AStar_reads_positions_and_walls_only grid grid'
    startX startY endX endY :
  same_maze grid grid' →
  AStar startX startY endX endY grid' = AStar startX startY endX endY grid.
Proof.
  intros H. unfold AStar. cbv zeta.
  rewrite (same_maze_cloneGrid _ _ H).
  rewrite <- (concat_length_cloneGrid grid'), (same_maze_cloneGrid _ _ H).
  by rewrite concat_length_cloneGrid.
Qed.

Lemma AStar_reads_positions_and_walls_only_witness :
  AStar 0 0 2 2 (cloneGrid ring3) = AStar 0 0 2 2 ring3.
Proof.
  apply (AStar_reads_positions_and_walls_only ring3 (cloneGrid ring3) 0 0 2 2).
  unfold same_maze. vm_compute. repeat constructor.
Defined.

(** ** The heuristic *)

Lemma wrap_int z : is_int z → wrap z = z.
Proof.
  unfold is_int, wrap. intros H. rewrite Z.mod_small; lia.
Qed.

(** X13: [abs] returns the absolute value of every [int] but the least one,
    for which the negation wraps around and the result is that negative
    number itself. *)
Theorem abs_of_int x :
  is_int x →
  (x ≠ - 2 ^ 63 → abs x = Z.abs x ∧ 0 ≤ abs x) ∧
  (x = - 2 ^ 63 → abs x = - 2 ^ 63).
Proof.
  unfold is_int, abs. intros H. split.
  - intros Hne. case_decide.
    + rewrite wrap_int by (unfold is_int; lia). lia.
    + lia.
  - intros ->. reflexivity.
Qed.

Lemma abs_of_int_witness :
  (-5 ≠ - 2 ^ 63 → abs (-5) = Z.abs (-5) ∧ 0 ≤ abs (-5)) ∧
  (-5 = - 2 ^ 63 → abs (-5) = - 2 ^ 63).
Proof. apply (abs_of_int (-5)). unfold is_int. lia. Defined.

Lemma manhattanDistance_small a b :
  small_coords a → small_coords b →
  manhattanDistance a b =
  Z.abs (Cell.x a - Cell.x b) + Z.abs (Cell.y a - Cell.y b).
Proof.
  unfold small_coords, manhattanDistance, abs. intros [? ?] [? ?].
  rewrite !(wrap_int (_ - _)) by (unfold is_int; lia).
  repeat case_decide;
    rewrite ?(wrap_int (- _)) by (unfold is_int; lia);
    rewrite wrap_int by (unfold is_int; lia); lia.
Qed.

(** X14: on cells whose coordinates are far from the limits of [int] the
    heuristic is the Manhattan distance without any wrap-around: it is not
    negative, symmetric, zero exactly for equal coordinates, and obeys the
    triangle inequality, so that along one step between adjacent cells it
    changes by at most one. *)
Theorem manhattanDistance_is_a_metric a b c :
  small_coords a → small_coords b → small_coords c →
  manhattanDistance a b =
    Z.abs (Cell.x a - Cell.x b) + Z.abs (Cell.y a - Cell.y b) ∧
  0 ≤ manhattanDistance a b ∧
  manhattanDistance a b = manhattanDistance b a ∧
  (manhattanDistance a b = 0 ↔ Cell.x a = Cell.x b ∧ Cell.y a = Cell.y b) ∧
  manhattanDistance a c ≤ manhattanDistance a b + manhattanDistance b c ∧
  (manhattanDistance a b = 1 →
   Z.abs (manhattanDistance a c - manhattanDistance b c) ≤ 1).
Proof.
  intros Ha Hb Hc.
  rewrite !manhattanDistance_small by done. split_and!; lia.
Qed.

Lemma manhattanDistance_is_a_metric_witness :
  manhattanDistance (Cell.mk 0 0 false 0 0 0 None 0 [])
                    (Cell.mk 2 1 false 0 0 0 None 0 []) = 3.
Proof.
  destruct (manhattanDistance_is_a_metric
              (Cell.mk 0 0 false 0 0 0 None 0 [])
              (Cell.mk 2 1 false 0 0 0 None 0 [])
              (Cell.mk 2 2 false 0 0 0 None 0 [])) as (H & _);
    [unfold small_coords; simpl; lia..|].
  exact H.
Defined.

(** ** Neighbours on a rectangular grid *)

Lemma GetCell_rectangular w h grid x y :
  rectangular w h grid →
  0 ≤ x < Z.of_nat w → 0 ≤ y < Z.of_nat h →
  GetCell x y grid = Ok (Z.to_nat y, Z.to_nat x).
Proof.
  intros [Hh Hw] Hx Hy.
  destruct (lookup_lt_is_Some_2 grid (Z.to_nat y)) as [row Hrow]; [lia|].
  assert (length row = w) by (by eapply Forall_lookup_1 in Hw).
  destruct (lookup_lt_is_Some_2 row (Z.to_nat x)) as [c Hc]; [lia|].
  apply (GetCell_Ok _ _ _ c). apply bind_Ok. exists row.
  rewrite !index_Ok. auto with lia.
Qed.

Lemma neighbours_of_spec w h r r' :
  (r.1 < h)%nat → (r.2 < w)%nat →
  r' ∈ neighbours_of w h r ↔ (r'.1 < h)%nat ∧ (r'.2 < w)%nat ∧ adjacent r r'.
Proof.
  destruct r as [i j], r' as [i' j']. unfold neighbours_of, adjacent. simpl.
  intros Hi Hj. rewrite !elem_of_app.
  repeat case_decide;
    rewrite ?list_elem_of_singleton, ?elem_of_nil, ?pair_eq; lia.
Qed.

Lemma neighbours_of_NoDup w h r : NoDup (neighbours_of w h r).
Proof.
  destruct r as [i j]. unfold neighbours_of. simpl.
  repeat case_decide; simpl;
    repeat (apply NoDup_cons; split;
            [rewrite ?elem_of_cons, ?elem_of_nil, ?pair_eq; lia|]);
    apply NoDup_nil_2.
Qed.

Lemma getNeighbors_eq w h grid cell i j :
  rectangular w h grid →
  (i < h)%nat → (j < w)%nat →
  Cell.x cell = Z.of_nat j → Cell.y cell = Z.of_nat i →
  getNeighbors cell grid = Ok (neighbours_of w h (i, j)).
Proof.
  intros Hrect Hi Hj Hx Hy. unfold getNeighbors, neighbours_of. cbv zeta.
  rewrite Hx, Hy. simpl fst. simpl snd.
  assert (H0 : ∃ row0, index grid 0 = Ok row0 ∧ length row0 = w).
  { destruct Hrect as [Hh Hw].
    destruct (lookup_lt_is_Some_2 grid 0) as [row0 Hrow0]; [lia|].
    exists row0. split; [by apply index_Ok|]. by eapply Forall_lookup_1 in Hw. }
  destruct H0 as (row0 & Hrow0 & Hlen0).
  rewrite (proj1 Hrect).
  destruct (decide (Z.of_nat j > 0)), (decide (0 < j)%nat); try lia;
    rewrite ?(GetCell_rectangular w h) by (done || lia);
    cbn [mbind result_bind]; rewrite Hrow0; cbn [mbind result_bind];
    rewrite Hlen0;
  destruct (decide (Z.of_nat j < Z.of_nat w - 1)), (decide (j + 1 < w)%nat);
    try lia;
    rewrite ?(GetCell_rectangular w h) by (done || lia);
    cbn [mbind result_bind];
  destruct (decide (Z.of_nat i > 0)), (decide (0 < i)%nat); try lia;
    rewrite ?(GetCell_rectangular w h) by (done || lia);
    cbn [mbind result_bind];
  destruct (decide (Z.of_nat i < Z.of_nat h - 1)), (decide (i + 1 < h)%nat);
    try lia;
    rewrite ?(GetCell_rectangular w h) by (done || lia);
    cbn [mbind result_bind];
  rewrite ?Nat2Z.id;
  repeat match goal with
         | |- context [Z.to_nat (Z.of_nat ?n - 1)] =>
             replace (Z.to_nat (Z.of_nat n - 1)) with (n - 1)%nat by lia
         | |- context [Z.to_nat (Z.of_nat ?n + 1)] =>
             replace (Z.to_nat (Z.of_nat n + 1)) with (n + 1)%nat by lia
         end;
  reflexivity.
Qed.

(** X15: on a grid of [h] rows of [w] cells, for a cell that carries the
    coordinates of a slot of the grid, [getNeighbors] returns without panic
    the slots left, right, above and below that exist, in this order: at
    most four, all different, and exactly the slots of the grid that are
    one step away. *)
Theorem getNeighbors_on_rectangular_grid w h grid cell i j :
  rectangular w h grid →
  (i < h)%nat → (j < w)%nat →
  Cell.x cell = Z.of_nat j → Cell.y cell = Z.of_nat i →
  ∃ ns, getNeighbors cell grid = Ok ns ∧
        ns = neighbours_of w h (i, j) ∧
        (length ns ≤ 4)%nat ∧ NoDup ns ∧
        ∀ r, r ∈ ns ↔ (r.1 < h)%nat ∧ (r.2 < w)%nat ∧ adjacent (i, j) r.
Proof.
  intros Hrect Hi Hj Hx Hy. exists (neighbours_of w h (i, j)).
  split_and!; [by apply getNeighbors_eq|done| |apply neighbours_of_NoDup|].
  - unfold neighbours_of. repeat case_decide; simpl; lia.
  - intros r. by apply neighbours_of_spec.
Qed.

Lemma getNeighbors_on_rectangular_grid_witness :
  ∃ ns, getNeighbors (Cell.mk 1 0 false 0 0 0 None 0 []) ring3 = Ok ns ∧
        ns = neighbours_of 3 3 (0, 1)%nat ∧
        (length ns ≤ 4)%nat ∧ NoDup ns ∧
        ∀ r, r ∈ ns ↔ (r.1 < 3)%nat ∧ (r.2 < 3)%nat ∧ adjacent (0, 1)%nat r.
Proof.
  apply (getNeighbors_on_rectangular_grid 3 3 ring3
           (Cell.mk 1 0 false 0 0 0 None 0 []) 0 1).
  - split; [reflexivity|]. repeat constructor.
  - lia.
  - lia.
  - reflexivity.
  - reflexivity.
Defined.

(** ** The maze [main] builds *)

Lemma cell_at_lookup (grid : CellGrid) r c :
  cell_at grid r = Ok c ↔ ∃ row, grid !! r.1 = Some row ∧ row !! r.2 = Some c.
Proof.
  unfold cell_at. destruct (grid !! r.1) as [row|]; simpl.
  - destruct (row !! r.2) eqn:E; simpl; split.
    + intros [= ->]. eauto.
    + intros (row' & [= <-] & Hc). congruence.
    + done.
    + intros (row' & [= <-] & Hc). congruence.
  - split; [done|]. by intros (row' & ? & _).
Qed.

Lemma cell_at_rectangular w h (grid : CellGrid) r :
  rectangular w h grid → (r.1 < h)%nat → (r.2 < w)%nat →
  ∃ c, cell_at grid r = Ok c.
Proof.
  intros [Hh Hw] H1 H2.
  destruct (lookup_lt_is_Some_2 grid r.1) as [row Hrow]; [lia|].
  assert (length row = w) by (by eapply Forall_lookup_1 in Hw).
  destruct (lookup_lt_is_Some_2 row r.2) as [c Hc]; [lia|].
  exists c. apply cell_at_lookup. eauto.
Qed.

Lemma cell_update_spec w h upd r (grid : CellGrid) c :
  rectangular w h grid →
  cell_at grid r = Ok c →
  ∃ grid', cell_update upd r grid = Ok grid' ∧
           rectangular w h grid' ∧
           cell_at grid' r = Ok (upd c) ∧
           ∀ r', r' ≠ r → cell_at grid' r' = cell_at grid r'.
Proof.
  intros [Hh Hw] Hc. unfold cell_update. rewrite Hc. cbn [mbind result_bind].
  eexists. split; [done|].
  apply cell_at_lookup in Hc as (row & Hrow & Hcell). split_and!.
  - split; [by rewrite length_alter|].
    apply Forall_alter; [done|]. intros row' _ <-. by rewrite length_insert.
  - apply cell_at_lookup. exists (<[r.2 := upd c]> row). split.
    + by rewrite list_lookup_alter_eq, Hrow.
    + apply list_lookup_insert_eq. by eapply lookup_lt_Some.
  - intros r' Hne. unfold cell_at. rewrite list_lookup_alter.
    case_decide as Hd; [|done]. rewrite <- Hd.
    destruct (grid !! r.1) as [row'|]; [|done]. simpl.
    rewrite list_lookup_insert_ne; [done|].
    intros H2. apply Hne. destruct r, r'. simpl in *. congruence.
Qed.

Lemma InitNeighbors_all_spec w h todo : ∀ grid,
  rectangular w h grid →
  (∀ r, r ∈ todo → (r.1 < h)%nat ∧ (r.2 < w)%nat) →
  (∀ r c, cell_at grid r = Ok c →
          Cell.x c = Z.of_nat r.2 ∧ Cell.y c = Z.of_nat r.1) →
  ∃ grid', InitNeighbors_all todo grid = Ok grid' ∧
           rectangular w h grid' ∧
           ∀ r c, cell_at grid r = Ok c →
                  cell_at grid' r =
                  Ok (if decide (r ∈ todo)
                      then Cell.set_Neighbors (neighbours_of w h r) c else c).
Proof.
  induction todo as [|r todo IH]; intros grid Hrect Hin Hxy.
  { exists grid. split_and!; [done..|]. intros r c Hc.
    rewrite decide_False; [done|]. apply not_elem_of_nil. }
  destruct (Hin r) as [H1 H2]; [by left|].
  destruct (cell_at_rectangular w h grid r Hrect H1 H2) as [cell Hcell].
  destruct (Hxy r cell Hcell) as [Hx Hy].
  cbn [InitNeighbors_all]. unfold InitNeighbors. rewrite Hcell.
  cbn [mbind result_bind].
  rewrite (getNeighbors_eq w h grid cell r.1 r.2) by done.
  cbn [mbind result_bind]. replace (r.1, r.2) with r by (by destruct r).
  destruct (cell_update_spec w h (Cell.set_Neighbors (neighbours_of w h r))
              r grid cell Hrect Hcell) as (grid1 & -> & Hrect1 & Hr1 & Hother).
  cbn [mbind result_bind].
  destruct (IH grid1) as (grid' & -> & Hrect' & Hcells); [done| | |].
  - intros r' Hr'. apply Hin. by right.
  - intros r' c'. destruct (decide (r' = r)) as [->|Hne].
    + rewrite Hr1. intros [= <-]. done.
    + rewrite Hother by done. apply Hxy.
  - exists grid'. split_and!; [done..|]. intros r' c Hc.
    destruct (decide (r' = r)) as [->|Hne].
    + assert (c = cell) as -> by congruence.
      rewrite (Hcells r _ Hr1), (decide_True (P := r ∈ r :: todo))
        by (by left).
      by case_decide.
    + rewrite <- Hother in Hc by done. rewrite (Hcells r' c Hc).
      destruct (decide (r' ∈ todo)) as [Ht|Ht].
      * rewrite decide_True; [done|by right].
      * rewrite decide_False; [done|].
        intros [?|?]%elem_of_cons; done.
Qed.

Lemma elem_of_slots (grid : CellGrid) r :
  r ∈ slots grid ↔ ∃ row, grid !! r.1 = Some row ∧ (r.2 < length row)%nat.
Proof.
  unfold slots. rewrite list_elem_of_In, in_concat. split.
  - intros (l & Hl%list_elem_of_In & Hr%list_elem_of_In).
    apply elem_of_lookup_imap in Hl as (i & row & -> & Hrow).
    apply elem_of_lookup_imap in Hr as (j & c & -> & Hc). simpl.
    exists row. split; [done|]. by eapply lookup_lt_Some.
  - intros (row & Hrow & Hlt).
    destruct (lookup_lt_is_Some_2 row r.2 Hlt) as [c Hc].
    exists (imap (λ j _, (r.1, j)) row). rewrite <- !list_elem_of_In. split.
    + apply (elem_of_lookup_imap_2
               (λ i (row : list Cell.t), imap (λ j _, (i, j)) row)
               grid row r.1 Hrow).
    + replace r with ((λ j (_ : Cell.t), (r.1, j)) r.2 c) at 1
        by (by destruct r).
      apply (elem_of_lookup_imap_2 (λ j (_ : Cell.t), (r.1, j)) row c r.2 Hc).
Qed.

Lemma initRow_cases width i row :
  initRow width i row =
  if decide (Z.of_nat (length (String.list_ascii_of_string row)) = width)
  then Ok (imap (λ j c, Cell.mk (Z.of_nat j) i (bool_decide (c = "#"%char))
                                0 0 0 None 0 [])
                (String.list_ascii_of_string row))
  else Panic.
Proof. done. Qed.

Lemma mapM_initRow width rows (l : list Z) :
  mapM (λ i, initRow width i (default ""%string (rows !! Z.to_nat i))) l =
  if decide (Forall (λ i, Z.of_nat (length (row_chars rows i)) = width) l)
  then Ok ((λ i, imap (λ j c, Cell.mk (Z.of_nat j) i
                                      (bool_decide (c = "#"%char))
                                      0 0 0 None 0 [])
                      (row_chars rows i)) <$> l)
  else Panic.
Proof.
  induction l as [|i l IH]; [done|]. cbn [mapM]. rewrite IH, initRow_cases.
  fold (row_chars rows i).
  destruct (decide (Z.of_nat (length (row_chars rows i)) = width)) as [Hi|Hi].
  - cbn [mbind result_bind]. destruct (decide (Forall _ l)) as [Hl|Hl].
    + rewrite decide_True by (by constructor). done.
    + rewrite decide_False; [done|]. by intros [_ ?]%Forall_cons.
  - destruct (decide (Forall _ (i :: l))) as [[? _]%Forall_cons|_]; done.
Qed.

Lemma adjacent_sym r r' : adjacent r r' ↔ adjacent r' r.
Proof. unfold adjacent. lia. Qed.


(** X16: on ASCII rows, [initGrid] returns exactly when the height is not
    negative and every row read has [width] characters, and panics
    otherwise.  The grid it returns has [height] rows of [width] cells; the
    cell in row [i], column [j] carries x = j and y = i, is a wall exactly
    when the character read there is [#], has zeroed search fields, and
    lists as neighbours the slots left, right, above and below that exist.
    Hence being a neighbour is symmetric. *)
Theorem initGrid_builds_the_maze width height rows :
  ascii_rows height rows →
  match initGrid width height rows with
  | Ok grid =>
      rows_fit width height rows ∧
      rectangular (Z.to_nat width) (Z.to_nat height) grid ∧
      (∀ i j c, cell_at grid (i, j) = Ok c →
         ∃ ch, row_chars rows (Z.of_nat i) !! j = Some ch ∧
               c = Cell.mk (Z.of_nat j) (Z.of_nat i)
                           (bool_decide (ch = "#"%char)) 0 0 0 None 0
                           (neighbours_of (Z.to_nat width) (Z.to_nat height)
                                          (i, j))) ∧
      (∀ r r' c c', cell_at grid r = Ok c → cell_at grid r' = Ok c' →
                    r' ∈ Cell.Neighbors c ↔ r ∈ Cell.Neighbors c')
  | Panic => ¬ rows_fit width height rows
  | OutOfFuel => False
  end.
Proof.
  intros _.
  unfold initGrid. destruct (decide (height < 0)) as [Hneg|Hpos].
  { intros [? _]. lia. }
  rewrite mapM_initRow.
  destruct (decide (Forall _ (seqZ 0 height))) as [Hall|Hall];
    cbn [mbind result_bind].
  2:{ intros [_ Hfit]. apply Hall. apply Forall_forall.
      intros i Hi%elem_of_seqZ. apply Hfit. lia. }
  assert (Hfit : rows_fit width height rows).
  { split; [lia|]. intros i Hi. rewrite Forall_forall in Hall. apply Hall.
    apply elem_of_seqZ. lia. }
  set (w := Z.to_nat width). set (h := Z.to_nat height).
  set (grid0 := (λ i, imap _ (row_chars rows i)) <$> seqZ 0 height).
  assert (Hrow0 : ∀ i row, grid0 !! i = Some row →
            (i < h)%nat ∧ length row = w ∧
            ∀ j c, row !! j = Some c →
              ∃ ch, row_chars rows (Z.of_nat i) !! j = Some ch ∧
                    c = Cell.mk (Z.of_nat j) (Z.of_nat i)
                                (bool_decide (ch = "#"%char)) 0 0 0 None 0 []).
  { intros i row Hrow. subst grid0. rewrite list_lookup_fmap in Hrow.
    apply fmap_Some in Hrow as (z & Hz & ->).
    apply lookup_seqZ in Hz as [-> Hz]. rewrite Z.add_0_l.
    split; [lia|]. split.
    - rewrite length_imap. destruct Hfit as [_ Hfit].
      specialize (Hfit (Z.of_nat i)). lia.
    - intros j c Hc. rewrite list_lookup_imap in Hc.
      apply fmap_Some in Hc as (ch & Hch & ->). eauto. }
  assert (Hrect0 : rectangular w h grid0).
  { split.
    - subst grid0 h. by rewrite length_fmap, length_seqZ.
    - apply Forall_lookup. intros i row Hrow. by apply Hrow0 in Hrow as (_ & ? & _). }
  assert (Hcell0 : ∀ r c, cell_at grid0 r = Ok c →
            (r.1 < h)%nat ∧ (r.2 < w)%nat ∧
            ∃ ch, row_chars rows (Z.of_nat r.1) !! r.2 = Some ch ∧
                  c = Cell.mk (Z.of_nat r.2) (Z.of_nat r.1)
                              (bool_decide (ch = "#"%char)) 0 0 0 None 0 []).
  { intros r c (row & Hrow & Hc)%cell_at_lookup.
    destruct (Hrow0 _ _ Hrow) as (? & Hlen & Hcells).
    split; [done|]. split; [|by apply Hcells].
    apply lookup_lt_Some in Hc. lia. }
  destruct (InitNeighbors_all_spec w h (slots grid0) grid0)
    as (grid & -> & Hrect & Hcells); [done| | |].
  { intros r (row & Hrow & Hlt)%elem_of_slots.
    destruct (Hrow0 _ _ Hrow) as (? & Hlen & _). lia. }
  { intros r c Hc. destruct (Hcell0 r c Hc) as (_ & _ & ch & _ & ->). done. }
  assert (Hcell : ∀ r c, cell_at grid r = Ok c →
            (r.1 < h)%nat ∧ (r.2 < w)%nat ∧
            ∃ ch, row_chars rows (Z.of_nat r.1) !! r.2 = Some ch ∧
                  c = Cell.mk (Z.of_nat r.2) (Z.of_nat r.1)
                              (bool_decide (ch = "#"%char)) 0 0 0 None 0
                              (neighbours_of w h r)).
  { intros r c Hc.
    pose proof Hc as (row & Hrow & Hrc)%cell_at_lookup.
    assert (Hb : (r.1 < h)%nat ∧ (r.2 < w)%nat).
    { destruct Hrect as [Hh Hw]. split.
      - apply lookup_lt_Some in Hrow. lia.
      - eapply Forall_lookup_1 in Hw; [|exact Hrow].
        apply lookup_lt_Some in Hrc. lia. }
    destruct Hb as [H1 H2]. split; [done|]. split; [done|].
    destruct (cell_at_rectangular w h grid0 r Hrect0 H1 H2) as [c0 Hc0].
    destruct (Hcell0 r c0 Hc0) as (_ & _ & ch & Hch & ->).
    exists ch. split; [done|]. rewrite (Hcells r _ Hc0) in Hc.
    rewrite decide_True in Hc.
    - by injection Hc as <-.
    - apply elem_of_slots. apply cell_at_lookup in Hc0 as (row0 & ? & ?).
      exists row0. split; [done|]. by eapply lookup_lt_Some. }
  split_and!; [done..| |].
  - intros i j c Hc. by destruct (Hcell (i, j) c Hc) as (_ & _ & ?).
  - intros r r' c c' Hc Hc'.
    destruct (Hcell r c Hc) as (H1 & H2 & ch & _ & ->).
    destruct (Hcell r' c' Hc') as (H1' & H2' & ch' & _ & ->). simpl.
    rewrite !neighbours_of_spec by done. rewrite (adjacent_sym r r'). tauto.
Qed.

Lemma initGrid_builds_the_maze_witness :
  match initGrid 2 1 ["# "%string] with
  | Ok grid =>
      rows_fit 2 1 ["# "%string] ∧
      rectangular (Z.to_nat 2) (Z.to_nat 1) grid ∧
      (∀ i j c, cell_at grid (i, j) = Ok c →
         ∃ ch, row_chars ["# "%string] (Z.of_nat i) !! j = Some ch ∧
               c = Cell.mk (Z.of_nat j) (Z.of_nat i)
                           (bool_decide (ch = "#"%char)) 0 0 0 None 0
                           (neighbours_of (Z.to_nat 2) (Z.to_nat 1) (i, j))) ∧
      (∀ r r' c c', cell_at grid r = Ok c → cell_at grid r' = Ok c' →
                    r' ∈ Cell.Neighbors c ↔ r ∈ Cell.Neighbors c')
  | Panic => ¬ rows_fit 2 1 ["# "%string]
  | OutOfFuel => False
  end.
Proof.
  apply (initGrid_builds_the_maze 2 1 ["# "%string]).
  apply (bool_decide_unpack _). vm_compute. exact I.
Defined.

(** * The priority queue *)

#[local] Instance same_but_index_refl : Reflexive same_but_index.
Proof. by intros c. Qed.

#[local] Instance same_but_index_trans : Transitive same_but_index.
Proof. unfold same_but_index. intros c1 c2 c3 H1 H2. congruence. Qed.

#[local] Instance index_only_refl : Reflexive index_only.
Proof. intros cs. unfold index_only. reflexivity. Qed.

#[local] Instance index_only_trans : Transitive index_only.
Proof. intros cs1 cs2 cs3. unfold index_only. apply transitivity. Qed.

Lemma index_only_cell_at cs cs' r :
  index_only cs cs' →
  match cell_at cs r, cell_at cs' r with
  | Ok c, Ok c' => same_but_index c c'
  | Panic, Panic => True
  | _, _ => False
  end.
Proof.
  intros H. unfold cell_at.
  destruct (cs !! r.1) as [row|] eqn:Hrow.
  - destruct (Forall2_lookup_l _ _ _ _ _ H Hrow) as (row' & -> & Hrr).
    cbn. destruct (row !! r.2) as [c|] eqn:Hc.
    + destruct (Forall2_lookup_l _ _ _ _ _ Hrr Hc) as (c' & -> & Hcc). done.
    + apply Forall2_length in Hrr. apply lookup_ge_None in Hc.
      rewrite (proj2 (lookup_ge_None row' r.2)) by lia. done.
  - apply Forall2_length in H. apply lookup_ge_None in Hrow.
    rewrite (proj2 (lookup_ge_None cs' r.1)) by lia. done.
Qed.

Lemma index_only_key cs cs' q q' r :
  index_only cs cs' → key (mkSearch cs' q') r = key (mkSearch cs q) r.
Proof.
  intros H. apply (index_only_cell_at _ _ r) in H. unfold key. cbn [cells].
  destruct (cell_at cs r) as [c| |], (cell_at cs' r) as [c'| |]; try done.
  unfold same_but_index in H. by injection H.
Qed.

Lemma cell_update_index v r (grid : CellGrid) c :
  cell_at grid r = Ok c →
  ∃ grid', cell_update (Cell.set_index v) r grid = Ok grid' ∧
           cell_at grid' r = Ok (Cell.set_index v c) ∧
           (∀ r', r' ≠ r → cell_at grid' r' = cell_at grid r') ∧
           index_only grid grid'.
Proof.
  intros Hc. unfold cell_update. rewrite Hc. cbn [mbind result_bind].
  eexists. split; [done|].
  apply cell_at_lookup in Hc as (row & Hrow & Hcell). split_and!.
  - apply cell_at_lookup. exists (<[r.2 := Cell.set_index v c]> row). split.
    + by rewrite list_lookup_alter_eq, Hrow.
    + apply list_lookup_insert_eq. by eapply lookup_lt_Some.
  - intros [i j] Hne. unfold cell_at. cbn [fst snd].
    destruct (decide (i = r.1)) as [->|Hi].
    + rewrite list_lookup_alter_eq, Hrow. cbn.
      rewrite list_lookup_insert_ne; [done|]. intros <-. by destruct r.
    + by rewrite list_lookup_alter_ne.
  - apply Forall2_alter_self; [apply _|].
    intros row' Hrow'. assert (row' = row) as -> by congruence.
    apply Forall2_insert_self; [apply _|].
    intros c' Hc'. assert (c' = c) as -> by congruence. done.
Qed.

(** The queue after the exchange of two positions, position by position. *)
Lemma lookup_swap {A} (l : list A) (i j k : nat) a b :
  l !! i = Some a → l !! j = Some b →
  <[j := a]> (<[i := b]> l) !! k =
    l !! (if decide (k = j) then i else if decide (k = i) then j else k).
Proof.
  intros Hi Hj. pose proof (lookup_lt_Some _ _ _ Hi).
  pose proof (lookup_lt_Some _ _ _ Hj).
  destruct (decide (k = j)) as [->|Hkj].
  - rewrite list_lookup_insert_eq by (by rewrite length_insert). done.
  - rewrite list_lookup_insert_ne by done.
    destruct (decide (k = i)) as [->|Hki].
    + by rewrite list_lookup_insert_eq.
    + by rewrite list_lookup_insert_ne.
Qed.

Lemma swap_Permutation {A} (l : list A) (i j : nat) a b :
  l !! i = Some a → l !! j = Some b →
  <[j := a]> (<[i := b]> l) ≡ₚ l.
Proof.
  intros Hi Hj. apply Permutation_inj. split; [by rewrite !length_insert|].
  exists (λ k, if decide (k = j) then i
               else if decide (k = i) then j else k). split.
  - intros k1 k2. repeat case_decide; lia.
  - intros k. by apply lookup_swap.
Qed.

Lemma coherent_cell s k r :
  coherent s → pq s !! k = Some r →
  ∃ c, cell_at (cells s) r = Ok c ∧ Cell.index c = Z.of_nat k.
Proof. intros [_ H]. apply H. Qed.

Lemma Less_coherent i j s :
  coherent s → 0 ≤ i < Len s → 0 ≤ j < Len s →
  Less i j s = Ok (bool_decide (key_at s i < key_at s j)).
Proof.
  intros Hs Hi Hj. unfold Len in *.
  destruct (lookup_lt_is_Some_2 (pq s) (Z.to_nat i)) as [ri Hri]; [lia|].
  destruct (lookup_lt_is_Some_2 (pq s) (Z.to_nat j)) as [rj Hrj]; [lia|].
  destruct (coherent_cell _ _ _ Hs Hri) as (ci & Hci & _).
  destruct (coherent_cell _ _ _ Hs Hrj) as (cj & Hcj & _).
  unfold Less, key_at, key.
  rewrite (proj2 (index_Ok (pq s) i ri)) by (split; [lia|done]).
  cbn [mbind result_bind]. rewrite Hci. cbn [mbind result_bind].
  rewrite (proj2 (index_Ok (pq s) j rj)) by (split; [lia|done]).
  cbn [mbind result_bind]. rewrite Hcj. cbn [mbind result_bind].
  by rewrite Hri, Hrj, Hci, Hcj.
Qed.

Lemma Swap_coherent i j s ri rj :
  coherent s → 0 ≤ i → 0 ≤ j →
  pq s !! Z.to_nat i = Some ri → pq s !! Z.to_nat j = Some rj →
  ∃ s', Swap i j s = Ok s' ∧ coherent s' ∧
        pq s' = <[Z.to_nat j := ri]> (<[Z.to_nat i := rj]> (pq s)) ∧
        index_only (cells s) (cells s').
Proof.
  intros Hs Hi Hj Hri Hrj.
  pose proof (lookup_lt_Some _ _ _ Hri) as Hli.
  pose proof (lookup_lt_Some _ _ _ Hrj) as Hlj.
  destruct (coherent_cell _ _ _ Hs Hri) as (ci & Hci & _).
  destruct (coherent_cell _ _ _ Hs Hrj) as (cj & Hcj & _).
  set (q := <[Z.to_nat j := ri]> (<[Z.to_nat i := rj]> (pq s))).
  assert (Hq : ∀ k, q !! k = pq s !! (if decide (k = Z.to_nat j) then Z.to_nat i
                                       else if decide (k = Z.to_nat i)
                                            then Z.to_nat j else k)).
  { intros k. by apply lookup_swap. }
  assert (Hqi : q !! Z.to_nat i = Some rj).
  { rewrite Hq. destruct (decide (Z.to_nat i = Z.to_nat j)) as [E|_].
    - by rewrite E.
    - by rewrite decide_True. }
  assert (Hqj : q !! Z.to_nat j = Some ri).
  { rewrite Hq. by rewrite decide_True. }
  destruct (cell_update_index i rj (cells s) cj Hcj)
    as (cs1 & Hcs1 & Hat1 & Hframe1 & Hio1).
  assert (∃ ci1, cell_at cs1 ri = Ok ci1) as [ci1 Hci1].
  { destruct (decide (ri = rj)) as [->|Hne]; [eauto|].
    rewrite Hframe1 by done. eauto. }
  destruct (cell_update_index j ri cs1 ci1 Hci1)
    as (cs2 & Hcs2 & Hat2 & Hframe2 & Hio2).
  exists (mkSearch cs2 q). split_and!.
  - unfold Swap.
    rewrite (proj2 (index_Ok (pq s) j rj)) by done. cbn [mbind result_bind].
    rewrite (proj2 (index_Ok (pq s) i ri)) by done. cbn [mbind result_bind].
    fold q. cbv zeta.
    rewrite (proj2 (index_Ok q i rj)) by done. cbn [mbind result_bind].
    rewrite Hcs1. cbn [mbind result_bind].
    rewrite (proj2 (index_Ok q j ri)) by done. cbn [mbind result_bind].
    rewrite Hcs2. done.
  - destruct Hs as [Hnd Hidx]. split; cbn [pq cells].
    + subst q. by rewrite swap_Permutation.
    + intros k r Hk.
      destruct (decide (k = Z.to_nat j)) as [->|Hkj].
      { assert (r = ri) as -> by congruence.
        exists (Cell.set_index j ci1). split; [done|]. cbn. lia. }
      destruct (decide (k = Z.to_nat i)) as [->|Hki].
      { assert (r = rj) as -> by congruence.
        assert (rj ≠ ri).
        { intros ->. apply Hkj. eapply NoDup_lookup; eauto. }
        rewrite Hframe2 by done.
        exists (Cell.set_index i cj). split; [done|]. cbn. lia. }
      rewrite Hq, decide_False, decide_False in Hk by done.
      assert (r ≠ ri).
      { intros ->. apply Hki. eapply NoDup_lookup; eauto. }
      assert (r ≠ rj).
      { intros ->. apply Hkj. eapply NoDup_lookup; eauto. }
      rewrite Hframe2, Hframe1 by done. by apply Hidx.
  - done.
  - cbn [cells]. by etrans.
Qed.

(** The scores by position after an exchange. *)
Lemma Swap_key_at i j s s' :
  coherent s → 0 ≤ i < Len s → 0 ≤ j < Len s →
  Swap i j s = Ok s' →
  coherent s' ∧ pq s' ≡ₚ pq s ∧ index_only (cells s) (cells s') ∧
  (∀ k, 0 ≤ k → pq s' !! Z.to_nat k =
                 pq s !! Z.to_nat (if decide (k = j) then i
                                   else if decide (k = i) then j else k)) ∧
  (∀ k, 0 ≤ k → key_at s' k = if decide (k = j) then key_at s i
                              else if decide (k = i) then key_at s j
                              else key_at s k).
Proof.
  intros Hs Hi Hj Hswap. unfold Len in *.
  destruct (lookup_lt_is_Some_2 (pq s) (Z.to_nat i)) as [ri Hri]; [lia|].
  destruct (lookup_lt_is_Some_2 (pq s) (Z.to_nat j)) as [rj Hrj]; [lia|].
  destruct (Swap_coherent i j s ri rj) as (s1 & Hs1 & Hcoh & Hpq & Hio);
    [done|lia|lia|done|done|].
  assert (s1 = s') as -> by congruence.
  assert (Hlook : ∀ k, 0 ≤ k → pq s' !! Z.to_nat k =
                 pq s !! Z.to_nat (if decide (k = j) then i
                                   else if decide (k = i) then j else k)).
  { intros k Hk. rewrite Hpq, (lookup_swap _ _ _ _ _ _ Hri Hrj).
    f_equal. repeat case_decide; lia. }
  split_and!; [done| |done|done|].
  - rewrite Hpq. by apply swap_Permutation.
  - intros k Hk. unfold key_at at 1. rewrite Hlook by done.
    assert (Hkey : ∀ r, key s' r = key s r).
    { intros r. destruct s, s'. by apply index_only_key. }
    clear Hri Hrj Hlook.
    destruct (decide (k = j)); [|destruct (decide (k = i))];
      unfold key_at; destruct (pq s !! _); by rewrite ?Hkey.
Qed.

Lemma Swap_out_of_range i j s :
  ¬ (0 ≤ i < Len s ∧ 0 ≤ j < Len s) → Swap i j s = Panic.
Proof.
  intros Hout. unfold Swap, Len in *.
  destruct (index (pq s) j) as [rj| |] eqn:Ej; [|done|].
  - cbn [mbind result_bind].
    destruct (index (pq s) i) as [ri| |] eqn:Ei; [|done|].
    + apply index_Ok in Ej as [? Ej%lookup_lt_Some].
      apply index_Ok in Ei as [? Ei%lookup_lt_Some]. lia.
    + unfold index in Ei. repeat case_match; done.
  - unfold index in Ej. repeat case_match; done.
Qed.

Lemma Swap_spec i j s :
  coherent s → 0 ≤ i < Len s → 0 ≤ j < Len s →
  ∃ s', Swap i j s = Ok s' ∧
        coherent s' ∧ pq s' ≡ₚ pq s ∧ index_only (cells s) (cells s') ∧
        (∀ k, 0 ≤ k → pq s' !! Z.to_nat k =
                       pq s !! Z.to_nat (if decide (k = j) then i
                                         else if decide (k = i) then j else k)) ∧
        (∀ k, 0 ≤ k → key_at s' k = if decide (k = j) then key_at s i
                                    else if decide (k = i) then key_at s j
                                    else key_at s k).
Proof.
  intros Hs Hi Hj. pose proof Hi as Hi'. pose proof Hj as Hj'.
  unfold Len in Hi', Hj'.
  destruct (lookup_lt_is_Some_2 (pq s) (Z.to_nat i)) as [ri Hri]; [lia|].
  destruct (lookup_lt_is_Some_2 (pq s) (Z.to_nat j)) as [rj Hrj]; [lia|].
  destruct (Swap_coherent i j s ri rj) as (s' & Hs' & _);
    [done|lia|lia|done|done|].
  exists s'. split; [done|]. by apply (Swap_key_at i j s s').
Qed.

Lemma Len_Permutation s s' : pq s' ≡ₚ pq s → Len s' = Len s.
Proof. intros H. unfold Len. by rewrite H. Qed.

Lemma key_index_only s s' r :
  index_only (cells s) (cells s') → key s' r = key s r.
Proof. destruct s, s'. apply index_only_key. Qed.

Lemma Push_spec r s c :
  coherent s → r ∉ pq s → cell_at (cells s) r = Ok c →
  ∃ s', Push r s = Ok s' ∧ coherent s' ∧ pq s' = pq s ++ [r] ∧
        index_only (cells s) (cells s') ∧
        cell_at (cells s') r = Ok (Cell.set_index (Len s) c) ∧
        cells_but r s s'.
Proof.
  intros [Hnd Hidx] Hnew Hc.
  destruct (cell_update_index (Len s) r (cells s) c Hc)
    as (cs & Hcs & Hat & Hframe & Hio).
  exists (mkSearch cs (pq s ++ [r])). unfold Push. rewrite Hcs.
  split_and!; try done. split; cbn [pq cells].
  - apply NoDup_app. split_and!; [done| |apply NoDup_singleton].
    intros r' Hin ->%list_elem_of_singleton. done.
  - intros k r' Hk. apply lookup_app_Some in Hk as [Hk|[Hlen Hk]].
    + rewrite Hframe; [by apply Hidx|].
      intros ->. apply Hnew. by eapply list_elem_of_lookup_2.
    + apply list_lookup_singleton_Some in Hk as [Hk ->].
      eexists. split; [done|]. cbn. unfold Len. lia.
Qed.

Lemma Pop_spec q r s :
  coherent s → pq s = q ++ [r] →
  ∃ s' c, Pop s = Ok (r, s') ∧ coherent s' ∧ pq s' = q ∧
          index_only (cells s) (cells s') ∧
          cell_at (cells s) r = Ok c ∧
          cell_at (cells s') r = Ok (Cell.set_index (-1) c) ∧
          cells_but r s s'.
Proof.
  intros [Hnd Hidx] Hpq.
  assert (Hlast : pq s !! length q = Some r).
  { rewrite Hpq. by apply list_lookup_middle. }
  destruct (Hidx _ _ Hlast) as (c & Hc & _).
  destruct (cell_update_index (-1) r (cells s) c Hc)
    as (cs & Hcs & Hat & Hframe & Hio).
  assert (Hn : Len s - 1 = Z.of_nat (length q)).
  { unfold Len. rewrite Hpq, length_app. cbn. lia. }
  exists (mkSearch cs q), c. unfold Pop. cbv zeta. rewrite Hn.
  rewrite (proj2 (index_Ok (pq s) _ r)) by (rewrite Nat2Z.id; split; [lia|done]).
  cbn [mbind result_bind]. rewrite Hcs. cbn [mbind result_bind].
  rewrite Nat2Z.id, Hpq, take_app_length.
  split_and!; try done. rewrite Hpq in Hnd, Hidx.
  apply NoDup_app in Hnd as (Hndq & Hnotin & _).
  split; cbn [pq cells]; [done|].
  intros k r' Hk. rewrite Hframe.
  - apply Hidx. by apply lookup_app_l_Some.
  - intros ->. eapply Hnotin; [by eapply list_elem_of_lookup_2|].
    by apply list_elem_of_singleton.
Qed.

Lemma Pop_empty s : pq s = [] → Pop s = Panic.
Proof. intros H. unfold Pop, Len. by rewrite H. Qed.

(** [heap.up] on a coherent queue returns within its step budget; if only
    position [j] was out of order, the queue is a heap afterwards. *)
Lemma up_loop_spec fuel : ∀ j s,
  coherent s → 0 ≤ j < Len s → (Z.to_nat j < fuel)%nat →
  ∃ s', up_loop fuel j s = Ok s' ∧ coherent s' ∧ pq s' ≡ₚ pq s ∧
        index_only (cells s) (cells s') ∧
        (heap_but_up s j → heap_ordered s' (Len s)).
Proof.
  induction fuel as [|fuel IH]; intros j s Hs Hj Hfuel; [lia|].
  cbn [up_loop]. cbv zeta.
  assert (Hi : ∃ i, (j - 1) `quot` 2 = i ∧
                    ((j = 0 ∧ i = 0) ∨ (0 ≤ i ∧ child_of i j))).
  { eexists. split; [done|]. unfold child_of. Z.quot_rem_to_equations. lia. }
  destruct Hi as (i & -> & Hi).
  destruct (decide (i = j)) as [Heq|Hne].
  { exists s. split_and!; try done.
    intros [Hup _] p c Hp Hc Hpc. apply Hup; try done. unfold child_of in *. lia. }
  destruct Hi as [[? ?]|[Hi Hij]]; [lia|].
  assert (i < j) by (unfold child_of in Hij; lia).
  rewrite Less_coherent by (done || lia). cbn [mbind result_bind].
  destruct (bool_decide_reflect (key_at s j < key_at s i)) as [Hlt|Hge];
    cbn [negb].
  2:{ exists s. split_and!; try done.
      intros [Hup _] p c Hp Hc Hpc.
      destruct (decide (c = j)) as [->|Hcj]; [|by apply Hup].
      assert (p = i) as -> by (unfold child_of in *; lia). lia. }
  destruct (Swap_spec i j s) as (s1 & -> & Hs1 & Hperm1 & Hio1 & _ & Hkey);
    [done|lia|lia|].
  cbn [mbind result_bind].
  pose proof (Len_Permutation _ _ Hperm1) as Hlen1.
  destruct (IH i s1) as (s' & -> & Hs' & Hperm & Hio & Hord);
    [done|lia|lia|].
  exists s'. split_and!; [done|done|by etrans|by etrans|].
  intros [Hup1 Hup2]. rewrite <- Hlen1. apply Hord.
  unfold heap_but_up. rewrite Hlen1. split.
  - intros p c Hp Hc Hpc Hci. rewrite !Hkey by (unfold child_of in *; lia).
    pose proof (Hup1 p c). pose proof (Hup1 i c). pose proof (Hup2 i c).
    unfold child_of in *. repeat case_decide; lia.
  - intros g c Hg Hc Hgi Hic. rewrite !Hkey by (unfold child_of in *; lia).
    pose proof (Hup1 g i). pose proof (Hup1 i c).
    unfold child_of in *. repeat case_decide; lia.
Qed.

Lemma wrap_small z : - 2 ^ 63 ≤ z < 2 ^ 63 → wrap z = z.
Proof. apply wrap_int. Qed.

(** [heap.down] likewise; it leaves the positions from [n] on alone. *)
Lemma down_loop_spec fuel : ∀ i n s,
  coherent s → 0 ≤ i ≤ Len s → n ≤ Len s → Len s < 2 ^ 62 →
  (Z.to_nat (n - i) < fuel)%nat →
  ∃ i' s', down_loop fuel i n s = Ok (i', s') ∧
           i ≤ i' ∧
           (i' = i → s' = s ∧
                     ∀ c, c < n → child_of i c → key_at s i ≤ key_at s c) ∧
           (i < i' → ∃ j, child_of i j ∧ j < n ∧ key_at s j < key_at s i) ∧
           coherent s' ∧ pq s' ≡ₚ pq s ∧
           index_only (cells s) (cells s') ∧
           (∀ k, n ≤ k → pq s' !! Z.to_nat k = pq s !! Z.to_nat k) ∧
           (heap_but_down s i n → heap_ordered s' n).
Proof.
  induction fuel as [|fuel IH]; intros i n s Hs Hi Hn Hsmall Hfuel; [lia|].
  cbn [down_loop]. cbv zeta.
  rewrite wrap_small by lia.
  remember (2 * i + 1) as j1 eqn:Hj1.
  destruct (decide (j1 >= n ∨ j1 < 0)) as [Hout|Hin].
  { exists i, s. split_and!; try done; [| lia |].
    - intros _. split; [done|]. intros c Hc Hic. unfold child_of in *. lia.
    - intros [Hd _] p c Hp Hc Hpc. apply Hd; try done.
      unfold child_of in *. lia. }
  remember (j1 + 1) as j2 eqn:Hj2.
  assert (Hj1n : 0 ≤ j1 < n) by lia.
  assert (Hpick : ∃ (lt21 : bool) j,
            (if decide (j2 < n) then Less j2 j1 s else Ok false) = Ok lt21 ∧
            (if lt21 then j2 else j1) = j ∧
            child_of i j ∧ j < n ∧
            ∀ c, c < n → child_of i c → key_at s j ≤ key_at s c).
  { destruct (decide (j2 < n)) as [Hj2n|Hj2n].
    - rewrite Less_coherent by (done || lia).
      destruct (bool_decide_reflect (key_at s j2 < key_at s j1)) as [Hlt|Hge].
      + exists true, j2. split_and!; try done; [right; lia|]. intros c Hc Hic.
        assert (c = j1 ∨ c = j2) as [-> | ->] by (unfold child_of in *; lia); lia.
      + exists false, j1. split_and!; try done; [left; lia|lia|]. intros c Hc Hic.
        assert (c = j1 ∨ c = j2) as [-> | ->] by (unfold child_of in *; lia); lia.
    - exists false, j1. split_and!; try done; [left; lia|lia|].
      intros c Hc Hic.
      assert (c = j1) as -> by (unfold child_of in *; lia). lia. }
  destruct Hpick as (lt21 & j & -> & Hj & Hij & Hjn & Hmin).
  cbn [mbind result_bind]. rewrite Hj. clear Hj Hj1 Hj2 Hj1n Hin.
  assert (i < j) by (unfold child_of in Hij; lia).
  rewrite Less_coherent by (done || lia). cbn [mbind result_bind].
  destruct (bool_decide_reflect (key_at s j < key_at s i)) as [Hlt|Hge];
    cbn [negb].
  2:{ exists i, s. split_and!; try done; [| lia |].
      - intros _. split; [done|]. intros c Hc Hic.
        specialize (Hmin c Hc Hic). lia.
      - intros [Hd _] p c Hp Hc Hpc.
        destruct (decide (p = i)) as [->|Hpi]; [|by apply Hd].
        specialize (Hmin c Hc Hpc). lia. }
  destruct (Swap_spec i j s) as (s1 & -> & Hs1 & Hperm1 & Hio1 & Hpq1 & Hkey);
    [done|lia|lia|].
  cbn [mbind result_bind].
  pose proof (Len_Permutation _ _ Hperm1) as Hlen1.
  destruct (IH j n s1)
    as (i' & s' & -> & Hle & _ & _ & Hs' & Hperm & Hio & Hrest & Hord);
    [done|lia|lia|lia|lia|].
  exists i', s'. split_and!; [done|lia|lia|by eauto|done|by etrans|by etrans| |].
  - intros k Hk. rewrite Hrest, Hpq1 by lia.
    by rewrite !decide_False by lia.
  - intros [Hd1 Hd2]. apply Hord. split.
    + intros p c Hp Hc Hpc Hpj. rewrite !Hkey by (unfold child_of in *; lia).
      pose proof (Hmin c). pose proof (Hd2 p j). pose proof (Hd1 p c).
      unfold child_of in *. repeat case_decide; lia.
    + intros g c Hg Hc Hgj Hjc. rewrite !Hkey by (unfold child_of in *; lia).
      pose proof (Hd1 j c).
      unfold child_of in *. repeat case_decide; lia.
Qed.

(** In a heap no score is below that of the root. *)
Lemma heap_root_least s n :
  heap_ordered s n → ∀ c, 0 ≤ c < n → key_at s 0 ≤ key_at s c.
Proof.
  intros Hord c [Hc0 Hcn]. revert Hcn. pattern c.
  apply Z_lt_induction; [|done]. clear c Hc0. intros c IH Hcn.
  destruct (decide (c ≤ 0)) as [Hle|Hne].
  { destruct (decide (c = 0)) as [->|?]; [lia|].
    unfold key_at. replace (Z.to_nat c) with (Z.to_nat 0) by lia. lia. }
  assert (∃ p, 0 ≤ p < c ∧ (c = 2 * p + 1 ∨ c = 2 * p + 2)) as (p & Hp & Hpc).
  { exists ((c - 1) / 2). Z.div_mod_to_equations. lia. }
  specialize (IH p). specialize (Hord p c). lia.
Qed.

Lemma key_at_lookup s k r : pq s !! Z.to_nat k = Some r → key_at s k = key s r.
Proof. intros H. unfold key_at. by rewrite H. Qed.

Lemma key_at_agree s s' k :
  index_only (cells s) (cells s') →
  pq s' !! Z.to_nat k = pq s !! Z.to_nat k →
  key_at s' k = key_at s k.
Proof.
  intros Hio Hpq. unfold key_at. rewrite Hpq.
  destruct (pq s !! _); [|done]. by apply key_index_only.
Qed.


Lemma heap_Pop_spec s :
  coherent s → 0 < Len s < 2 ^ 62 →
  ∃ r s', heap_Pop s = Ok (r, s') ∧ pq s !! 0%nat = Some r ∧
          coherent s' ∧ pq s ≡ₚ r :: pq s' ∧
          index_only (cells s) (cells s') ∧
          (heap_ordered s (Len s) →
           heap_ordered s' (Len s') ∧
           ∀ r', r' ∈ pq s → key s r ≤ key s r').
Proof.
  intros Hs Hlen.
  destruct (Swap_spec 0 (Len s - 1) s)
    as (s1 & Hswap & Hs1 & Hperm1 & Hio1 & Hpq1 & Hkey1); [done|lia|lia|].
  pose proof (Len_Permutation _ _ Hperm1) as Hlen1.
  destruct (down_loop_spec (S (Z.to_nat (Len s - 1))) 0 (Len s - 1) s1)
    as (i' & s2 & Hdown & _ & _ & _ & Hs2 & Hperm2 & Hio2 & Hrest & Hord);
    [done|lia|lia|lia|lia|].
  pose proof (Len_Permutation _ _ Hperm2) as Hlen2.
  destruct (lookup_lt_is_Some_2 (pq s) 0) as [r Hr]; [unfold Len in *; lia|].
  assert (Hlast : pq s2 !! Z.to_nat (Len s - 1) = Some r).
  { rewrite Hrest, Hpq1 by lia. by rewrite decide_True. }
  set (q := take (Z.to_nat (Len s - 1)) (pq s2)).
  assert (Hsplit : pq s2 = q ++ [r]).
  { subst q. rewrite <- (take_S_r _ _ _ Hlast).
    symmetry. apply take_ge. unfold Len in *. lia. }
  destruct (Pop_spec q r s2) as (s3 & c & Hpop & Hs3 & Hpq3 & Hio3 & _);
    [done..|].
  exists r, s3. unfold heap_Pop, down. cbv zeta.
  rewrite Hswap. cbn [mbind result_bind]. rewrite Hdown.
  cbn [mbind result_bind]. rewrite Hpop.
  split_and!; [done|done|done| |by etrans; [etrans|]|].
  { rewrite Hpq3, <- Hperm1, <- Hperm2, Hsplit.
    by rewrite <- Permutation_cons_append. }
  intros Hheap.
  assert (Hlen3 : Len s3 = Len s - 1).
  { unfold Len in *. rewrite Hpq3. subst q. rewrite length_take. lia. }
  split.
  - rewrite Hlen3.
    assert (Hheap2 : heap_ordered s2 (Len s - 1)).
    { apply Hord. split.
      - intros p c' Hp Hc' Hpc Hne. unfold child_of in Hpc.
        rewrite !Hkey1 by lia. rewrite !decide_False by lia.
        apply Hheap; [done|lia|done].
      - intros g c' Hg Hc' Hg0. unfold child_of in Hg0. lia. }
    intros p c' Hp Hc' Hpc.
    assert (Hkey3 : ∀ k, 0 ≤ k < Len s - 1 → key_at s3 k = key_at s2 k).
    { intros k Hk. apply key_at_agree; [done|]. rewrite Hpq3. subst q.
      apply lookup_take_lt. lia. }
    rewrite !Hkey3 by lia. by apply Hheap2.
  - intros r' [k Hk]%list_elem_of_lookup_1.
    pose proof (lookup_lt_Some _ _ _ Hk) as Hklt.
    pose proof (heap_root_least s (Len s) Hheap (Z.of_nat k)) as Hleast.
    rewrite (key_at_lookup s 0 r), (key_at_lookup s (Z.of_nat k) r') in Hleast
      by (by rewrite ?Nat2Z.id).
    apply Hleast. unfold Len. lia.
Qed.

Lemma heap_Pop_empty s : pq s = [] → heap_Pop s = Panic.
Proof. intros H. unfold heap_Pop, Swap, Len. by rewrite H. Qed.

Lemma heap_Fix_spec i s :
  coherent s → 0 ≤ i < Len s → Len s < 2 ^ 62 →
  ∃ s', heap_Fix i s = Ok s' ∧ coherent s' ∧ pq s' ≡ₚ pq s ∧
        index_only (cells s) (cells s') ∧
        (heap_but s i → heap_ordered s' (Len s)).
Proof.
  intros Hs Hi Hlen.
  destruct (down_loop_spec (S (Z.to_nat (Len s))) i (Len s) s)
    as (i' & s1 & Hdown & Hle & Hstay & Hmoved & Hs1 & Hperm1 & Hio1 & _ & Hord);
    [done|lia|lia|lia|lia|].
  unfold heap_Fix, down. rewrite Hdown. cbn [mbind result_bind].
  destruct (bool_decide_reflect (i' > i)) as [Hgt|Hngt]; cbn [negb].
  - exists s1. split_and!; try done. intros [Hb1 Hb2]. apply Hord.
    destruct Hmoved as (j & Hij & Hj & Hlt); [lia|]. split; [|done].
    intros p c Hp Hc Hpc Hpi.
    destruct (decide (c = i)) as [->|Hci]; [|by apply Hb1].
    specialize (Hb2 p j Hp Hj Hpc Hij). lia.
  - assert (i' = i) as -> by lia. destruct Hstay as [-> Hchildren]; [done|].
    destruct (up_loop_spec (S (Z.to_nat i)) i s)
      as (s' & Hup & Hs' & Hperm & Hio & Hordup); [done|lia|lia|].
    exists s'. unfold up. rewrite Hup. split_and!; try done.
    intros [Hb1 Hb2]. apply Hordup. split; [|done].
    intros p c Hp Hc Hpc Hci.
    destruct (decide (p = i)) as [->|Hpi]; [by apply Hchildren|by apply Hb1].
Qed.

Lemma cell_update_frame upd r (grid : CellGrid) c :
  cell_at grid r = Ok c →
  ∃ grid', cell_update upd r grid = Ok grid' ∧
           cell_at grid' r = Ok (upd c) ∧
           ∀ r', r' ≠ r → cell_at grid' r' = cell_at grid r'.
Proof.
  intros Hc. unfold cell_update. rewrite Hc. cbn [mbind result_bind].
  eexists. split; [done|].
  apply cell_at_lookup in Hc as (row & Hrow & Hcell). split.
  - apply cell_at_lookup. exists (<[r.2 := upd c]> row). split.
    + by rewrite list_lookup_alter_eq, Hrow.
    + apply list_lookup_insert_eq. by eapply lookup_lt_Some.
  - intros [i j] Hne. unfold cell_at. cbn [fst snd].
    destruct (decide (i = r.1)) as [->|Hi].
    + rewrite list_lookup_alter_eq, Hrow. cbn.
      rewrite list_lookup_insert_ne; [done|]. intros <-. by destruct r.
    + by rewrite list_lookup_alter_ne.
Qed.


Lemma queue3_coherent : coherent queue3.
Proof.
  split.
  - apply (bool_decide_unpack _). vm_compute. exact I.
  - intros [|[|[|k]]] r; intros [= <-]; eexists; split; reflexivity.
Qed.


(** X17: on a queue in which every queued cell records its own position,
    [Swap] with both positions in range exchanges the two pointers, leaves
    the other positions and every field of every cell but the heap index
    alone, and the cells again record their positions; with a position out
    of range it panics. *)
Theorem Swap_exchanges_and_keeps_index i j s :
  coherent s →
  if decide (0 ≤ i < Len s ∧ 0 ≤ j < Len s) then
    ∃ s', Swap i j s = Ok s' ∧ coherent s' ∧ pq s' ≡ₚ pq s ∧
          index_only (cells s) (cells s') ∧
          pq s' !! Z.to_nat i = pq s !! Z.to_nat j ∧
          pq s' !! Z.to_nat j = pq s !! Z.to_nat i ∧
          ∀ k, k ≠ Z.to_nat i → k ≠ Z.to_nat j → pq s' !! k = pq s !! k
  else Swap i j s = Panic.
Proof.
  intros Hs. destruct (decide _) as [[Hi Hj]|Hout];
    [|by apply Swap_out_of_range].
  destruct (Swap_spec i j s) as (s' & Hswap & Hs' & Hperm & Hio & Hpq & _);
    [done..|].
  exists s'. split_and!; try done.
  - rewrite Hpq by lia. destruct (decide (i = j)) as [->|_]; [done|].
    by rewrite decide_True.
  - rewrite Hpq by lia. by rewrite decide_True.
  - intros k Hki Hkj. specialize (Hpq (Z.of_nat k)).
    rewrite Nat2Z.id in Hpq. rewrite Hpq by lia.
    rewrite !decide_False by lia. by rewrite Nat2Z.id.
Qed.

Lemma Swap_exchanges_and_keeps_index_witness :
  if decide (0 ≤ 0 < Len queue3 ∧ 0 ≤ 2 < Len queue3) then
    ∃ s', Swap 0 2 queue3 = Ok s' ∧ coherent s' ∧ pq s' ≡ₚ pq queue3 ∧
          index_only (cells queue3) (cells s') ∧
          pq s' !! Z.to_nat 0 = pq queue3 !! Z.to_nat 2 ∧
          pq s' !! Z.to_nat 2 = pq queue3 !! Z.to_nat 0 ∧
          ∀ k, k ≠ Z.to_nat 0 → k ≠ Z.to_nat 2 → pq s' !! k = pq queue3 !! k
  else Swap 0 2 queue3 = Panic.
Proof.
  apply (Swap_exchanges_and_keeps_index 0 2 queue3). exact queue3_coherent.
Defined.

(** X18: [Push] of a cell that is not queued appends its pointer and
    records the new last position in it; [Pop] takes the last pointer off
    and records -1 in its cell; either way every other cell is untouched
    and the queued cells still record their positions.  [Pop] after [Push]
    returns the pointer pushed and restores the queue.  [Pop] on the empty
    queue panics. *)
Theorem Push_then_Pop r c s :
  coherent s → r ∉ pq s → cell_at (cells s) r = Ok c →
  ∃ s1 s2,
    Push r s = Ok s1 ∧ coherent s1 ∧ pq s1 = pq s ++ [r] ∧
    cell_at (cells s1) r = Ok (Cell.set_index (Len s) c) ∧ cells_but r s s1 ∧
    Pop s1 = Ok (r, s2) ∧ coherent s2 ∧ pq s2 = pq s ∧
    cell_at (cells s2) r = Ok (Cell.set_index (-1) c) ∧ cells_but r s s2 ∧
    (pq s = [] → Pop s = Panic).
Proof.
  intros Hs Hnew Hc.
  destruct (Push_spec r s c) as (s1 & Hpush & Hs1 & Hpq1 & _ & Hat1 & Hbut1);
    [done..|].
  destruct (Pop_spec (pq s) r s1)
    as (s2 & c1 & Hpop & Hs2 & Hpq2 & _ & Hc1 & Hat2 & Hbut2); [done..|].
  exists s1, s2. split_and!; try done.
  - rewrite Hat2. f_equal. assert (c1 = Cell.set_index (Len s) c) as ->
      by congruence. done.
  - intros r' Hr'. by rewrite Hbut2, Hbut1.
  - apply Pop_empty.
Qed.

Lemma Push_then_Pop_witness :
  ∃ s1 s2,
    Push (0, 3)%nat queue3 = Ok s1 ∧ coherent s1 ∧
    pq s1 = pq queue3 ++ [(0, 3)%nat] ∧
    cell_at (cells s1) (0, 3)%nat =
      Ok (Cell.set_index (Len queue3) (Cell.mk 3 0 false 0 0 0 None 0 [])) ∧
    cells_but (0, 3)%nat queue3 s1 ∧
    Pop s1 = Ok ((0, 3)%nat, s2) ∧ coherent s2 ∧ pq s2 = pq queue3 ∧
    cell_at (cells s2) (0, 3)%nat =
      Ok (Cell.set_index (-1) (Cell.mk 3 0 false 0 0 0 None 0 [])) ∧
    cells_but (0, 3)%nat queue3 s2 ∧
    (pq queue3 = [] → Pop queue3 = Panic).
Proof.
  apply (Push_then_Pop (0, 3)%nat _ queue3).
  - exact queue3_coherent.
  - apply (bool_decide_unpack _). vm_compute. exact I.
  - reflexivity.
Defined.

(** X19: [heap.Push] of a cell that is not queued returns a queue that
    holds the cells queued before and the new one, changes no field of any
    cell but heap indices, keeps every queued cell recording its position,
    and keeps a queue that was a min-heap on [f] a min-heap. *)
Theorem heap_Push_keeps_heap r c s :
  coherent s → r ∉ pq s → cell_at (cells s) r = Ok c →
  ∃ s', heap_Push r s = Ok s' ∧ coherent s' ∧ pq s' ≡ₚ r :: pq s ∧
        index_only (cells s) (cells s') ∧
        (heap_ordered s (Len s) → heap_ordered s' (Len s')).
Proof.
  intros Hs Hnew Hc.
  destruct (Push_spec r s c) as (s1 & Hpush & Hs1 & Hpq1 & Hio1 & _);
    [done..|].
  assert (Hlen1 : Len s1 = Len s + 1).
  { unfold Len. rewrite Hpq1, length_app. cbn. lia. }
  destruct (up_loop_spec (S (Z.to_nat (Len s1 - 1))) (Len s1 - 1) s1)
    as (s' & Hup & Hs' & Hperm & Hio & Hord); [done|unfold Len in *; lia|lia|].
  exists s'. unfold heap_Push. rewrite Hpush. cbn [mbind result_bind].
  split_and!; [done|done| |by etrans|].
  - rewrite Hperm, Hpq1. by rewrite <- Permutation_cons_append.
  - intros Hheap. rewrite (Len_Permutation _ _ Hperm). apply Hord.
    assert (Hkey : ∀ k, 0 ≤ k < Len s → key_at s1 k = key_at s k).
    { intros k Hk. apply key_at_agree; [done|]. rewrite Hpq1.
      apply lookup_app_l. unfold Len in Hk. lia. }
    split.
    + intros p c' Hp Hc' Hpc Hne. unfold child_of in Hpc.
      rewrite !Hkey by lia. apply Hheap; [done|lia|done].
    + intros g c' Hg Hc' Hgj Hjc. unfold child_of in *. lia.
Qed.

Lemma heap_Push_keeps_heap_witness :
  ∃ s', heap_Push (0, 3)%nat queue3 = Ok s' ∧ coherent s' ∧
        pq s' ≡ₚ (0, 3)%nat :: pq queue3 ∧
        index_only (cells queue3) (cells s') ∧
        (heap_ordered queue3 (Len queue3) → heap_ordered s' (Len s')).
Proof.
  apply (heap_Push_keeps_heap (0, 3)%nat (Cell.mk 3 0 false 0 0 0 None 0 [])
           queue3).
  - exact queue3_coherent.
  - apply (bool_decide_unpack _). vm_compute. exact I.
  - reflexivity.
Defined.

(** X20: on a queue whose cells record their positions, [heap.Pop] panics
    exactly when the queue is empty; otherwise it returns the pointer at the
    root and the queue of the remaining pointers, changing heap indices
    only; and if the queue was a min-heap on [f], the remaining queue is
    one and no queued cell had a smaller [f] than the one returned. *)
Theorem heap_Pop_returns_least s :
  coherent s → Len s < 2 ^ 62 →
  match heap_Pop s with
  | Ok (r, s') =>
      pq s !! 0%nat = Some r ∧ coherent s' ∧ pq s ≡ₚ r :: pq s' ∧
      index_only (cells s) (cells s') ∧
      (heap_ordered s (Len s) →
       heap_ordered s' (Len s') ∧ ∀ r', r' ∈ pq s → key s r ≤ key s r')
  | Panic => pq s = []
  | OutOfFuel => False
  end.
Proof.
  intros Hs Hlen. destruct (decide (pq s = [])) as [Hq|Hq].
  { by rewrite heap_Pop_empty. }
  destruct (heap_Pop_spec s) as (r & s' & -> & H); [done| |done].
  split; [|done]. unfold Len. destruct (pq s); [done|]. cbn [length]. lia.
Qed.

Lemma heap_Pop_returns_least_witness :
  match heap_Pop queue3 with
  | Ok (r, s') =>
      pq queue3 !! 0%nat = Some r ∧ coherent s' ∧ pq queue3 ≡ₚ r :: pq s' ∧
      index_only (cells queue3) (cells s') ∧
      (heap_ordered queue3 (Len queue3) →
       heap_ordered s' (Len s') ∧
       ∀ r', r' ∈ pq queue3 → key queue3 r ≤ key queue3 r')
  | Panic => pq queue3 = []
  | OutOfFuel => False
  end.
Proof.
  apply (heap_Pop_returns_least queue3).
  - exact queue3_coherent.
  - vm_compute. reflexivity.
Defined.

(** X21: [update] of a queued cell assigns its [g], [h] and [f] = g + h
    (wrapped) and restores the heap: the queue holds the same cells, every
    cell but the updated one keeps all its fields but the heap index, the
    queued cells record their positions, and a queue that was a min-heap on
    [f] before is one afterwards. *)
Theorem update_keeps_heap item g h s k :
  coherent s → pq s !! k = Some item → Len s < 2 ^ 62 →
  ∃ s' c cs,
    update item g h s = Ok s' ∧ coherent s' ∧ pq s' ≡ₚ pq s ∧
    cell_at (cells s) item = Ok c ∧
    cell_at cs item = Ok (rescored g h c) ∧
    (∀ r, r ≠ item → cell_at cs r = cell_at (cells s) r) ∧
    index_only cs (cells s') ∧
    (heap_ordered s (Len s) → heap_ordered s' (Len s')).
Proof.
  intros Hs Hk Hlen. pose proof Hs as [Hnd Hidx].
  destruct (Hidx _ _ Hk) as (c & Hc & Hindex).
  destruct (cell_update_frame (Cell.set_g g) item (cells s) c Hc)
    as (cs1 & Hcs1 & Hat1 & Hframe1).
  destruct (cell_update_frame (Cell.set_h h) item cs1 _ Hat1)
    as (cs2 & Hcs2 & Hat2 & Hframe2).
  destruct (cell_update_frame (Cell.set_f (wrap (g + h))) item cs2 _ Hat2)
    as (cs3 & Hcs3 & Hat3 & Hframe3).
  assert (Hframe : ∀ r, r ≠ item → cell_at cs3 r = cell_at (cells s) r).
  { intros r Hr. by rewrite Hframe3, Hframe2, Hframe1. }
  set (s0 := mkSearch cs3 (pq s)).
  assert (Hs0 : coherent s0).
  { split; [done|]. cbn [pq cells]. intros k' r Hk'.
    destruct (decide (r = item)) as [->|Hr].
    - assert (k' = k) as -> by (eapply NoDup_lookup; eauto).
      eexists. split; [exact Hat3|]. done.
    - rewrite Hframe by done. by apply Hidx. }
  assert (Hklt : Z.of_nat k < Len s).
  { apply lookup_lt_Some in Hk. unfold Len. lia. }
  destruct (heap_Fix_spec (Z.of_nat k) s0)
    as (s' & Hfix & Hs' & Hperm & Hio & Hord);
    [done|change (Len s0) with (Len s); lia|exact Hlen|].
  exists s', c, cs3. unfold update.
  rewrite Hcs1. cbn [mbind result_bind]. rewrite Hcs2. cbn [mbind result_bind].
  rewrite Hcs3. cbn [mbind result_bind]. rewrite Hat3. cbn [mbind result_bind].
  change (Cell.index (Cell.set_f _ _)) with (Cell.index c). rewrite Hindex.
  split_and!; try done.
  intros Hheap. rewrite (Len_Permutation _ _ Hperm). apply Hord.
  assert (Hkey : ∀ p, 0 ≤ p → p ≠ Z.of_nat k → key_at s0 p = key_at s p).
  { intros p Hp Hpk. unfold key_at. change (pq s0) with (pq s).
    destruct (pq s !! Z.to_nat p) as [r|] eqn:Hr; [|done].
    unfold key. change (cells s0) with cs3. rewrite Hframe; [done|].
    intros ->. apply Hpk.
    assert (Z.to_nat p = k) by (eapply NoDup_lookup; eauto). lia. }
  split.
  - intros p c' Hp Hc' Hpc Hpi Hci. unfold child_of in Hpc.
    rewrite !Hkey by lia. by apply Hheap.
  - intros gp c' Hg Hc' Hgi Hic. unfold child_of in *.
    rewrite !Hkey by lia.
    pose proof (Hheap gp (Z.of_nat k)). pose proof (Hheap (Z.of_nat k) c').
    change (Len s0) with (Len s) in Hc'. lia.
Qed.

Lemma update_keeps_heap_witness :
  ∃ s' c cs,
    update (0, 1)%nat 0 0 queue3 = Ok s' ∧ coherent s' ∧
    pq s' ≡ₚ pq queue3 ∧
    cell_at (cells queue3) (0, 1)%nat = Ok c ∧
    cell_at cs (0, 1)%nat = Ok (rescored 0 0 c) ∧
    (∀ r, r ≠ (0, 1)%nat → cell_at cs r = cell_at (cells queue3) r) ∧
    index_only cs (cells s') ∧
    (heap_ordered queue3 (Len queue3) → heap_ordered s' (Len s')).
Proof.
  apply (update_keeps_heap (0, 1)%nat 0 0 queue3 1).
  - exact queue3_coherent.
  - reflexivity.
  - vm_compute. reflexivity.
Defined.

(** * When a turn returns *)

Lemma candidate_eligible p :
  candidate p = true ↔ eligible 10 p ∨ eligible 1 p.
Proof.
  unfold candidate, eligible.
  destruct (Pellet.Consumed p), (Pellet.Targeted p);
    rewrite ?andb_false_r, ?andb_true_r; cbn;
    try (split; [done|intros [(_ & ? & ?)|(_ & ? & ?)]; done]).
  rewrite orb_true_iff, !bool_decide_eq_true. tauto.
Qed.

(** The slots of the elements of a list that satisfy a test. *)
Lemma filter_slots {A} (P : A → Prop) `{!∀ x, Decision (P x)} (l : list A) :
  ∃ res, NoDup res ∧ length res = length (filter P l) ∧
         ∀ i, i ∈ res → ∃ x, l !! i = Some x ∧ P x.
Proof.
  induction l as [|x l (res & Hnd & Hlen & Hres)] using rev_ind.
  { exists []. split_and!; [constructor|done|]. by intros i ?%elem_of_nil. }
  rewrite filter_app, length_app.
  destruct (decide (P x)) as [Hx|Hx].
  - exists (res ++ [length l]). split_and!.
    + apply NoDup_app. split_and!; [done| |apply NoDup_singleton].
      intros i Hi ->%list_elem_of_singleton.
      destruct (Hres _ Hi) as (y & Hy%lookup_lt_Some & _). lia.
    + rewrite length_app, Hlen, filter_cons_True by done. done.
    + intros i [Hi| ->%list_elem_of_singleton]%elem_of_app.
      * destruct (Hres _ Hi) as (y & Hy & HP). exists y.
        split; [|done]. by apply lookup_app_l_Some.
      * exists x. split; [|done]. by apply list_lookup_middle.
  - exists res. split_and!; [done| |].
    + rewrite Hlen, filter_cons_False by done. cbn. lia.
    + intros i Hi. destruct (Hres _ Hi) as (y & Hy & HP). exists y.
      split; [|done]. by apply lookup_app_l_Some.
Qed.

Lemma evolves_stationed sp g g' :
  evolves g g' → stationed sp g → stationed sp g'.
Proof.
  intros [_ Hopp Hmine _] Hst pac Hin.
  apply elem_of_app in Hin as [Hin|Hin].
  - apply list_elem_of_lookup_1 in Hin as [i Hi].
    destruct (Forall2_lookup_r _ _ _ _ _ Hmine Hi) as (pac0 & H0 & Hm).
    destruct Hm as (_ & _ & -> & -> & _).
    apply Hst, elem_of_app. left. by eapply list_elem_of_lookup_2.
  - apply Hst, elem_of_app. right. by rewrite <- Hopp.
Qed.

Lemma evolves_placed g g' : evolves g g' → placed g → placed g'.
Proof.
  intros [Hgrid _ Hmine Hpel] [Hpacs Hpellets]. split.
  - intros pac [i Hi]%list_elem_of_lookup_1.
    destruct (Forall2_lookup_r _ _ _ _ _ Hmine Hi) as (pac0 & H0 & Hm).
    destruct Hm as (_ & _ & -> & -> & _). rewrite Hgrid.
    by eapply Hpacs, list_elem_of_lookup_2.
  - intros p [i Hi]%list_elem_of_lookup_1.
    destruct (Forall2_lookup_r _ _ _ _ _ Hpel Hi) as (p0 & H0 & Hk).
    destruct Hk as (-> & -> & _). rewrite Hgrid.
    by eapply Hpellets, list_elem_of_lookup_2.
Qed.

(** A write to a pellet that lies on one of the coordinates [sp] leaves the
    reserved slots alone. *)
Lemma alter_reserved sp res g f o :
  (∀ q, Game.Pellet g !! o = Some q → coords q ∈ sp) →
  reserved sp res g →
  reserved sp res (Game.set_Pellet (alter f o (Game.Pellet g)) g).
Proof.
  intros Ho [Hnd Hres]. split; [done|]. intros i Hi. cbn.
  destruct (Hres i Hi) as (p & Hp & Hc & Hsp).
  exists p. split; [|done]. rewrite list_lookup_alter_ne; [done|].
  intros ->. by apply Hsp, Ho.
Qed.

Lemma RemovePallet_reserved sp res pac g :
  (Pac.X pac, Pac.Y pac) ∈ sp →
  reserved sp res g → reserved sp res (RemovePallet pac g).
Proof.
  intros Hpac Hres. unfold RemovePallet.
  destruct (GetPallet _ _ g) as [o|] eqn:Ho; [|done].
  apply alter_reserved; [|done]. intros q Hq.
  by rewrite (GetPallet_Some_coords _ _ _ _ _ Ho Hq).
Qed.

Lemma reconcile_step_reserved sp res g i :
  stationed sp g → reserved sp res g → reserved sp res (reconcile_step g i).
Proof.
  intros Hst Hres. unfold reconcile_step.
  destruct (Game.MyPacs g !! i) as [pac|] eqn:Hpac; [|done].
  assert (Hr : reserved sp res (RemovePallet pac g)).
  { apply RemovePallet_reserved; [|done]. apply Hst, elem_of_app. left.
    by eapply list_elem_of_lookup_2. }
  destruct Hr as [Hnd Hr]. split; [done|]. exact Hr.
Qed.

Lemma reconcile_reserved sp res g :
  stationed sp g → reserved sp res g →
  reserved sp res (reconcile_opponents (reconcile_mine g)).
Proof.
  intros Hst Hres.
  assert (Hmine : reserved sp res (reconcile_mine g)).
  { unfold reconcile_mine. generalize (seq 0 (length (Game.MyPacs g))).
    intros l. revert g Hst Hres.
    induction l as [|i l IH]; intros g Hst Hres; [done|]. cbn [foldl].
    apply IH.
    - eapply evolves_stationed; [apply reconcile_step_evolves|done].
    - by apply reconcile_step_reserved. }
  pose proof (evolves_stationed sp _ _ (reconcile_mine_evolves g) Hst) as Hst1.
  unfold reconcile_opponents.
  assert (Hopp : ∀ pac, pac ∈ Game.OpponentPacs (reconcile_mine g) →
                        (Pac.X pac, Pac.Y pac) ∈ sp).
  { intros pac Hin. apply Hst1, elem_of_app. by right. }
  revert Hopp Hmine. generalize (Game.OpponentPacs (reconcile_mine g)).
  generalize (reconcile_mine g). intros g1 l. revert g1.
  induction l as [|pac l IH]; intros g1 Hopp Hres1; [done|]. cbn [foldl].
  apply IH.
  - intros pac' Hin. apply Hopp. by right.
  - apply RemovePallet_reserved; [|done]. apply Hopp. by left.
Qed.

Lemma length_filter_ne (i : nat) (l : list nat) :
  NoDup l → (length l ≤ S (length (filter (λ j, j ≠ i) l)))%nat.
Proof.
  induction 1 as [|x l Hx Hnd IH]; [cbn; lia|].
  destruct (decide (x = i)) as [->|Hne].
  - rewrite filter_cons_False by (intros ?; done).
    assert (filter (λ j, j ≠ i) l = l) as ->; [|cbn; lia].
    clear IH Hnd. induction l as [|y l IH]; [done|].
    apply not_elem_of_cons in Hx as [Hy Hx].
    rewrite filter_cons_True by done. by rewrite IH.
  - rewrite filter_cons_True by done. cbn. lia.
Qed.

(** The planning of one pac returns when a reserved candidate is left, and
    takes at most one of them. *)
Lemma plan_returns sp res pac g moves :
  res ≠ [] → reserved sp res g → placed g →
  on_grid (Game.Grid g) (Pac.X pac) (Pac.Y pac) →
  (Pac.X pac, Pac.Y pac) ∈ sp →
  ∃ pac' g' moves' res',
    plan pac g moves = Ok (pac', g', moves') ∧
    reserved sp res' g' ∧ (length res ≤ S (length res'))%nat.
Proof.
  intros Hne Hres [_ Hpl] Hon Hsp.
  destruct (decide (Pac.X pac = Pac.TargetX pac ∧ Pac.Y pac = Pac.TargetY pac))
    as [Hidle|Hbusy].
  2:{ unfold plan. rewrite decide_False by done.
      eexists _, _, _, res. split; [done|]. split; [done|lia]. }
  rewrite plan_idle by done. cbv zeta.
  assert (Hres1 : reserved sp res (arrive pac g).2).
  { unfold arrive. destruct (GetPallet _ _ g) as [o|] eqn:Ho; [|done].
    cbn [snd]. apply alter_reserved; [|done]. intros q Hq.
    rewrite (GetPallet_Some_coords _ _ _ _ _ Ho Hq).
    destruct Hidle as [<- <-]. done. }
  destruct (arrive_frame pac g) as (Hgrid1 & _ & Hmoved1).
  destruct Hmoved1 as (_ & _ & HX & HY & _).
  assert (Hpel1 : ∀ p, p ∈ Game.Pellet (arrive pac g).2 →
                       on_grid (Game.Grid g) (Pellet.X p) (Pellet.Y p)).
  { intros p [j Hj]%list_elem_of_lookup_1.
    destruct (arrive_pellets pac g j p Hj) as (q & Hq & Hco & _).
    injection Hco as -> ->. by eapply Hpl, list_elem_of_lookup_2. }
  revert Hres1 Hpel1 HX HY Hgrid1.
  generalize (arrive pac g).1 (arrive pac g).2. intros pac1 g1.
  intros Hres1 Hpel1 HX HY Hgrid1.
  assert (Hscan : ∀ value, ∃ r d,
            closest_scan value pac1 (Game.Grid g1) (Game.Pellet g1) 0%nat None 0
              = Ok r ∧
            first_minimum value pac1 (Game.Grid g1) (Game.Pellet g1) r d).
  { intros value.
    apply (closest_scan_first_minimum value pac1 (Game.Grid g1)
             (Game.Pellet g1) [] None 0).
    - intros p Hp _. rewrite Hgrid1.
      destruct (proj2 (at_xy_on_grid (Game.Grid g) (Pac.X pac1) (Pac.Y pac1)))
        as [c Hc]; [by rewrite HX, HY|].
      destruct (proj2 (at_xy_on_grid (Game.Grid g) (Pellet.X p) (Pellet.Y p)))
        as [c' Hc']; [by apply Hpel1|].
      eexists. by eapply pathLen_on_grid.
    - intros j q Hj. done. }
  assert (Hcommit : ∀ i, is_Some (Game.Pellet g1 !! i) →
            ∃ pac' g' moves' res',
              commit i pac1 g1 moves = Ok (pac', g', moves') ∧
              reserved sp res' g' ∧ (length res ≤ S (length res'))%nat).
  { intros i [p Hp].
    destruct (proj2 (at_xy_on_grid (Game.Grid g1) (Pac.X pac1) (Pac.Y pac1)))
      as [c Hc]; [by rewrite Hgrid1, HX, HY|].
    destruct (proj2 (at_xy_on_grid (Game.Grid g1) (Pellet.X p) (Pellet.Y p)))
      as [c' Hc'].
    { rewrite Hgrid1. by eapply Hpel1, list_elem_of_lookup_2. }
    destruct (commit_Ok i pac1 g1 moves p c c' Hp Hc Hc') as [d ->].
    eexists _, _, _, (filter (λ j, j ≠ i) res). split; [done|].
    destruct Hres1 as [Hnd Hres1]. split; [|by apply length_filter_ne].
    split; [by apply NoDup_filter|].
    intros j [Hji Hj]%list_elem_of_filter.
    destruct (Hres1 j Hj) as (q & Hq & Hcand & Hfree).
    exists q. split; [|done]. cbn. by rewrite list_lookup_alter_ne. }
  unfold GetClosestSuperPallet, GetClosestRegularPallet.
  destruct (Hscan 10) as ([i|] & d & -> & Hmin); cbn [mbind result_bind].
  { apply Hcommit. destruct Hmin as [(p & Hp & _) _]. eauto. }
  destruct (Hscan 1) as ([i|] & d' & -> & Hmin'); cbn [mbind result_bind].
  { apply Hcommit. destruct Hmin' as [(p & Hp & _) _]. eauto. }
  exfalso. destruct res as [|i res]; [done|].
  destruct Hres1 as [_ Hres1].
  destruct (Hres1 i) as (p & Hp & Hcand & _); [by left|].
  apply candidate_eligible in Hcand as [Hc|Hc].
  - by eapply Hmin.
  - by eapply Hmin'.
Qed.

Lemma plan_loop_returns sp slots : ∀ res g moves,
  (∀ i, i ∈ slots → is_Some (Game.MyPacs g !! i)) →
  (length slots ≤ length res)%nat →
  reserved sp res g → stationed sp g → placed g →
  ∃ g' moves', plan_loop slots g moves = Ok (g', moves').
Proof.
  induction slots as [|i slots IH]; intros res g moves Hslots Hlen Hres Hst Hpl.
  { by eexists _, _. }
  destruct (Hslots i) as [pac Hpac]; [by left|].
  assert (Hin : pac ∈ Game.MyPacs g) by (by eapply list_elem_of_lookup_2).
  destruct (plan_returns sp res pac g moves)
    as (pac' & g1 & moves1 & res' & Hplan & Hres' & Hlen'); [|done|done| | |].
  { intros ->. cbn in Hlen. lia. }
  { by apply Hpl. }
  { apply Hst, elem_of_app. by left. }
  destruct (plan_step_state i pac g moves pac' g1 moves1 Hpac Hplan)
    as [Hstep Hpacs].
  pose proof (plan_loop_evolves [i] _ _ _ _ Hstep) as Hev.
  cbn [plan_loop]. rewrite Hpac. cbn [deref mbind result_bind].
  rewrite Hplan. cbn [mbind result_bind].
  apply (IH res').
  - intros j Hj. rewrite Hpacs. apply lookup_lt_is_Some.
    rewrite length_insert. apply lookup_lt_is_Some, Hslots. by right.
  - cbn in Hlen. lia.
  - destruct Hres' as [Hnd Hr]. split; [done|]. exact Hr.
  - by eapply evolves_stationed.
  - by eapply evolves_placed.
Qed.

Lemma crowd_game_placed : placed crowd_game.
Proof.
  split.
  - intros pac ->%list_elem_of_singleton.
    split; [done|]. eexists. split; [reflexivity|]. cbn. lia.
  - intros p Hp. repeat (apply elem_of_cons in Hp as [->|Hp]);
      [| | |by apply elem_of_nil in Hp];
      (split; [done|]; eexists; split; [reflexivity|]; cbn; lia).
Qed.

(** X22: when the owned pacs and the pellets lie on the grid and there are
    at least as many candidate pellets (value 10 or 1, neither consumed nor
    targeted) on which no pac stands as there are owned pacs, [PlayTurn]
    returns: it neither panics nor runs out of steps. *)
Theorem PlayTurn_returns_with_free_candidates g :
  placed g →
  (length (Game.MyPacs g)
   ≤ length (filter (λ p, free g p) (Game.Pellet g)))%nat →
  ∃ g' moves, PlayTurn g = Ok (g', moves).
Proof.
  intros Hpl Hcount.
  destruct (filter_slots (λ p, free g p) (Game.Pellet g))
    as (res & Hnd & Hlen & Hres).
  assert (Hreserved : reserved (spots g) res g).
  { split; [done|]. intros i Hi. destruct (Hres i Hi) as (p & Hp & Hfree).
    exists p. split; [done|]. unfold free in Hfree.
    apply andb_prop_elim in Hfree as [Hc Hs].
    split; [by apply Is_true_eq_true|]. by apply bool_decide_unpack in Hs. }
  assert (Hst : stationed (spots g) g).
  { intros pac Hin. unfold spots.
    by apply (list_elem_of_fmap_2 (λ pac, (Pac.X pac, Pac.Y pac))). }
  pose proof (reconcile_mine_evolves g) as Hev1.
  pose proof (reconcile_opponents_evolves (reconcile_mine g)) as Hev2.
  unfold PlayTurn. cbv zeta.
  apply (plan_loop_returns (spots g) _ res).
  - intros i Hi%elem_of_seq. apply lookup_lt_is_Some. lia.
  - rewrite length_seq.
    rewrite <- (Forall2_length _ _ _ (ev_mine _ _ Hev2)).
    rewrite <- (Forall2_length _ _ _ (ev_mine _ _ Hev1)). lia.
  - by apply reconcile_reserved.
  - by eapply evolves_stationed, evolves_stationed.
  - by eapply evolves_placed, evolves_placed.
Qed.

Lemma PlayTurn_returns_with_free_candidates_witness :
  ∃ g' moves, PlayTurn crowd_game = Ok (g', moves).
Proof.
  apply (PlayTurn_returns_with_free_candidates crowd_game).
  - exact crowd_game_placed.
  - vm_compute. lia.
Defined.
